(** * media/categorise.py: the release-filename tokeniser

    A shallow embedding of [src/media/categorise.py] and the properties of
    its tokeniser ([_tokenise]), its word classifiers and the admission
    predicate [is_anime].

    Conventions of the embedding.
    - A Python [str] is a [list ascii]; the 256 values of [ascii] stand for
      the code points U+0000..U+00FF, and the Unicode-aware string methods
      ([lower], [isnumeric], [strip], the regex class [\d]) are given on
      that range.
    - Python exceptions are values of [exn]; a computation that may raise
      is a [result].  [print] is kept as a list of [event]s next to the
      result (the monad [M]), so that what the code reports on its
      console can be told apart from what it returns.
    - A Python [int] is a [Z].  [int(str)] is CPython's, with the limit it
      has by default on the digits of the text, 4300
      ([sys.int_info.default_max_str_digits]): a longer number is a
      [ValueError].
    - The [re] module is embedded as a backtracking matcher ([run]) that
      lists the ways a pattern can match in the order the engine tries
      them; [re.match] takes the first. *)

From Stdlib Require Import Ascii String List ZArith Bool Arith Lia.
Import ListNotations.

Set Implicit Arguments.

Local Open Scope char_scope.
Local Open Scope nat_scope.
Local Open Scope list_scope.

(** ** Strings *)

Definition str := list ascii.

Definition lit (s : string) : str := list_ascii_of_string s.
Coercion lit : string >-> str.

Fixpoint str_eqb (a b : str) : bool :=
  match a, b with
  | [], [] => true
  | x :: a', y :: b' => Ascii.eqb x y && str_eqb a' b'
  | _, _ => false
  end.

(** [c in s] for a one-character [c], and [s in S] for a set of strings
    (sets are only ever tested for membership, so a list is enough). *)
Definition char_in (c : ascii) (s : str) : bool := existsb (Ascii.eqb c) s.
Definition str_in (s : str) (S : list str) : bool := existsb (str_eqb s) S.

Definition code (c : ascii) : nat := nat_of_ascii c.
Definition between (lo hi n : nat) : bool := (lo <=? n) && (n <=? hi).

(** [str.isnumeric] on one character: the decimal digits, and in the
    upper half the superscripts U+00B2, U+00B3, U+00B9 and the vulgar
    fractions U+00BC..U+00BE. *)
Definition char_isnumeric (c : ascii) : bool :=
  let n := code c in
  between 48 57 n || (n =? 178) || (n =? 179) || (n =? 185) || between 188 190 n.

(** [s.isnumeric()]: every character numeric and at least one character. *)
Definition isnumeric (s : str) : bool :=
  match s with
  | [] => false
  | _ => forallb char_isnumeric s
  end.

(** The class [\d] of [re] on [str] patterns: Unicode decimal digits. *)
Definition char_isdecimal (c : ascii) : bool := between 48 57 (code c).

(** Whitespace as [str.strip] sees it: TAB..CR, FS..US, space, NEL, NBSP. *)
Definition char_isspace (c : ascii) : bool :=
  let n := code c in
  between 9 13 n || between 28 32 n || (n =? 133) || (n =? 160).

Definition char_lower (c : ascii) : ascii :=
  let n := code c in
  if between 65 90 n || (between 192 222 n && negb (n =? 215))
  then ascii_of_nat (n + 32) else c.

Definition lower (s : str) : str := map char_lower s.

Fixpoint lstrip (s : str) : str :=
  match s with
  | c :: s' => if char_isspace c then lstrip s' else s
  | [] => []
  end.

Definition rstrip (s : str) : str := rev (lstrip (rev s)).

(** [s.count(c)] for a one-character [c]. *)
Definition count (c : ascii) (s : str) : nat :=
  length (filter (Ascii.eqb c) s).

(** [s.split(c)] for a one-character separator [c]. *)
Fixpoint split_on (c : ascii) (s : str) : list str :=
  match s with
  | [] => [[]]
  | x :: s' =>
      if Ascii.eqb x c then [] :: split_on c s'
      else match split_on c s' with
           | w :: ws => (x :: w) :: ws
           | [] => [[x]]
           end
  end.

Fixpoint starts_with (p s : str) : bool :=
  match p, s with
  | [], _ => true
  | x :: p', y :: s' => Ascii.eqb x y && starts_with p' s'
  | _ :: _, [] => false
  end.

(** The first occurrence of [sep] in [s]: the text before it and the text
    after it. *)
Fixpoint find_sub (sep s : str) : option (str * str) :=
  if starts_with sep s then Some ([], skipn (length sep) s)
  else match s with
       | [] => None
       | x :: s' =>
           match find_sub sep s' with
           | Some (a, b) => Some (x :: a, b)
           | None => None
           end
       end.

(** [s.split(sep, maxsplit=1)] for a non-empty [sep]. *)
Definition split_max1 (sep s : str) : list str :=
  match find_sub sep s with
  | Some (a, b) => [a; b]
  | None => [s]
  end.

(** The slices [s[:-1]] and [s[1:-1]]. *)
Definition drop_last (s : str) : str := removelast s.
Definition strip_ends (s : str) : str := removelast (tl s).

(** ** Exceptions, results and console output *)

Inductive exn : Type :=
| RuntimeError (unclassified : list str)
| ValueError
| IndexError
| TypeError.

Inductive result (A : Type) : Type :=
| Ok (a : A)
| Raise (e : exn).
Arguments Raise {A} e.

Definition rbind {A B} (m : result A) (f : A -> result B) : result B :=
  match m with
  | Ok a => f a
  | Raise e => Raise e
  end.

Declare Scope result_scope.
Delimit Scope result_scope with result.
Notation "x <- m ;; k" := (rbind m (fun x => k))
  (at level 61, m at next level, right associativity) : result_scope.

(** [a and b] with Python's short circuit. *)
Definition and_then (a b : result bool) : result bool :=
  rbind a (fun x => if x then b else Ok false).
Infix "&&&" := and_then (at level 40, left associativity) : result_scope.

(** [s[i]] for [i >= 0] and [s[-1]]. *)
Definition getitem (s : str) (i : nat) : result ascii :=
  match nth_error s i with
  | Some c => Ok c
  | None => Raise IndexError
  end.

Definition getlast (s : str) : result ascii :=
  match rev s with
  | c :: _ => Ok c
  | [] => Raise IndexError
  end.

(** [a, b = l]. *)
Definition unpack2 {A} (l : list A) : result (A * A) :=
  match l with
  | [a; b] => Ok (a, b)
  | _ => Raise ValueError
  end.

(** What the code prints: the warning of [_tokenise_tag] (with the word
    list it shows) and the failure report of [_tokenise] (with the current
    value of [string], the tag content and the collected failures). *)
Inductive event : Type :=
| LanguageWarning (words : list str)
| SplitFailure (string value : str) (failures : list exn).

Definition M (A : Type) : Type := (result A * list event)%type.

Definition ret {A} (a : A) : M A := (Ok a, []).
Definition raise {A} (e : exn) : M A := (Raise e, []).
Definition print (ev : event) : M unit := (Ok tt, [ev]).
Definition lift {A} (r : result A) : M A := (r, []).

Definition bind {A B} (m : M A) (f : A -> M B) : M B :=
  match m with
  | (Ok a, out) => let (r, out') := f a in (r, out ++ out')
  | (Raise e, out) => (Raise e, out)
  end.

Declare Scope M_scope.
Delimit Scope M_scope with M.
Notation "x <- m ;; k" := (bind m (fun x => k))
  (at level 61, m at next level, right associativity) : M_scope.
Notation "m ;;; k" := (bind m (fun _ => k))
  (at level 61, right associativity) : M_scope.

(** ** The token model *)

Inductive Token : Type :=
| Extension (value : str)
| AudioQuality (value : str)
| VideoQuality (value : str)
| Source (value : str)
| SubGroup (value : str)
| RandomTag (value : str)
| AudioLanguage (value : str)
| SubtitlesLanguage (value : str)
| Hash (value : str)
| Title (value : str)
| EpisodeNumber (value : Z).

Definition KNOWN_GROUPS : list str :=
  [ lit "Erai-raws"; lit "HorribleSubs"; lit "FFF"; lit "Commie";
    lit "SallySubs"; lit "CBM"; lit "Fate-Akuma"; lit "niizk"; lit "OZC";
    lit "kuchikirukia"; lit "Evil_Genuis"; lit "illya_"; lit "Beatrice-Raws";
    lit "Zurako"; lit "NoobSubs"; lit "OTR"; lit "Orphan-fussoir"; lit "lleur";
    lit "REVO"; lit "deanzel"; lit "RH"; lit "FMA1394"; lit "R2JxR1";
    lit "Elysium"; lit "Afro"; lit "Kametsu"; lit "bxyh"; lit "BSS"; lit "NOP";
    lit "Team Nanban"; lit "35mm" ].

Definition hexdigits : str := lit "0123456789abcdefABCDEF".

(** ** Word classifiers *)

Definition _is_source_tag (string : str) : result bool :=
  Ok (str_in (lower string)
        [ lit "bluray"; lit "blu-ray"; lit "bd"; lit "bdrip"; lit "dvd";
          lit "dvdrip"; lit "web"; lit "webrip"; lit "hdtv"; lit "hardsub";
          lit "vrv" ]).

Definition _is_audio_tag (string : str) : result bool :=
  if str_in (lower string)
       [ lit "aac"; lit "ac3"; lit "flac"; lit "vorbis"; lit "dts";
         lit "aac_5.1"; lit "dts-es"; lit "2ch" ]
  then Ok true
  else
    (b <- (Ok (length string =? 3)
           &&& (c <- getitem string 0 ;; Ok (char_isnumeric c))
           &&& (c <- getitem string 1 ;; Ok (Ascii.eqb c "."))
           &&& (c <- getitem string 2 ;; Ok (char_isnumeric c))) ;;
     if b then Ok true else Ok false)%result.

Definition _is_language_tag (string : str) : result bool :=
  Ok (str_in (lower string) [ lit "jp"; lit "en"; lit "dual" ]).

Definition _is_video_tag (string : str) : result bool :=
  if str_in (lower string)
       [ lit "hevc"; lit "hi10p"; lit "x264"; lit "x265"; lit "h264";
         lit "10bit" ]
  then Ok true
  else
    (b <- (Ok (isnumeric (drop_last string))
           &&& (c <- getlast string ;; Ok (Ascii.eqb c "p"))) ;;
     if b then Ok true
     else if count "x" string =? 1 then
       p <- unpack2 (split_on "x" string) ;;
       let (width, height) := p in
       if isnumeric width && isnumeric height then Ok true else Ok false
     else Ok false)%result.

(** ** [_tokenise_tag] *)

Section TokeniseTag.
Local Open Scope M_scope.

(** The [for word in words] loop; [words] is the whole argument, which
    the warning prints. *)
Fixpoint _tokenise_tag_loop (words rest : list str)
    (tokens : list Token) (unclassified : list str)
  : M (list Token * list str) :=
  match rest with
  | [] => ret (tokens, unclassified)
  | word :: rest' =>
      a <- lift (_is_audio_tag word) ;;
      if a then _tokenise_tag_loop words rest' (tokens ++ [AudioQuality word]) unclassified
      else
        v <- lift (_is_video_tag word) ;;
        if v then _tokenise_tag_loop words rest' (tokens ++ [VideoQuality word]) unclassified
        else
          s <- lift (_is_source_tag word) ;;
          if s then _tokenise_tag_loop words rest' (tokens ++ [Source word]) unclassified
          else
            l <- lift (_is_language_tag word) ;;
            if l then
              print (LanguageWarning words) ;;;
              _tokenise_tag_loop words rest' (tokens ++ [AudioLanguage word]) unclassified
            else _tokenise_tag_loop words rest' tokens (unclassified ++ [word])
  end.

Definition _tokenise_tag (words : list str) : M (list Token) :=
  r <- _tokenise_tag_loop words words [] [] ;;
  let (tokens, unclassified) := r in
  match unclassified with
  | _ :: _ => raise (RuntimeError unclassified)
  | [] => ret tokens
  end.
End TokeniseTag.

(** ** Regular expressions

    The part of [re] the module uses.  [Chr p] is one character of a class
    (a literal, a bracket class, [.] or [\d]); [Alt] is ordered choice;
    [Star true] is the greedy [*], [Star false] the lazy [*?]; [Group] is a
    named group; [Bol] and [Eol] are [^] and [$]. *)

Inductive regex : Type :=
| Chr (p : ascii -> bool)
| Eps
| Seq (a b : regex)
| Alt (a b : regex)
| Star (greedy : bool) (a : regex)
| Group (name : string) (a : regex)
| Bol
| Eol.

Definition Char (c : ascii) : regex := Chr (Ascii.eqb c).
Definition NotChar (c : ascii) : regex := Chr (fun x => negb (Ascii.eqb x c)).
Definition newline : ascii := "010".
Definition Dot : regex := NotChar newline.
Definition Digit : regex := Chr char_isdecimal.
Definition Plus (greedy : bool) (a : regex) : regex := Seq a (Star greedy a).
Definition Opt (a : regex) : regex := Alt a Eps.

Fixpoint Seqs (l : list regex) : regex :=
  match l with
  | [] => Eps
  | [a] => a
  | a :: l' => Seq a (Seqs l')
  end.

Fixpoint Lit (s : str) : regex :=
  match s with
  | [] => Eps
  | [c] => Char c
  | c :: s' => Seq (Char c) (Lit s')
  end.

(** A position of the matcher in its subject: how many characters are
    consumed, the text that is left, and the groups set so far (the latest
    first). *)
Record mstate : Type := MState {
  pos : nat;
  rest : str;
  groups : list (string * str)
}.

Definition step_char (p : ascii -> bool) (st : mstate) : list mstate :=
  match rest st with
  | c :: s' => if p c then [MState (S (pos st)) s' (groups st)] else []
  | [] => []
  end.

Definition set_group (name : string) (st0 st1 : mstate) : mstate :=
  MState (pos st1) (rest st1)
         ((name, firstn (pos st1 - pos st0) (rest st0)) :: groups st1).

Definition at_eol (st : mstate) : bool :=
  match rest st with
  | [] => true
  | [c] => Ascii.eqb c newline
  | _ => false
  end.

(** The iterations of a starred pattern from [st], in the order the engine
    tries them: a greedy star first tries one more iteration, a lazy one
    first tries to stop.  An iteration must consume a character, so the
    length of the text left bounds the number of iterations. *)
Fixpoint star_loop (body : mstate -> list mstate) (greedy : bool)
    (fuel : nat) (st : mstate) : list mstate :=
  match fuel with
  | 0 => [st]
  | S fuel' =>
      let more :=
        flat_map (fun st' =>
                    if length (rest st') <? length (rest st)
                    then star_loop body greedy fuel' st' else [])
                 (body st) in
      if greedy then more ++ [st] else st :: more
  end.

(** All the ways [r] matches at [st], in the engine's order of preference. *)
Fixpoint run (r : regex) (st : mstate) : list mstate :=
  match r with
  | Chr p => step_char p st
  | Eps => [st]
  | Seq a b => flat_map (run b) (run a st)
  | Alt a b => run a st ++ run b st
  | Star greedy a => star_loop (run a) greedy (length (rest st)) st
  | Group name a => map (set_group name st) (run a st)
  | Bol => if pos st =? 0 then [st] else []
  | Eol => if at_eol st then [st] else []
  end.

(** [re.match(r, s)]: the first way [r] matches at the start of [s]. *)
Definition re_match (r : regex) (s : str) : option mstate :=
  hd_error (run r (MState 0 s [])).

(** [m.groupdict()[name]]: [None] for a group that took no part. *)
Fixpoint assoc (name : string) (l : list (string * str)) : option str :=
  match l with
  | [] => None
  | (n, v) :: l' => if String.eqb n name then Some v else assoc name l'
  end.

Definition group (m : mstate) (name : string) : option str :=
  assoc name (groups m).

(** [re.findall(r, s)] for a pattern without groups: the matched texts,
    scanning left to right and resuming after each match. *)
Fixpoint findall_from (r : regex) (start skip : nat) (s : str) : list str :=
  match skip, s with
  | S k, _ :: s' => findall_from r (S start) k s'
  | S k, [] => []
  | 0, _ =>
      match hd_error (run r (MState start s [])) with
      | Some m =>
          firstn (pos m - start) s ::
            match s with
            | _ :: s' => findall_from r (S start) (pos m - start - 1) s'
            | [] => []
            end
      | None =>
          match s with
          | _ :: s' => findall_from r (S start) 0 s'
          | [] => []
          end
      end
  end.

Definition findall (r : regex) (s : str) : list str := findall_from r 0 0 s.

(** ** The patterns of the module *)

(** [\[[^]]+]] *)
Definition TAG_PATTERN : regex :=
  Seqs [Char "["; Plus true (NotChar "]"); Char "]"].

(** [^(?P<group>\[[^]]+])?(?P<name>.*?)(?P<tags>\[.+])+\.(?P<ext>[^.]+)$] *)
Definition ANIME_PATTERN : regex :=
  Seqs [ Bol;
         Opt (Group "group" (Seqs [Char "["; Plus true (NotChar "]"); Char "]"]));
         Group "name" (Star false Dot);
         Plus true (Group "tags" (Seqs [Char "["; Plus true Dot; Char "]"]));
         Char ".";
         Group "ext" (Plus true (NotChar "."));
         Eol ].

(** [Disc \d] and [v\d] *)
Definition DISC_PATTERN : regex := Seqs [Lit (lit "Disc "); Digit].
Definition VERSION_PATTERN : regex := Seqs [Char "v"; Digit].

(** [^(?P<name>.+?) - E?(?P<episode>\d+)(\+E?(?P<second_episode>\d+))?(?P<version>v\d+)?(?P<special_tag> END)?$]
    (the third group has no name and is not in [groupdict]). *)
Definition TITLE_PATTERN : regex :=
  Seqs [ Bol;
         Group "name" (Plus false Dot);
         Lit (lit " - ");
         Opt (Char "E");
         Group "episode" (Plus true Digit);
         Opt (Seqs [Char "+"; Opt (Char "E");
                    Group "second_episode" (Plus true Digit)]);
         Opt (Group "version" (Seqs [Char "v"; Plus true Digit]));
         Opt (Group "special_tag" (Lit (lit " END")));
         Eol ].

(** ** [int] *)

Definition digit_value (c : ascii) : Z := Z.of_nat (code c - 48).

(** The number a text of decimal digits writes. *)
Definition decimal (s : str) : Z :=
  fold_left (fun acc c => (10 * acc + digit_value c)%Z) s 0%Z.

(** The blanks [int] lets stand around the number: the characters of
    [str.isspace] but U+001C..U+001F, which [str.strip] takes and [int]
    does not. *)
Definition int_isspace (c : ascii) : bool :=
  char_isspace c && negb (between 28 31 (code c)).

Fixpoint int_lstrip (s : str) : str :=
  match s with
  | c :: s' => if int_isspace c then int_lstrip s' else s
  | [] => []
  end.

Definition int_strip (s : str) : str := rev (int_lstrip (rev (int_lstrip s))).

(** The digits of an [int] text: decimal digits, with single underscores
    between digits. *)
Fixpoint int_digits_ok (after_digit : bool) (l : str) : bool :=
  match l with
  | [] => after_digit
  | c :: l' =>
      if char_isdecimal c then int_digits_ok true l'
      else if Ascii.eqb c "_" then after_digit && int_digits_ok false l'
      else false
  end.

(** [sys.int_info.default_max_str_digits] *)
Definition int_max_str_digits : nat := 4300.

Arguments int_max_str_digits : simpl never.

(** [int(s)] for a [str], in base 10: blanks around, an optional sign, the
    digits; [ValueError] for any other text, and for a number of more than
    [int_max_str_digits] digits (the sign and the underscores are not
    counted, leading zeros are). *)
Definition int (s : str) : result Z :=
  let t := int_strip s in
  let (negative, body) :=
    match t with
    | c :: r =>
        if Ascii.eqb c "+" then (false, r)
        else if Ascii.eqb c "-" then (true, r)
        else (false, t)
    | [] => (false, t)
    end in
  if int_digits_ok false body then
    let ds := filter (fun c => negb (Ascii.eqb c "_")) body in
    if length ds <=? int_max_str_digits then
      let n := decimal ds in
      Ok (if negative then (- n)%Z else n)
    else Raise ValueError
  else Raise ValueError.

(** ** [_tokenise] *)

Definition is_some {A} (o : option A) : bool :=
  match o with Some _ => true | None => false end.

Definition nonempty {A} (l : list A) : bool :=
  match l with [] => false | _ :: _ => true end.

(** [set(a) - set(b)], kept as the list of the characters of [a] that are
    not in [b]. *)
Definition set_minus (a b : str) : str :=
  filter (fun c => negb (char_in c b)) a.

Definition loop_state : Type := (str * list Token * list str)%type.

Section Tokenise.
Local Open Scope M_scope.

(** [try: m / except RuntimeError as e: on_error e / else: on_ok a]; any
    other exception goes on to the caller, and what [m] printed stays
    printed. *)
Definition try_except_RuntimeError {A B} (m : M A)
    (on_error : exn -> M B) (on_ok : A -> M B) : M B :=
  match m with
  | (Ok a, out) => (Ok tt, out) ;;; on_ok a
  | (Raise (RuntimeError u), out) => (Ok tt, out) ;;; on_error (RuntimeError u)
  | (Raise e, out) => (Raise e, out)
  end.

(** The [for char in (' ', ',', '-', '.', '_')] loop: the result is the
    token list, [success] and [failures]. *)
Fixpoint split_attempts (value : str) (chars : list ascii)
    (tokens : list Token) (failures : list exn)
  : M (list Token * bool * list exn) :=
  match chars with
  | [] => ret (tokens, false, failures)
  | char :: chars' =>
      try_except_RuntimeError (_tokenise_tag (split_on char value))
        (fun e => split_attempts value chars' tokens (failures ++ [e]))
        (fun new => ret (tokens ++ new, true, failures))
  end.

(** [(' ', ',', '-', '.', '_')] *)
Definition delimiters : list ascii := [" "; ","; "-"; "."; "_"]%char.

Definition is_noise (value : str) : bool :=
  is_some (re_match DISC_PATTERN value)
  || is_some (re_match VERSION_PATTERN value)
  || str_in value [lit "Directors Cut"; lit "Clean Screen"].

(** [len(value) == 8 and not (set(value) - set(hexdigits))] *)
Definition is_hash (value : str) : bool :=
  (length value =? 8) && negb (nonempty (set_minus value hexdigits)).

(** The last branch of the chain: the attempts to split [value], and the
    report when none succeeds. *)
Definition split_and_classify (string value : str) (tokens : list Token)
  : M (list Token) :=
  r <- split_attempts value delimiters tokens [] ;;
  let '(tokens, success, failures) := r in
  (if negb success then print (SplitFailure string value failures)
   else ret tt) ;;;
  ret tokens.

(** The [if]/[elif] chain of the loop body: the tokens after the tag with
    content [value] is classified ([string] is the text still to scan,
    which the failure report prints). *)
Definition classify_tag (string value : str) (tokens : list Token)
  : M (list Token) :=
  if str_in value KNOWN_GROUPS then
    ret (tokens ++ [SubGroup value])
  else if is_hash value then
    ret (tokens ++ [Hash value])
  else if str_eqb value (lit "Multiple Subtitle") then
    ret ((tokens ++ [SubtitlesLanguage (lit "Multiple")])
           ++ [SubtitlesLanguage (lit "EN")])
  else if str_eqb value (lit "Dual Audio") then
    ret ((tokens ++ [AudioLanguage (lit "EN")]) ++ [AudioLanguage (lit "JP")])
  else if is_noise value then
    ret tokens
  else
    split_and_classify string value tokens.

(** One turn of [for tag in re.findall(...)]. *)
Definition tokenise_step (tag : str) (state : loop_state) : M loop_state :=
  let '(string, tokens, to_tokenise) := state in
  let value := strip_ends tag in
  tokens <- classify_tag string value tokens ;;
  p <- lift (unpack2 (split_max1 tag string)) ;;
  let (remainder, string) := p in
  let remainder := rstrip remainder in
  let string := lstrip string in
  ret (string, tokens,
       if nonempty remainder then to_tokenise ++ [remainder] else to_tokenise).

Fixpoint tokenise_loop (tags : list str) (state : loop_state) : M loop_state :=
  match tags with
  | [] => ret state
  | tag :: tags' =>
      state' <- tokenise_step tag state ;;
      tokenise_loop tags' state'
  end.

(** The tag loop of [_tokenise] with the trailing text added: the tokens
    and residual segments before the title is looked for. *)
Definition extract_tags (string : str) : M (list Token * list str) :=
  st <- tokenise_loop (findall TAG_PATTERN string) (string, [], []) ;;
  let '(string, tokens, to_tokenise) := st in
  ret (tokens, if nonempty string then to_tokenise ++ [string] else to_tokenise).

(** The [if len(to_tokenise) == 1] block. *)
Definition title_episode (tokens : list Token) (to_tokenise : list str)
  : M (list Token * list str) :=
  match to_tokenise with
  | [segment] =>
      match re_match TITLE_PATTERN segment with
      | Some d =>
          match group d "name", group d "episode" with
          | Some name, Some episode =>
              let tokens := tokens ++ [Title name] in
              n <- lift (int episode) ;;
              let tokens := tokens ++ [EpisodeNumber n] in
              match group d "second_episode" with
              | Some second =>
                  n2 <- lift (int second) ;;
                  ret (tokens ++ [EpisodeNumber n2], [])
              | None => ret (tokens, [])
              end
          | _, _ => raise TypeError
          end
      | None => ret (tokens, to_tokenise)
      end
  | _ => ret (tokens, to_tokenise)
  end.

Definition _tokenise (string : str) : M (list Token * list str) :=
  r <- extract_tags string ;;
  let (tokens, to_tokenise) := r in
  title_episode tokens to_tokenise.
End Tokenise.

(** ** [is_anime] *)

Definition is_anime (string : str) : bool :=
  is_some (re_match ANIME_PATTERN string) && char_in " " string.


(** * Definitions used to state the properties *)

Definition holds (r : result bool) : bool :=
  match r with
  | Ok true => true
  | _ => false
  end.

(** The category of a word as the specification words it: the first of
    audio, video, source, language whose predicate holds. *)
Definition first_category (w : str) : option Token :=
  if holds (_is_audio_tag w) then Some (AudioQuality w)
  else if holds (_is_video_tag w) then Some (VideoQuality w)
  else if holds (_is_source_tag w) then Some (Source w)
  else if holds (_is_language_tag w) then Some (AudioLanguage w)
  else None.

Definition tokens_of (words : list str) : list Token :=
  flat_map (fun w => match first_category w with
                     | Some t => [t]
                     | None => []
                     end) words.

Definition unclassified_of (words : list str) : list str :=
  filter (fun w => negb (is_some (first_category w))) words.

Definition warned (w : str) : bool :=
  match first_category w with
  | Some (AudioLanguage _) => true
  | _ => false
  end.

Definition warnings_of (words rest : list str) : list event :=
  flat_map (fun w => if warned w then [LanguageWarning words] else []) rest.

(** The tokens [_tokenise_tag] can make. *)
Definition word_token (t : Token) : Prop :=
  match t with
  | AudioQuality _ | VideoQuality _ | Source _ | AudioLanguage _ => True
  | _ => False
  end.

(** Every word of a split is classified. *)
Definition fully_classified (words : list str) : bool :=
  forallb (fun w => is_some (first_category w)) words.

(** The failure a split of [value] on [c] raises. *)
Definition split_failure (value : str) (c : ascii) : exn :=
  RuntimeError (unclassified_of (split_on c value)).

(** What the matcher does, as a relation: [steps r st st'] when [r] can take
    the matcher from [st] to [st'].  [run_steps] shows that [run] lists
    exactly these. *)
Inductive steps : regex -> mstate -> mstate -> Prop :=
| steps_chr (p : ascii -> bool) c n s gs :
    p c = true ->
    steps (Chr p) (MState n (c :: s) gs) (MState (S n) s gs)
| steps_eps st :
    steps Eps st st
| steps_seq a b st mid st' :
    steps a st mid -> steps b mid st' -> steps (Seq a b) st st'
| steps_alt_l a b st st' :
    steps a st st' -> steps (Alt a b) st st'
| steps_alt_r a b st st' :
    steps b st st' -> steps (Alt a b) st st'
| steps_star_stop greedy a st :
    steps (Star greedy a) st st
| steps_star_more greedy a st mid st' :
    steps a st mid ->
    length (rest mid) < length (rest st) ->
    steps (Star greedy a) mid st' ->
    steps (Star greedy a) st st'
| steps_group name a st st' :
    steps a st st' -> steps (Group name a) st (set_group name st st')
| steps_bol st :
    pos st = 0 -> steps Bol st st
| steps_eol st :
    at_eol st = true -> steps Eol st st.

(** The text before the first [c] of [s] and the text after it. *)
Fixpoint until (c : ascii) (s : str) : option (str * str) :=
  match s with
  | [] => None
  | x :: s' =>
      if Ascii.eqb x c then Some ([], s')
      else match until c s' with
           | Some (a, b) => Some (x :: a, b)
           | None => None
           end
  end.

(** A bracket tag at the very start of [s]: its content and what follows. *)
Definition tag_prefix (s : str) : option (str * str) :=
  match s with
  | x :: y :: s' =>
      if Ascii.eqb x "[" && negb (Ascii.eqb y "]") then
        match until "]" s' with
        | Some (a, b) => Some (y :: a, b)
        | None => None
        end
      else None
  | _ => None
  end.

(** [[] ++ content ++ []] with a non-empty content free of []]. *)
Definition tag_shaped (tag : str) : Prop :=
  exists body, tag = "["%char :: body ++ ["]"%char] /\ body <> [] /\ ~ In "]"%char body.

(** The tokens one tag contributes, by its content. *)
Definition tag_tokens (value : str) : list Token :=
  if str_in value KNOWN_GROUPS then [SubGroup value]
  else if is_hash value then [Hash value]
  else if str_eqb value (lit "Multiple Subtitle") then
    [SubtitlesLanguage (lit "Multiple"); SubtitlesLanguage (lit "EN")]
  else if str_eqb value (lit "Dual Audio") then
    [AudioLanguage (lit "EN"); AudioLanguage (lit "JP")]
  else if is_noise value then []
  else match find (fun c => fully_classified (split_on c value)) delimiters with
       | Some c => tokens_of (split_on c value)
       | None => []
       end.

(** The tokens of the tags of a filename, in the order of the tags. *)
Definition tags_tokens (tags : list str) : list Token :=
  flat_map (fun tag => tag_tokens (strip_ends tag)) tags.

(** [adv w gs st st']: from [st] to [st'] the matcher consumed [w] and set
    the groups [gs] (the latest first). *)
Definition adv (w : str) (gs : list (string * str)) (st st' : mstate) : Prop :=
  rest st = w ++ rest st' /\ pos st' = pos st + length w
  /\ groups st' = gs ++ groups st.

(** What a pattern matches, read off its syntax: [den r n after w gs] when
    [r], at position [n] and with [after] left behind it, can match the
    text [w] and set the groups [gs].  [steps_den] relates it to the
    matcher. *)
Inductive den_star (D : nat -> str -> str -> list (string * str) -> Prop)
  : nat -> str -> str -> list (string * str) -> Prop :=
| den_star_nil n after :
    den_star D n after [] []
| den_star_cons n after w1 g1 w2 g2 :
    w1 <> [] ->
    D n (w2 ++ after) w1 g1 ->
    den_star D (n + length w1) after w2 g2 ->
    den_star D n after (w1 ++ w2) (g2 ++ g1).

Fixpoint den (r : regex) (n : nat) (after w : str) (gs : list (string * str))
  : Prop :=
  match r with
  | Chr p => exists c, p c = true /\ w = [c] /\ gs = []
  | Eps => w = [] /\ gs = []
  | Seq a b =>
      exists w1 g1 w2 g2,
        den a n (w2 ++ after) w1 g1 /\ den b (n + length w1) after w2 g2
        /\ w = w1 ++ w2 /\ gs = g2 ++ g1
  | Alt a b => den a n after w gs \/ den b n after w gs
  | Star _ a => den_star (den a) n after w gs
  | Group name a => exists g0, den a n after w g0 /\ gs = (name, w) :: g0
  | Bol => n = 0 /\ w = [] /\ gs = []
  | Eol => (after = [] \/ after = [newline]) /\ w = [] /\ gs = []
  end.

(** The parts of a residual segment of the form
    [<name> - [E]<episode>[+[E]<second_episode>][v<version>][ END]]. *)
Record title_parts : Type := TitleParts {
  t_name : str;
  t_E : bool;
  t_episode : str;
  t_second : option (bool * str);
  t_version : option str;
  t_end : bool
}.

Definition digits (w : str) : Prop :=
  w <> [] /\ forallb char_isdecimal w = true.

Definition opt_E (b : bool) : str := if b then ["E"%char] else [].

Definition second_text (o : option (bool * str)) : str :=
  match o with
  | Some (e, w) => "+"%char :: opt_E e ++ w
  | None => []
  end.

Definition version_text (o : option str) : str :=
  match o with
  | Some w => "v"%char :: w
  | None => []
  end.

Definition end_text (b : bool) : str := if b then lit " END" else [].

Definition title_text (p : title_parts) : str :=
  t_name p ++ lit " - " ++ opt_E (t_E p) ++ t_episode p
    ++ second_text (t_second p) ++ version_text (t_version p)
    ++ end_text (t_end p).

Definition title_wf (p : title_parts) : Prop :=
  t_name p <> [] /\ ~ In newline (t_name p) /\ digits (t_episode p)
  /\ match t_second p with Some (_, w) => digits w | None => True end
  /\ match t_version p with Some w => digits w | None => True end.

Definition second_groups (o : option (bool * str)) : list (string * str) :=
  match o with
  | Some (_, w) => [("second_episode"%string, w)]
  | None => []
  end.

Definition version_groups (o : option str) : list (string * str) :=
  match o with
  | Some w => [("version"%string, "v"%char :: w)]
  | None => []
  end.

Definition end_groups (b : bool) : list (string * str) :=
  if b then [("special_tag"%string, lit " END")] else [].

Definition title_groups (p : title_parts) : list (string * str) :=
  end_groups (t_end p) ++ version_groups (t_version p)
    ++ second_groups (t_second p)
    ++ [("episode"%string, t_episode p); ("name"%string, t_name p)].

(** A segment has the title form with parts [p]; as [$] does in [re], a
    final newline after the form is let through. *)
Definition title_shape (segment : str) (p : title_parts) : Prop :=
  title_wf p
  /\ (segment = title_text p \/ segment = title_text p ++ [newline]).

(** The tokens of a title with parts [p]: the name, the episode and, when
    there is one, the second episode; nothing for the version or for END. *)
Definition episode_tokens (p : title_parts) : list Token :=
  [Title (t_name p); EpisodeNumber (decimal (t_episode p))]
    ++ match t_second p with
       | Some (_, w) => [EpisodeNumber (decimal w)]
       | None => []
       end.

(** The episode numbers of [p] have no more digits than [int] takes. *)
Definition episodes_short (p : title_parts) : bool :=
  (length (t_episode p) <=? int_max_str_digits)
  && match t_second p with
     | Some (_, w) => length w <=? int_max_str_digits
     | None => true
     end.

(** What the title block gives for a segment with the parts [p]: the
    tokens and no residual segment, or the [ValueError] of [int]. *)
Definition episode_result (tokens : list Token) (p : title_parts)
  : result (list Token * list str) :=
  if episodes_short p then Ok (tokens ++ episode_tokens p, [])
  else Raise ValueError.

(** A filename of the title form whose episode is written with one digit
    more than [int] takes: ["A - 11...1"], with 4301 digits. *)
Definition long_episode : str := lit "A - " ++ repeat "1"%char 4301.

(** [l] does not begin with a character of the class [p]. *)
Definition starts_not (p : ascii -> bool) (l : str) : Prop :=
  match l with
  | c :: _ => p c = false
  | [] => True
  end.

(** What follows the episode digits, and what follows the second episode,
    begins with none of the characters that could be confused. *)
Definition after_second (p : title_parts) (nl : str) : str :=
  version_text (t_version p) ++ end_text (t_end p) ++ nl.

Definition after_episode (p : title_parts) (nl : str) : str :=
  second_text (t_second p) ++ after_second p nl.

Definition title_tail (p : title_parts) (nl : str) : str :=
  opt_E (t_E p) ++ t_episode p ++ after_episode p nl.

(** The tokens the title/episode block can add. *)
Definition title_token (t : Token) : Prop :=
  match t with
  | Title _ | EpisodeNumber _ => True
  | _ => False
  end.

(** One bracket tag as [ANIME_PATTERN] takes it: [[], a non-empty content
    on one line, []]. *)
Definition bracket_item (t : str) : Prop :=
  exists b, t = "["%char :: b ++ ["]"%char] /\ b <> [] /\ ~ In newline b.

(** The shape [[optional-bracket-group] <name> <one-or-more-bracket-tags> .
    <extension>], with a condition [P] on the name. *)
Definition anime_form (P : str -> Prop) (s : str) : Prop :=
  exists g name tags ext,
    s = g ++ name ++ concat tags ++ "."%char :: ext
    /\ (g = [] \/ tag_shaped g)
    /\ ~ In newline name /\ P name
    /\ tags <> [] /\ Forall bracket_item tags
    /\ ext <> [] /\ ~ In "."%char ext.

(** The texts of [s] that end just before an occurrence of [c]. *)
Fixpoint prefixes_before (c : ascii) (s : str) : list str :=
  match s with
  | [] => []
  | x :: s' =>
      (if Ascii.eqb x c then [[]] else [])
        ++ map (cons x) (prefixes_before c s')
  end.

(** The tokens [_tokenise] has a constructor call for. *)
Definition constructed (t : Token) : Prop :=
  match t with
  | Extension _ | RandomTag _ => False
  | _ => True
  end.

(** Every character of [value] is in [hexdigits]. *)
Definition all_hex (value : str) : bool :=
  forallb (fun c => char_in c hexdigits) value.

(** ** The word classifiers as sets and patterns *)

(** The word sets of the four classifiers. *)
Definition audio_words : list str :=
  [ lit "aac"; lit "ac3"; lit "flac"; lit "vorbis"; lit "dts";
    lit "aac_5.1"; lit "dts-es"; lit "2ch" ].

Definition video_words : list str :=
  [ lit "hevc"; lit "hi10p"; lit "x264"; lit "x265"; lit "h264"; lit "10bit" ].

Definition source_words : list str :=
  [ lit "bluray"; lit "blu-ray"; lit "bd"; lit "bdrip"; lit "dvd";
    lit "dvdrip"; lit "web"; lit "webrip"; lit "hdtv"; lit "hardsub";
    lit "vrv" ].

Definition language_words : list str := [ lit "jp"; lit "en"; lit "dual" ].

(** [<numeric>.<numeric>], three characters. *)
Definition audio_pattern (w : str) : bool :=
  match w with
  | [a; b; c] => char_isnumeric a && Ascii.eqb b "." && char_isnumeric c
  | _ => false
  end.

(** A numeric text followed by [p]. *)
Definition resolution_pattern (w : str) : bool :=
  isnumeric (drop_last w)
  && match rev w with
     | c :: _ => Ascii.eqb c "p"
     | [] => false
     end.

(** Two numeric texts around one [x]. *)
Definition dimensions_pattern (w : str) : bool :=
  (count "x" w =? 1)
  && match split_on "x" w with
     | [a; b] => isnumeric a && isnumeric b
     | _ => false
     end.

(** How many of the four classifiers accept [w]. *)
Definition accepting (w : str) : nat :=
  length (filter (fun b : bool => b)
            [ holds (_is_audio_tag w); holds (_is_video_tag w);
              holds (_is_source_tag w); holds (_is_language_tag w) ]).

(** A residual segment as the tag loop leaves it: not empty and without a
    bracket tag. *)
Definition segment_ok (segment : str) : Prop :=
  segment <> [] /\ findall TAG_PATTERN segment = [].

(** The result of [m] with [f] applied to the value it returns. *)
Definition mapM {A B} (f : A -> B) (m : M A) : M B :=
  match m with
  | (Ok a, out) => (Ok (f a), out)
  | (Raise e, out) => (Raise e, out)
  end.

(** ** The methods of [Token] *)

(** The classes of the tokens; none derives from another, so an object is an
    instance of a token class exactly when that is its class. *)
Inductive TokenClass : Type :=
| class_Extension | class_AudioQuality | class_VideoQuality | class_Source
| class_SubGroup | class_RandomTag | class_AudioLanguage
| class_SubtitlesLanguage | class_Hash | class_Title | class_EpisodeNumber.

Definition class_index (c : TokenClass) : nat :=
  match c with
  | class_Extension => 0 | class_AudioQuality => 1 | class_VideoQuality => 2
  | class_Source => 3 | class_SubGroup => 4 | class_RandomTag => 5
  | class_AudioLanguage => 6 | class_SubtitlesLanguage => 7 | class_Hash => 8
  | class_Title => 9 | class_EpisodeNumber => 10
  end.

(** [type(t)] *)
Definition type_of (t : Token) : TokenClass :=
  match t with
  | Extension _ => class_Extension
  | AudioQuality _ => class_AudioQuality
  | VideoQuality _ => class_VideoQuality
  | Source _ => class_Source
  | SubGroup _ => class_SubGroup
  | RandomTag _ => class_RandomTag
  | AudioLanguage _ => class_AudioLanguage
  | SubtitlesLanguage _ => class_SubtitlesLanguage
  | Hash _ => class_Hash
  | Title _ => class_Title
  | EpisodeNumber _ => class_EpisodeNumber
  end.

(** The attribute [value]: a [str], or an [int] for an [EpisodeNumber]. *)
Inductive pyvalue : Type :=
| PyStr (s : str)
| PyInt (n : Z).

Definition value_of (t : Token) : pyvalue :=
  match t with
  | Extension v | AudioQuality v | VideoQuality v | Source v | SubGroup v
  | RandomTag v | AudioLanguage v | SubtitlesLanguage v | Hash v | Title v =>
      PyStr v
  | EpisodeNumber n => PyInt n
  end.

(** [a == b] on values: a [str] and an [int] are never equal. *)
Definition value_eq (a b : pyvalue) : bool :=
  match a, b with
  | PyStr x, PyStr y => str_eqb x y
  | PyInt x, PyInt y => Z.eqb x y
  | _, _ => false
  end.

Definition isinstance (t : Token) (c : TokenClass) : bool :=
  class_index (type_of t) =? class_index c.

(** [Token.__eq__] and [Token.__hash__]; [hash] is Python's, on values. *)
Definition Token___eq__ (self other : Token) : bool :=
  isinstance other (type_of self) && value_eq (value_of other) (value_of self).

Definition Token___hash__ (hash : pyvalue -> Z) (self : Token) : Z :=
  hash (value_of self).

(** ** [skip] *)

(** [mimetypes.guess_type] is a library table: [guess_type] stands for the
    type it gives for a name ([None] when it knows none). *)
Definition skip (guess_type : str -> option str) (string : str) : result bool :=
  match guess_type string with
  | Some guessed_type =>
      (p <- unpack2 (split_on "/" guessed_type) ;;
       let (main, sub) := p in
       Ok (negb (str_eqb main (lit "video"))))%result
  | None => Ok true
  end.

(** ** nyaa.py *)

Module Nyaa.

Inductive Category : Type :=
| ALL_CATEGORIES
| ANIME | ANIME_MUSIC_VIDEO | ANIME_ENGLISH_TRANSLATED
| ANIME_NON_ENGLISH_TRANSLATED | ANIME_RAW
| AUDIO | AUDIO_LOSSLESS | AUDIO_LOSSY
| LITERATURE | LITERATURE_ENGLISH_TRANSLATED
| LITERATURE_NON_ENGLISH_TRANSLATED | LITERATURE_RAW
| LIVE_ACTION | LIVE_ACTION_ENGLISH_TRANSLATED
| LIVE_ACTION_IDOL_PROMOTIONAL_VIDEO | LIVE_ACTION_NON_ENGLISH_TRANSLATED
| LIVE_ACTION_RAW
| PICTURES | PICTURES_GRAPHICS | PICTURES_PHOTOS
| SOFTWARE | SOFTWARE_APPLICATIONS | SOFTWARE_GAMES.

(** [c.value], which is also [str(c)]. *)
Definition Category_value (c : Category) : str :=
  match c with
  | ALL_CATEGORIES => lit "0_0"
  | ANIME => lit "1_0"
  | ANIME_MUSIC_VIDEO => lit "1_1"
  | ANIME_ENGLISH_TRANSLATED => lit "1_2"
  | ANIME_NON_ENGLISH_TRANSLATED => lit "1_3"
  | ANIME_RAW => lit "1_4"
  | AUDIO => lit "2_0"
  | AUDIO_LOSSLESS => lit "2_1"
  | AUDIO_LOSSY => lit "2_2"
  | LITERATURE => lit "3_0"
  | LITERATURE_ENGLISH_TRANSLATED => lit "3_1"
  | LITERATURE_NON_ENGLISH_TRANSLATED => lit "3_2"
  | LITERATURE_RAW => lit "3_3"
  | LIVE_ACTION => lit "4_0"
  | LIVE_ACTION_ENGLISH_TRANSLATED => lit "4_1"
  | LIVE_ACTION_IDOL_PROMOTIONAL_VIDEO => lit "4_2"
  | LIVE_ACTION_NON_ENGLISH_TRANSLATED => lit "4_3"
  | LIVE_ACTION_RAW => lit "4_4"
  | PICTURES => lit "5_0"
  | PICTURES_GRAPHICS => lit "5_1"
  | PICTURES_PHOTOS => lit "5_2"
  | SOFTWARE => lit "6_0"
  | SOFTWARE_APPLICATIONS => lit "6_1"
  | SOFTWARE_GAMES => lit "6_2"
  end.

Definition Category___str__ (c : Category) : str := Category_value c.

(** The members in the order of the class body. *)
Definition Category_members : list Category :=
  [ ALL_CATEGORIES;
    ANIME; ANIME_MUSIC_VIDEO; ANIME_ENGLISH_TRANSLATED;
    ANIME_NON_ENGLISH_TRANSLATED; ANIME_RAW;
    AUDIO; AUDIO_LOSSLESS; AUDIO_LOSSY;
    LITERATURE; LITERATURE_ENGLISH_TRANSLATED;
    LITERATURE_NON_ENGLISH_TRANSLATED; LITERATURE_RAW;
    LIVE_ACTION; LIVE_ACTION_ENGLISH_TRANSLATED;
    LIVE_ACTION_IDOL_PROMOTIONAL_VIDEO; LIVE_ACTION_NON_ENGLISH_TRANSLATED;
    LIVE_ACTION_RAW;
    PICTURES; PICTURES_GRAPHICS; PICTURES_PHOTOS;
    SOFTWARE; SOFTWARE_APPLICATIONS; SOFTWARE_GAMES ].

(** [Category(value)]: the first member with that value, and [ValueError]
    when there is none. *)
Definition Category_call (value : str) : result Category :=
  match find (fun c => str_eqb (Category_value c) value) Category_members with
  | Some c => Ok c
  | None => Raise ValueError
  end.

(** [s.rsplit(c, maxsplit=1)] for a one-character [c]: the split at the last
    [c]. *)
Definition rsplit_max1 (c : ascii) (s : str) : list str :=
  match until c (rev s) with
  | Some (a, b) => [rev b; rev a]
  | None => [s]
  end.

(** [l[-1]] *)
Definition getitem_last {A} (l : list A) : result A :=
  match rev l with
  | x :: _ => Ok x
  | [] => Raise IndexError
  end.

Record Guid : Type := MkGuid {
  Guid_link : str;
  Guid_permalink : bool
}.

(** The property [Guid.id]. *)
Definition Guid_id (self : Guid) : result Z :=
  (text <- getitem_last (rsplit_max1 "/" (Guid_link self)) ;;
   int text)%result.

(** The [__eq__] the dataclass gives [Guid]: field by field. *)
Definition Guid___eq__ (self other : Guid) : bool :=
  str_eqb (Guid_link self) (Guid_link other)
  && Bool.eqb (Guid_permalink self) (Guid_permalink other).

(** [a == b] for optional values. *)
Definition option_eq {A} (eq : A -> A -> bool) (a b : option A) : bool :=
  match a, b with
  | Some x, Some y => eq x y
  | None, None => true
  | _, _ => false
  end.

(** [Result]; [datetime] is the library's class, with its [==]. *)
Record Result (datetime : Type) : Type := MkResult {
  title : str;
  link : str;
  guid : Guid;
  published : datetime;
  seeders : Z;
  leechers : Z;
  downloads : option Z;
  info_hash : option str;
  category : Category;
  size : str;
  comments : Z;
  trusted : bool;
  remake : bool
}.

(** [Result.__eq__] (a [Category] is a [str] and compares as one). *)
Definition Result___eq__ {datetime : Type}
    (datetime_eq : datetime -> datetime -> bool)
    (self other : Result datetime) : bool :=
  str_eqb (title self) (title other)
  && str_eqb (link self) (link other)
  && Guid___eq__ (guid self) (guid other)
  && datetime_eq (published self) (published other)
  && option_eq str_eqb (info_hash self) (info_hash other)
  && str_eqb (Category_value (category self)) (Category_value (category other))
  && str_eqb (size self) (size other)
  && Z.eqb (comments self) (comments other)
  && Bool.eqb (trusted self) (trusted other)
  && Bool.eqb (remake self) (remake other).

End Nyaa.

(** What the value of a token of each class is, when [_tokenise] made it. *)
Definition token_valid (t : Token) : Prop :=
  match t with
  | SubGroup v => str_in v KNOWN_GROUPS = true
  | Hash v => length v = 8 /\ all_hex v = true
  | SubtitlesLanguage v => v = lit "Multiple" \/ v = lit "EN"
  | AudioLanguage v =>
      v = lit "EN" \/ v = lit "JP" \/ _is_language_tag v = Ok true
  | AudioQuality v => _is_audio_tag v = Ok true
  | VideoQuality v => _is_video_tag v = Ok true
  | Source v => _is_source_tag v = Ok true
  | Title v => v <> [] /\ ~ In newline v
  | EpisodeNumber n => (0 <= n)%Z
  | Extension _ | RandomTag _ => False
  end.

(** What the loop body prints for the tag with content [value] while
    [string] is the text still to scan: a warning with the words of a split
    of [value], or one report with [string], [value] and the failure of each
    delimiter. *)
Definition printed_for (string value : str) (e : event) : Prop :=
  match e with
  | LanguageWarning words =>
      exists c, In c delimiters /\ words = split_on c value
  | SplitFailure string' value' failures =>
      string' = string /\ value' = value
      /\ failures = map (split_failure value) delimiters
  end.

(** What [_tokenise string] prints for the tags [tags] of [string]: the
    text a line is printed for is an end of [string] that holds the tag. *)
Definition printed_ok (string : str) (tags : list str) (e : event) : Prop :=
  exists tag before pre post,
    In tag tags
    /\ string = before ++ pre ++ tag ++ post
    /\ printed_for (pre ++ tag ++ post) (strip_ends tag) e.

(** * Properties *)

(** ** Strings and the monads *)

Lemma str_eqb_eq (a b : str) : str_eqb a b = true <-> a = b.
Proof.
  revert b; induction a as [|x a IH]; intros [|y b]; simpl;
    try (split; [discriminate | congruence]); try tauto.
  rewrite andb_true_iff, Ascii.eqb_eq, IH.
  split; [intros [-> ->]; reflexivity | intros [= -> ->]; auto].
Qed.

Lemma str_eqb_refl (a : str) : str_eqb a a = true.
Proof. apply str_eqb_eq; reflexivity. Qed.

Lemma bind_ret {A B} (a : A) (f : A -> M B) : bind (ret a) f = f a.
Proof. unfold bind, ret; destruct (f a); reflexivity. Qed.

Lemma bind_lift_ok {A B} (a : A) (f : A -> M B) : bind (lift (Ok a)) f = f a.
Proof. apply bind_ret. Qed.

Lemma bind_ok {A B} (a : A) (out : list event) (f : A -> M B) :
  bind (Ok a, out) f = (fst (f a), out ++ snd (f a)).
Proof. unfold bind; destruct (f a); reflexivity. Qed.

(** ** The word classifiers never raise *)

Lemma split_on_length (c : ascii) (s : str) :
  length (split_on c s) = S (count c s).
Proof.
  unfold count; induction s as [|x s IH]; simpl; [reflexivity|].
  rewrite (Ascii.eqb_sym c x).
  destruct (Ascii.eqb x c); simpl; [rewrite IH; reflexivity|].
  destruct (split_on c s); simpl in *; [discriminate | exact IH].
Qed.

Lemma getlast_nonempty (s : str) : s <> [] -> exists c, getlast s = Ok c.
Proof.
  intros H; unfold getlast.
  destruct (rev s) as [|c r] eqn:E; [|eauto].
  apply (f_equal (@rev ascii)) in E; rewrite rev_involutive in E; simpl in E.
  contradiction.
Qed.

Lemma _is_source_tag_total (w : str) : exists b, _is_source_tag w = Ok b.
Proof. eexists; reflexivity. Qed.

Lemma _is_language_tag_total (w : str) : exists b, _is_language_tag w = Ok b.
Proof. eexists; reflexivity. Qed.

Lemma _is_audio_tag_total (w : str) : exists b, _is_audio_tag w = Ok b.
Proof.
  unfold _is_audio_tag.
  destruct (str_in _ _); [eauto|].
  destruct w as [|a [|b [|c [|d w]]]]; simpl; eauto.
  destruct (char_isnumeric a); simpl; eauto.
  destruct (Ascii.eqb b "."); simpl; eauto.
  destruct (char_isnumeric c); simpl; eauto.
Qed.

Lemma _is_video_tag_total (w : str) : exists b, _is_video_tag w = Ok b.
Proof.
  unfold _is_video_tag.
  destruct (str_in _ _); [eauto|].
  assert (H : exists b, (Ok (isnumeric (drop_last w))
                         &&& (c <- getlast w ;; Ok (Ascii.eqb c "p")))%result = Ok b).
  { unfold and_then; simpl.
    destruct (isnumeric (drop_last w)) eqn:E; [|eauto].
    destruct (getlast_nonempty (s:=w)) as [c ->]; [|simpl; eauto].
    intros ->; discriminate. }
  destruct H as [b ->]; simpl.
  destruct b; [eauto|].
  destruct (count "x" w =? 1) eqn:E; [|eauto].
  apply Nat.eqb_eq in E.
  pose proof (split_on_length "x" w) as L; rewrite E in L.
  destruct (split_on "x" w) as [|a [|b' [|? ?]]]; try discriminate.
  simpl. destruct (isnumeric a && isnumeric b'); eauto.
Qed.

(** ** [_tokenise_tag]: one token per word, by the first matching category *)

Lemma _tokenise_tag_loop_spec (words rest : list str) :
  forall tokens unclassified,
    _tokenise_tag_loop words rest tokens unclassified =
      (Ok (tokens ++ tokens_of rest, unclassified ++ unclassified_of rest),
       warnings_of words rest).
Proof.
  induction rest as [|w rest IH]; intros tokens unclassified.
  - simpl. rewrite !app_nil_r. reflexivity.
  - cbn [_tokenise_tag_loop].
    unfold tokens_of, unclassified_of, warnings_of, warned; cbn [flat_map filter].
    unfold first_category.
    destruct (_is_audio_tag_total w) as [a ->]; rewrite bind_lift_ok.
    destruct a; cbn [holds].
    { rewrite IH, <- app_assoc. reflexivity. }
    destruct (_is_video_tag_total w) as [v ->]; rewrite bind_lift_ok.
    destruct v; cbn [holds].
    { rewrite IH, <- app_assoc. reflexivity. }
    destruct (_is_source_tag_total w) as [s ->]; rewrite bind_lift_ok.
    destruct s; cbn [holds].
    { rewrite IH, <- app_assoc. reflexivity. }
    destruct (_is_language_tag_total w) as [l ->]; rewrite bind_lift_ok.
    destruct l; cbn [holds].
    { rewrite IH, <- app_assoc. reflexivity. }
    rewrite IH, <- app_assoc. reflexivity.
Qed.

Lemma _tokenise_tag_spec (words : list str) :
  _tokenise_tag words =
    (match unclassified_of words with
     | [] => Ok (tokens_of words)
     | u => Raise (RuntimeError u)
     end, warnings_of words words).
Proof.
  unfold _tokenise_tag.
  rewrite _tokenise_tag_loop_spec, bind_ok. cbn [app].
  destruct (unclassified_of words); simpl; rewrite app_nil_r; reflexivity.
Qed.

Lemma tokens_of_app (l1 l2 : list str) :
  tokens_of (l1 ++ l2) = tokens_of l1 ++ tokens_of l2.
Proof. apply flat_map_app. Qed.

Lemma unclassified_of_app (l1 l2 : list str) :
  unclassified_of (l1 ++ l2) = unclassified_of l1 ++ unclassified_of l2.
Proof. apply filter_app. Qed.

Lemma tokens_of_word_token (l : list str) : Forall word_token (tokens_of l).
Proof.
  unfold tokens_of; induction l as [|w l IH]; simpl; [constructor|].
  apply Forall_app; split; [|exact IH].
  unfold first_category.
  repeat match goal with
         | |- context [if ?b then _ else _] => destruct b
         end; repeat constructor.
Qed.

(** ** The split attempts *)

Lemma fully_classified_unclassified (words : list str) :
  fully_classified words = true <-> unclassified_of words = [].
Proof.
  unfold fully_classified, unclassified_of.
  induction words as [|w l IH]; simpl; [tauto|].
  destruct (is_some (first_category w)); simpl; [exact IH|].
  split; discriminate.
Qed.

Lemma split_attempts_spec (value : str) (chars : list ascii) :
  forall tokens failures, exists out,
    match find (fun c => fully_classified (split_on c value)) chars with
    | Some c =>
        exists fs, split_attempts value chars tokens failures =
                     (Ok (tokens ++ tokens_of (split_on c value), true, fs), out)
    | None =>
        split_attempts value chars tokens failures =
          (Ok (tokens, false, failures ++ map (split_failure value) chars), out)
    end.
Proof.
  induction chars as [|c chars IH]; intros tokens failures.
  - exists []. simpl. rewrite app_nil_r. reflexivity.
  - cbn [find split_attempts]. rewrite _tokenise_tag_spec.
    destruct (fully_classified (split_on c value)) eqn:F.
    + apply fully_classified_unclassified in F. rewrite F.
      eexists; eexists. cbn. reflexivity.
    + destruct (unclassified_of (split_on c value)) as [|u us] eqn:U.
      { apply fully_classified_unclassified in U. congruence. }
      destruct (IH tokens (failures ++ [RuntimeError (u :: us)])) as [out H].
      unfold try_except_RuntimeError. rewrite bind_ok.
      destruct (find _ chars) as [c'|].
      * destruct H as [fs H]. rewrite H. eexists; eexists; reflexivity.
      * rewrite H. eexists. cbn [fst snd map].
        unfold split_failure at 2. rewrite U, <- app_assoc. reflexivity.
Qed.

Lemma split_and_classify_spec (string value : str) (tokens : list Token) :
  match find (fun c => fully_classified (split_on c value)) delimiters with
  | Some c =>
      exists out, split_and_classify string value tokens =
                    (Ok (tokens ++ tokens_of (split_on c value)), out)
  | None =>
      exists out, split_and_classify string value tokens =
                    (Ok tokens,
                     out ++ [SplitFailure string value
                               (map (split_failure value) delimiters)])
  end.
Proof.
  unfold split_and_classify.
  destruct (split_attempts_spec value delimiters tokens []) as [out H].
  destruct (find _ delimiters) as [c|].
  - destruct H as [fs ->]. exists out. rewrite bind_ok. cbn.
    rewrite app_nil_r. reflexivity.
  - rewrite H. exists out. rewrite bind_ok. cbn. reflexivity.
Qed.

(** ** The matcher and its relational reading *)

Lemma star_loop_steps (a : regex) (greedy : bool) :
  (forall st st', In st' (run a st) <-> steps a st st') ->
  forall fuel st st',
    length (rest st) <= fuel ->
    (In st' (star_loop (run a) greedy fuel st) <-> steps (Star greedy a) st st').
Proof.
  intros Ha; induction fuel as [|fuel IH]; intros st st' Hlen.
  - simpl; split.
    + intros [<-|[]]; constructor.
    + intros H; inversion H; subst; [left; reflexivity | lia].
  - cbn [star_loop].
    assert (More :
      In st' (flat_map (fun m => if length (rest m) <? length (rest st)
                                 then star_loop (run a) greedy fuel m else [])
                       (run a st))
      <-> exists mid, steps a st mid /\ length (rest mid) < length (rest st)
                      /\ steps (Star greedy a) mid st').
    { rewrite in_flat_map; split.
      - intros (mid & Hin & H).
        destruct (Nat.ltb_spec (length (rest mid)) (length (rest st))) as [L|L];
          [|destruct H].
        exists mid; repeat split; [apply Ha; exact Hin | exact L |].
        apply IH; [lia | exact H].
      - intros (mid & H1 & L & H2).
        exists mid; split; [apply Ha; exact H1|].
        destruct (Nat.ltb_spec (length (rest mid)) (length (rest st))); [|lia].
        apply IH; [lia | exact H2]. }
    split.
    + intros H.
      assert (C : st' = st \/ exists mid, steps a st mid
                    /\ length (rest mid) < length (rest st)
                    /\ steps (Star greedy a) mid st').
      { destruct greedy.
        - apply in_app_or in H; destruct H as [H|[<-|[]]]; [right|left; reflexivity].
          apply More; exact H.
        - destruct H as [<-|H]; [left; reflexivity | right; apply More; exact H]. }
      destruct C as [->|(mid & H1 & L & H2)];
        [constructor | econstructor; eassumption].
    + intros H; inversion H; subst.
      * destruct greedy; [apply in_or_app; right|]; left; reflexivity.
      * assert (In st' (flat_map (fun m => if length (rest m) <? length (rest st)
                                 then star_loop (run a) greedy fuel m else [])
                       (run a st))) by (apply More; eauto).
        destruct greedy; [apply in_or_app; left | right]; assumption.
Qed.

Lemma run_steps (r : regex) :
  forall st st', In st' (run r st) <-> steps r st st'.
Proof.
  induction r as [p| |a IHa b IHb|a IHa b IHb|greedy a IHa|name a IHa| |];
    intros st st'; cbn [run].
  - unfold step_char; destruct st as [n [|c s] gs]; cbn [rest pos groups].
    + split; [intros [] | intros H; inversion H].
    + destruct (p c) eqn:E; split.
      * intros [<-|[]]; constructor; exact E.
      * intros H; inversion H; subst; left; reflexivity.
      * intros [].
      * intros H; inversion H; subst; congruence.
  - split; [intros [<-|[]]; constructor | intros H; inversion H; subst; left; reflexivity].
  - rewrite in_flat_map; split.
    + intros (mid & H1 & H2). econstructor; [apply IHa | apply IHb]; eassumption.
    + intros H; inversion H; subst. exists mid; split; [apply IHa | apply IHb]; assumption.
  - rewrite in_app_iff; split.
    + intros [H|H]; [apply steps_alt_l, IHa | apply steps_alt_r, IHb]; exact H.
    + intros H; inversion H; subst; [left; apply IHa | right; apply IHb]; assumption.
  - apply star_loop_steps; [exact IHa | lia].
  - rewrite in_map_iff; split.
    + intros (m & <- & H). constructor; apply IHa; exact H.
    + intros H; inversion H; subst. eexists; split; [reflexivity | apply IHa; assumption].
  - destruct (Nat.eqb_spec (pos st) 0); split.
    + intros [<-|[]]; constructor; assumption.
    + intros H; inversion H; subst; left; reflexivity.
    + intros [].
    + intros H; inversion H; subst; contradiction.
  - destruct (at_eol st) eqn:E; split.
    + intros [<-|[]]; constructor; assumption.
    + intros H; inversion H; subst; left; reflexivity.
    + intros [].
    + intros H; inversion H; subst; congruence.
Qed.

Lemma re_match_steps (r : regex) (s : str) :
  is_some (re_match r s) = true <-> exists d, steps r (MState 0 s []) d.
Proof.
  unfold re_match.
  destruct (run r (MState 0 s [])) as [|d l] eqn:E; simpl; split.
  - discriminate.
  - intros [d H]. apply run_steps in H. rewrite E in H. destruct H.
  - intros _. exists d. apply run_steps. rewrite E. left; reflexivity.
  - reflexivity.
Qed.

Lemma re_match_some_steps (r : regex) (s : str) (d : mstate) :
  re_match r s = Some d -> steps r (MState 0 s []) d.
Proof.
  unfold re_match; intros H. apply run_steps.
  destruct (run r (MState 0 s [])); simpl in H; [discriminate|].
  injection H as ->. left; reflexivity.
Qed.

(** ** Bracket tags: [TAG_PATTERN], [findall] and [split] *)

Lemma until_spec (c : ascii) (s a b : str) :
  until c s = Some (a, b) <-> s = a ++ c :: b /\ ~ In c a.
Proof.
  revert a; induction s as [|x s IH]; intros a; simpl.
  - split; [discriminate | intros [H _]; destruct a; discriminate].
  - destruct (Ascii.eqb_spec x c) as [->|N].
    + split.
      * intros [= <- <-]; split; [reflexivity | intros []].
      * intros [H Hn]. destruct a as [|y a]; simpl in H.
        -- injection H as <-; reflexivity.
        -- injection H as <- _. exfalso; apply Hn; left; reflexivity.
    + destruct (until c s) as [[a' b']|] eqn:E; split.
      * intros [= <- <-]. destruct (proj1 (IH a') eq_refl) as [-> Hn].
        split; [reflexivity | intros [H|H]; [congruence | contradiction]].
      * intros [H Hn]. destruct a as [|y a]; simpl in H; injection H as -> H.
        -- congruence.
        -- assert (E' : Some (a', b') = Some (a, b)).
           { apply IH; split; [exact H | intros Hin; apply Hn; right; exact Hin]. }
           injection E' as -> ->; reflexivity.
      * discriminate.
      * intros [H Hn]. destruct a as [|y a]; simpl in H; injection H as -> H.
        -- congruence.
        -- assert (E' : None = Some (a, b)).
           { apply IH; split; [exact H | intros Hin; apply Hn; right; exact Hin]. }
           discriminate.
Qed.

Lemma tag_prefix_spec (s body after : str) :
  tag_prefix s = Some (body, after) <->
  s = "["%char :: body ++ "]"%char :: after /\ body <> [] /\ ~ In "]"%char body.
Proof.
  unfold tag_prefix; split.
  - destruct s as [|x [|y s]]; try discriminate.
    destruct (Ascii.eqb_spec x "[") as [->|]; [|discriminate].
    destruct (Ascii.eqb_spec y "]") as [|N]; [discriminate|]. simpl.
    destruct (until "]" s) as [[a b]|] eqn:E; [|discriminate].
    intros [= <- <-]. apply until_spec in E; destruct E as [-> Hn].
    repeat split; [discriminate|]. intros [H|H]; [congruence | contradiction].
  - intros (-> & Hne & Hn).
    destruct body as [|y body]; [contradiction|]. cbn [app].
    rewrite Ascii.eqb_refl.
    destruct (Ascii.eqb_spec y "]") as [->|N]; [exfalso; apply Hn; left; reflexivity|].
    simpl.
    assert (E : until "]" (body ++ "]"%char :: after) = Some (body, after)).
    { apply until_spec; split; [reflexivity | intros H; apply Hn; right; exact H]. }
    rewrite E; reflexivity.
Qed.

Lemma ltb_succ (n : nat) : (n <? S n) = true.
Proof. apply Nat.ltb_lt; lia. Qed.

Lemma run_seq (a b : regex) (st : mstate) :
  run (Seq a b) st = flat_map (run b) (run a st).
Proof. reflexivity. Qed.

Lemma run_star (greedy : bool) (a : regex) (st : mstate) :
  run (Star greedy a) st = star_loop (run a) greedy (length (rest st)) st.
Proof. reflexivity. Qed.

Lemma star_loop_succ body (greedy : bool) (fuel : nat) (st : mstate) :
  star_loop body greedy (S fuel) st =
    let more := flat_map (fun st' => if length (rest st') <? length (rest st)
                                     then star_loop body greedy fuel st' else [])
                         (body st) in
    if greedy then more ++ [st] else st :: more.
Proof. reflexivity. Qed.

Lemma run_char (c x : ascii) (n : nat) (s : str) gs :
  run (Char c) (MState n (x :: s) gs) =
    if Ascii.eqb x c then [MState (S n) s gs] else [].
Proof. cbn. rewrite (Ascii.eqb_sym c x). reflexivity. Qed.

Lemma run_notchar (c x : ascii) (n : nat) (s : str) gs :
  run (NotChar c) (MState n (x :: s) gs) =
    if Ascii.eqb x c then [] else [MState (S n) s gs].
Proof. cbn. destruct (Ascii.eqb x c); reflexivity. Qed.

Lemma run_until (c : ascii) (s : str) :
  forall n gs,
    run (Seq (Star true (NotChar c)) (Char c)) (MState n s gs) =
      match until c s with
      | Some (a, b) => [MState (n + length a + 1) b gs]
      | None => []
      end.
Proof.
  induction s as [|x s IH]; intros n gs; [reflexivity|].
  rewrite run_seq, run_star. cbn [rest length]. rewrite star_loop_succ.
  cbn zeta. cbn [until rest length]. rewrite run_notchar.
  destruct (Ascii.eqb x c) eqn:E.
  - cbn [flat_map app]. rewrite run_char, E, app_nil_r.
    cbn [length]. do 2 f_equal; lia.
  - cbn [flat_map rest].
    rewrite ltb_succ, app_nil_r, flat_map_app.
    cbn [flat_map]. rewrite run_char, E, !app_nil_r.
    change (star_loop (run (NotChar c)) true (length s) (MState (S n) s gs))
      with (run (Star true (NotChar c)) (MState (S n) s gs)).
    rewrite <- run_seq, IH.
    destruct (until c s) as [[a b]|]; [|reflexivity].
    cbn [length]. do 2 f_equal; lia.
Qed.

Lemma run_tag (n : nat) (s : str) (gs : list (string * str)) :
  run TAG_PATTERN (MState n s gs) =
    match tag_prefix s with
    | Some (body, after) => [MState (n + length body + 2) after gs]
    | None => []
    end.
Proof.
  unfold TAG_PATTERN, Plus; cbn [Seqs].
  rewrite run_seq. unfold tag_prefix.
  destruct s as [|x s]; [reflexivity|].
  rewrite run_char.
  destruct (Ascii.eqb x "["); cbn [andb flat_map];
    [|destruct s; reflexivity].
  rewrite app_nil_r, !run_seq.
  destruct s as [|y s]; [reflexivity|].
  rewrite run_notchar.
  destruct (Ascii.eqb y "]"); [reflexivity|].
  cbn [negb flat_map]. rewrite app_nil_r, <- run_seq, run_until.
  destruct (until "]" s) as [[a b]|]; [|reflexivity].
  cbn [length]. do 2 f_equal; lia.
Qed.

Lemma findall_from_skip (r : regex) (s : str) :
  forall start k,
    k <= length s ->
    findall_from r start k s = findall_from r (start + k) 0 (skipn k s).
Proof.
  induction s as [|x s IH]; intros start [|k] Hk; simpl in Hk.
  - rewrite Nat.add_0_r; reflexivity.
  - lia.
  - rewrite Nat.add_0_r; reflexivity.
  - cbn [findall_from skipn]. rewrite IH by lia.
    replace (S start + k) with (start + S k) by lia. reflexivity.
Qed.

Lemma firstn_snoc (body after : str) (c : ascii) :
  firstn (S (length body)) (body ++ c :: after) = body ++ [c].
Proof. induction body as [|y body IH]; [reflexivity|]. simpl in *. rewrite IH. reflexivity. Qed.

Lemma skipn_snoc (body after : str) (c : ascii) :
  skipn (S (length body)) (body ++ c :: after) = after.
Proof. induction body as [|y body IH]; [reflexivity|]. exact IH. Qed.

Lemma findall_tag_unfold (start : nat) (s : str) :
  findall_from TAG_PATTERN start 0 s =
    match tag_prefix s with
    | Some (body, after) =>
        ("["%char :: body ++ ["]"%char])
          :: findall_from TAG_PATTERN (start + length body + 2) 0 after
    | None =>
        match s with
        | [] => []
        | _ :: s' => findall_from TAG_PATTERN (S start) 0 s'
        end
    end.
Proof.
  destruct s as [|x s]; [reflexivity|].
  cbn [findall_from]. rewrite run_tag.
  destruct (tag_prefix (x :: s)) as [[body after]|] eqn:E; [|reflexivity].
  apply tag_prefix_spec in E. destruct E as (E & _ & _).
  injection E as -> ->.
  cbn [hd_error pos].
  replace (start + length body + 2 - start) with (S (S (length body))) by lia.
  f_equal.
  - rewrite firstn_cons, firstn_snoc. reflexivity.
  - replace (S (S (length body)) - 1) with (S (length body)) by lia.
    rewrite findall_from_skip by (rewrite length_app; simpl; lia).
    rewrite skipn_snoc. f_equal; lia.
Qed.

Lemma findall_tag_pos (n : nat) :
  forall s, length s <= n ->
            forall a b, findall_from TAG_PATTERN a 0 s = findall_from TAG_PATTERN b 0 s.
Proof.
  induction n as [|n IH]; intros s Hlen a b; rewrite (findall_tag_unfold a), (findall_tag_unfold b).
  - destruct s; [|simpl in Hlen; lia]. reflexivity.
  - destruct (tag_prefix s) as [[body after]|] eqn:E.
    + f_equal. apply IH.
      apply tag_prefix_spec in E. destruct E as (-> & _ & _).
      simpl in Hlen. rewrite length_app in Hlen. simpl in Hlen. lia.
    + destruct s as [|x s]; [reflexivity|]. apply IH. simpl in Hlen; lia.
Qed.

Lemma findall_tag_start (start : nat) (s : str) :
  findall_from TAG_PATTERN start 0 s = findall TAG_PATTERN s.
Proof. apply (findall_tag_pos (n:=length s)); lia. Qed.

Lemma space_not_bracket (c : ascii) :
  char_isspace c = true -> Ascii.eqb c "[" = false.
Proof.
  destruct c as [[] [] [] [] [] [] [] []]; vm_compute; congruence.
Qed.

Lemma findall_tag_lstrip (s : str) :
  findall TAG_PATTERN (lstrip s) = findall TAG_PATTERN s.
Proof.
  induction s as [|c s IH]; [reflexivity|].
  cbn [lstrip]. destruct (char_isspace c) eqn:E; [|reflexivity].
  rewrite IH. unfold findall at 2. rewrite findall_tag_unfold.
  unfold tag_prefix. destruct s as [|y s].
  - reflexivity.
  - rewrite (space_not_bracket _ E). cbn [andb]. apply eq_sym, findall_tag_start.
Qed.

Lemma starts_with_app (p s : str) :
  starts_with p s = true <-> exists t, s = p ++ t.
Proof.
  revert s; induction p as [|x p IH]; intros s; simpl.
  - split; eauto.
  - destruct s as [|y s]; [split; [discriminate | intros [t H]; discriminate]|].
    rewrite andb_true_iff, Ascii.eqb_eq, IH. split.
    + intros [-> [t ->]]; eauto.
    + intros [t [= -> ->]]; eauto.
Qed.

(** The first tag [findall] reports is found by [split], and the tags after
    it are those of the text [split] leaves. *)
Lemma findall_tag_cons (n : nat) :
  forall s tag tags,
    length s <= n ->
    findall TAG_PATTERN s = tag :: tags ->
    tag_shaped tag /\
    exists pre post,
      find_sub tag s = Some (pre, post) /\ findall TAG_PATTERN post = tags.
Proof.
  induction n as [|n IH]; intros s tag tags Hlen; unfold findall at 1;
    rewrite findall_tag_unfold.
  - destruct s; [|simpl in Hlen; lia]. discriminate.
  - destruct (tag_prefix s) as [[body after]|] eqn:E.
    + intros [= <- <-].
      apply tag_prefix_spec in E. destruct E as (-> & Hne & Hn).
      split; [exists body; auto|].
      exists [], after. split; [|symmetry; apply findall_tag_start].
      assert (Hs : starts_with ("["%char :: body ++ ["]"%char])
                    ("["%char :: body ++ "]"%char :: after) = true).
      { apply starts_with_app. exists after. simpl. rewrite <- app_assoc. reflexivity. }
      destruct body as [|y body]; [contradiction|].
      cbn [find_sub app]. cbn [app] in Hs. rewrite Hs.
      do 3 f_equal. cbn [length skipn]. rewrite length_app.
      replace (length body + length ["]"%char]) with (S (length body)) by (simpl; lia).
      apply skipn_snoc.
    + destruct s as [|x s]; [discriminate|].
      rewrite findall_tag_start. intros H.
      destruct (IH s tag tags) as (Sh & pre & post & F & T);
        [simpl in Hlen; lia | exact H |].
      split; [exact Sh|].
      exists (x :: pre), post. split; [|exact T].
      destruct Sh as (body & -> & Hne & Hn).
      cbn [find_sub].
      destruct (starts_with ("["%char :: body ++ ["]"%char]) (x :: s)) eqn:Hs.
      * exfalso. apply starts_with_app in Hs. destruct Hs as [t Hs].
        assert (E' : tag_prefix (x :: s) = Some (body, t)).
        { apply tag_prefix_spec. repeat split; auto.
          rewrite Hs. simpl. rewrite <- app_assoc. reflexivity. }
        congruence.
      * cbn [find_sub] in F. rewrite F. reflexivity.
Qed.

(** ** The tag loop never raises *)

Lemma classify_tag_spec (string value : str) (tokens : list Token) :
  exists out,
    classify_tag string value tokens = (Ok (tokens ++ tag_tokens value), out).
Proof.
  unfold classify_tag, tag_tokens.
  destruct (str_in value KNOWN_GROUPS); [eexists; reflexivity|].
  destruct (is_hash value); [eexists; reflexivity|].
  destruct (str_eqb value (lit "Multiple Subtitle"));
    [eexists; unfold ret; rewrite <- app_assoc; reflexivity|].
  destruct (str_eqb value (lit "Dual Audio"));
    [eexists; unfold ret; rewrite <- app_assoc; reflexivity|].
  destruct (is_noise value); [eexists; unfold ret; rewrite app_nil_r; reflexivity|].
  pose proof (split_and_classify_spec string value tokens) as H.
  destruct (find _ delimiters).
  - exact H.
  - destruct H as [out ->]. rewrite app_nil_r. eexists; reflexivity.
Qed.

Lemma tokenise_step_spec (string tag : str) (tags : list str)
    (tokens : list Token) (to_tokenise : list str) :
  findall TAG_PATTERN string = tag :: tags ->
  exists string' to_tokenise' out,
    tokenise_step tag (string, tokens, to_tokenise) =
      (Ok (string', tokens ++ tag_tokens (strip_ends tag), to_tokenise'), out)
    /\ findall TAG_PATTERN string' = tags.
Proof.
  intros H.
  destruct (findall_tag_cons (n:=length string) _ (le_n _) H)
    as (_ & pre & post & F & T).
  unfold tokenise_step.
  destruct (classify_tag_spec string (strip_ends tag) tokens) as [out ->].
  rewrite bind_ok. cbn [fst snd].
  unfold split_max1. rewrite F. cbn [unpack2 lift bind fst snd].
  do 3 eexists. split; [reflexivity|].
  rewrite findall_tag_lstrip. exact T.
Qed.

Lemma tokenise_loop_spec (tags : list str) :
  forall string tokens to_tokenise,
    findall TAG_PATTERN string = tags ->
    exists string' to_tokenise' out,
      tokenise_loop tags (string, tokens, to_tokenise) =
        (Ok (string', tokens ++ tags_tokens tags, to_tokenise'), out).
Proof.
  induction tags as [|tag tags IH]; intros string tokens to_tokenise H.
  - do 3 eexists. cbn. rewrite app_nil_r. reflexivity.
  - destruct (@tokenise_step_spec _ _ _ tokens to_tokenise H)
      as (string' & tt' & out & E & H').
    cbn [tokenise_loop]. rewrite E, bind_ok. cbn [fst snd].
    destruct (IH string' (tokens ++ tag_tokens (strip_ends tag)) tt' H')
      as (string'' & tt'' & out' & ->).
    do 3 eexists. cbn [fst snd]. unfold tags_tokens. cbn [flat_map].
    rewrite <- app_assoc. reflexivity.
Qed.

Lemma extract_tags_spec (string : str) :
  exists to_tokenise out,
    extract_tags string =
      (Ok (tags_tokens (findall TAG_PATTERN string), to_tokenise), out).
Proof.
  unfold extract_tags.
  destruct (@tokenise_loop_spec _ string [] [] eq_refl)
    as (string' & tt & out & ->).
  rewrite bind_ok. cbn. do 2 eexists. reflexivity.
Qed.

(** ** Reading the patterns: what a match consumes and which groups it sets *)

Lemma adv_refl (st : mstate) : adv [] [] st st.
Proof. unfold adv; simpl; repeat split; lia. Qed.

Lemma adv_trans w1 g1 w2 g2 (st mid st' : mstate) :
  adv w1 g1 st mid -> adv w2 g2 mid st' -> adv (w1 ++ w2) (g2 ++ g1) st st'.
Proof.
  unfold adv; intros (R1 & P1 & G1) (R2 & P2 & G2).
  rewrite R1, R2, P2, P1, G2, G1, length_app, <- !app_assoc.
  repeat split; lia.
Qed.

Lemma adv_det w gs (st st1 st2 : mstate) :
  adv w gs st st1 -> adv w gs st st2 -> st1 = st2.
Proof.
  unfold adv; intros (R1 & P1 & G1) (R2 & P2 & G2).
  destruct st1, st2; simpl in *.
  rewrite R1 in R2. apply app_inv_head in R2. congruence.
Qed.

Lemma adv_nil_eq (st st' : mstate) : adv [] [] st st' -> st' = st.
Proof. intros H. apply (adv_det H (adv_refl st)). Qed.

Lemma steps_chr_iff (p : ascii -> bool) (st st' : mstate) :
  steps (Chr p) st st' <-> exists c, p c = true /\ adv [c] [] st st'.
Proof.
  split.
  - intros H; inversion H; subst. exists c; split; [assumption|].
    unfold adv; simpl; repeat split; lia.
  - intros (c & Hp & R & P & G).
    destruct st as [n s gs], st' as [n' s' gs']; simpl in *; subst.
    replace (n + 1) with (S n) by lia. constructor; exact Hp.
Qed.

Lemma set_group_adv (name : string) w gs (st st1 : mstate) :
  adv w gs st st1 -> adv w ((name, w) :: gs) st (set_group name st st1).
Proof.
  unfold adv, set_group; intros (R & P & G); cbn [rest pos groups].
  repeat split; try assumption.
  rewrite P, R, G.
  replace (pos st + length w - pos st) with (length w) by lia.
  rewrite firstn_app, firstn_all, Nat.sub_diag. cbn. rewrite app_nil_r. reflexivity.
Qed.

Lemma adv_split w1 g1 w2 g2 (st st' : mstate) :
  adv (w1 ++ w2) (g2 ++ g1) st st' ->
  exists mid, adv w1 g1 st mid /\ adv w2 g2 mid st'
              /\ rest mid = w2 ++ rest st' /\ pos mid = pos st + length w1.
Proof.
  intros (R & P & G).
  exists (MState (pos st + length w1) (w2 ++ rest st') (g1 ++ groups st)).
  unfold adv; cbn [rest pos groups].
  rewrite R, P, G, length_app, <- !app_assoc. repeat split; lia.
Qed.

Lemma at_eol_iff (st : mstate) :
  at_eol st = true <-> rest st = [] \/ rest st = [newline].
Proof.
  unfold at_eol. destruct (rest st) as [|c [|c' l]].
  - split; auto.
  - rewrite Ascii.eqb_eq. split.
    + intros ->; right; reflexivity.
    + intros [H|H]; [discriminate | congruence].
  - split; [discriminate | intros [H|H]; discriminate].
Qed.

Lemma steps_den_sound (r : regex) (st st' : mstate) :
  steps r st st' ->
  exists w gs, den r (pos st) (rest st') w gs /\ adv w gs st st'.
Proof.
  induction 1 as [p c n s gs Hp|st|a b st mid st' _ IH1 _ IH2
                 |a b st st' _ IH|a b st st' _ IH|greedy a st
                 |greedy a st mid st' _ IH1 L _ IH2
                 |name a st st' _ IH|st Hb|st He].
  - exists [c], []. split; [exists c; auto|].
    unfold adv; simpl; repeat split; lia.
  - exists [], []. split; [split; reflexivity | apply adv_refl].
  - destruct IH1 as (w1 & g1 & D1 & A1), IH2 as (w2 & g2 & D2 & A2).
    exists (w1 ++ w2), (g2 ++ g1). split; [|apply (adv_trans A1 A2)].
    exists w1, g1, w2, g2.
    destruct A1 as (R1 & P1 & G1), A2 as (R2 & P2 & G2).
    rewrite <- R2, <- P1. auto.
  - destruct IH as (w & g & D & A). exists w, g. split; [left; exact D | exact A].
  - destruct IH as (w & g & D & A). exists w, g. split; [right; exact D | exact A].
  - exists [], []. split; [constructor | apply adv_refl].
  - destruct IH1 as (w1 & g1 & D1 & A1), IH2 as (w2 & g2 & D2 & A2).
    exists (w1 ++ w2), (g2 ++ g1). split; [|apply (adv_trans A1 A2)].
    cbn [den] in *.
    destruct A1 as (R1 & P1 & G1), A2 as (R2 & P2 & G2).
    constructor.
    + intros ->. rewrite R1 in L. simpl in L. lia.
    + rewrite <- R2. exact D1.
    + rewrite <- P1. exact D2.
  - destruct IH as (w & g & D & A).
    exists w, ((name, w) :: g). split; [exists g; auto | apply set_group_adv; exact A].
  - exists [], []. split; [cbn; auto | apply adv_refl].
  - exists [], []. split; [|apply adv_refl].
    cbn. split; [apply at_eol_iff; exact He | auto].
Qed.

Lemma steps_den_complete (r : regex) :
  forall st st' w gs,
    den r (pos st) (rest st') w gs -> adv w gs st st' -> steps r st st'.
Proof.
  induction r as [p| |a IHa b IHb|a IHa b IHb|greedy a IHa|name a IHa| |];
    intros st st' w gs D A; cbn [den] in D.
  - destruct D as (c & Hp & -> & ->). apply steps_chr_iff. eauto.
  - destruct D as (-> & ->). apply adv_nil_eq in A; subst. constructor.
  - destruct D as (w1 & g1 & w2 & g2 & D1 & D2 & -> & ->).
    destruct (adv_split _ _ _ _ A) as (mid & A1 & A2 & R & P).
    apply steps_seq with (mid := mid).
    + apply (IHa _ _ w1 g1); [rewrite R; exact D1 | exact A1].
    + apply (IHb _ _ w2 g2); [rewrite P; exact D2 | exact A2].
  - destruct D as [D|D]; [apply steps_alt_l, (IHa _ _ w gs) | apply steps_alt_r, (IHb _ _ w gs)];
      assumption.
  - remember (pos st) as n eqn:En. remember (rest st') as after eqn:Ea.
    revert st En A.
    induction D as [n after|n after w1 g1 w2 g2 Hne D1 _ IH]; intros st En A.
    + apply adv_nil_eq in A; subst. constructor.
    + destruct (adv_split _ _ _ _ A) as (mid & A1 & A2 & R & P).
      apply steps_star_more with (mid := mid).
      * apply (IHa _ _ w1 g1); [rewrite R, <- Ea, <- En; exact D1 | exact A1].
      * destruct A1 as (R1 & _). rewrite R1, length_app.
        destruct w1; [contradiction | simpl; lia].
      * apply IH; [exact Ea | rewrite P, En; reflexivity | exact A2].
  - destruct D as (g0 & D & ->).
    set (st1 := MState (pos st') (rest st') (g0 ++ groups st)).
    assert (A1 : adv w g0 st st1).
    { destruct A as (R & P & G). unfold adv, st1; simpl. auto. }
    assert (E : st' = set_group name st st1).
    { apply (adv_det A). apply set_group_adv; exact A1. }
    rewrite E. constructor. apply (IHa _ _ w g0); [exact D | exact A1].
  - destruct D as (Hn & -> & ->). apply adv_nil_eq in A; subst. constructor; exact Hn.
  - destruct D as (He & -> & ->). apply adv_nil_eq in A; subst.
    constructor. apply at_eol_iff; exact He.
Qed.

Theorem steps_den (r : regex) (st st' : mstate) :
  steps r st st' <->
  exists w gs, den r (pos st) (rest st') w gs /\ adv w gs st st'.
Proof.
  split; [apply steps_den_sound|].
  intros (w & gs & D & A). eapply steps_den_complete; eassumption.
Qed.

(** [re.match]: a match of [r] on [s] is a split of [s] into a matched text
    and a rest, and the groups are those the reading gives. *)
Lemma re_match_den (r : regex) (s : str) (d : mstate) :
  re_match r s = Some d ->
  exists w, s = w ++ rest d /\ den r 0 (rest d) w (groups d).
Proof.
  intros H. apply re_match_some_steps, steps_den in H.
  destruct H as (w & gs & D & R & P & G). simpl in *.
  rewrite app_nil_r in G. subst. eauto.
Qed.

Lemma re_match_is_some (r : regex) (s : str) :
  is_some (re_match r s) = true <->
  exists w after gs, s = w ++ after /\ den r 0 after w gs.
Proof.
  rewrite re_match_steps. split.
  - intros [d H]. apply steps_den in H.
    destruct H as (w & gs & D & R & P & G). simpl in *. eauto.
  - intros (w & after & gs & -> & D).
    exists (MState (length w) after gs). apply steps_den.
    exists w, gs. split; [exact D|].
    unfold adv; simpl. rewrite app_nil_r. auto.
Qed.

(** *** Readings of the building blocks *)

Lemma den_star_chr (greedy : bool) (p : ascii -> bool) n after w gs :
  den (Star greedy (Chr p)) n after w gs <-> forallb p w = true /\ gs = [].
Proof.
  cbn [den]. split.
  - induction 1 as [|n after w1 g1 w2 g2 _ (c & Hc & -> & ->) _ [IH ->]].
    + auto.
    + split; [simpl; rewrite Hc; exact IH | reflexivity].
  - intros [Hw ->]. revert n. induction w as [|c w IH]; intros n; [constructor|].
    simpl in Hw. apply andb_true_iff in Hw. destruct Hw as [Hc Hw].
    apply (@den_star_cons (den (Chr p)) n after [c] [] w []);
      [discriminate | exists c; auto | apply IH; exact Hw].
Qed.

Lemma den_plus_chr (greedy : bool) (p : ascii -> bool) n after w gs :
  den (Plus greedy (Chr p)) n after w gs <->
  w <> [] /\ forallb p w = true /\ gs = [].
Proof.
  unfold Plus. cbn [den]. split.
  - intros (w1 & g1 & w2 & g2 & (c & Hc & -> & ->) & D & -> & ->).
    apply (den_star_chr greedy p) in D. destruct D as [Hw ->].
    repeat split; [discriminate | simpl; rewrite Hc; exact Hw].
  - intros (Hne & Hw & ->). destruct w as [|c w]; [contradiction|].
    simpl in Hw. apply andb_true_iff in Hw. destruct Hw as [Hc Hw].
    exists [c], [], w, []. repeat split; [exists c; auto|].
    apply (den_star_chr greedy p). auto.
Qed.

Lemma den_char (c : ascii) n after w gs :
  den (Char c) n after w gs <-> w = [c] /\ gs = [].
Proof.
  unfold Char; cbn [den]. split.
  - intros (x & E & -> & ->). apply Ascii.eqb_eq in E. subst; auto.
  - intros [-> ->]. exists c. rewrite Ascii.eqb_refl. auto.
Qed.

Lemma den_lit (l : str) n after w gs :
  den (Lit l) n after w gs <-> w = l /\ gs = [].
Proof.
  revert n w gs; induction l as [|c l IH]; intros n w gs; [cbn; tauto|].
  destruct l as [|c' l]; [apply den_char|].
  change (Lit (c :: c' :: l)) with (Seq (Char c) (Lit (c' :: l))). cbn [den]. split.
  - intros (w1 & g1 & w2 & g2 & D1 & D2 & -> & ->).
    apply den_char in D1. apply IH in D2. destruct D1 as [-> ->], D2 as [-> ->]. auto.
  - intros [-> ->]. exists [c], [], (c' :: l), [].
    repeat split; [apply den_char; auto | apply IH; auto].
Qed.

Lemma den_opt (a : regex) n after w gs :
  den (Opt a) n after w gs <-> den a n after w gs \/ (w = [] /\ gs = []).
Proof. reflexivity. Qed.

Lemma den_group_plus_chr name (greedy : bool) (p : ascii -> bool) n after w gs :
  den (Group name (Plus greedy (Chr p))) n after w gs <->
  w <> [] /\ forallb p w = true /\ gs = [(name, w)].
Proof.
  cbn [den]. split.
  - intros (g0 & D & ->). apply den_plus_chr in D. destruct D as (? & ? & ->). auto.
  - intros (Hne & Hw & ->). exists []. split; [apply den_plus_chr; auto | reflexivity].
Qed.

(** *** The title pattern *)

Lemma den_opt_E n after w gs :
  den (Opt (Char "E")) n after w gs <-> exists b, w = opt_E b /\ gs = [].
Proof.
  rewrite den_opt, den_char. split.
  - intros [[-> ->]|[-> ->]]; [exists true | exists false]; auto.
  - intros ([|] & -> & ->); [left | right]; auto.
Qed.

Lemma den_second n after w gs :
  den (Opt (Seqs [Char "+"; Opt (Char "E");
                  Group "second_episode" (Plus true Digit)])) n after w gs <->
  exists o, match o with Some (_, x) => digits x | None => True end
            /\ w = second_text o /\ gs = second_groups o.
Proof.
  rewrite den_opt. cbn [Seqs den]. split.
  - intros [(w1 & g1 & w2 & g2 & D1 & (w3 & g3 & w4 & g4 & D3 & D4 & -> & ->) & -> & ->)
           |[-> ->]].
    + apply den_char in D1. destruct D1 as [-> ->].
      apply den_opt_E in D3. destruct D3 as (b & -> & ->).
      destruct D4 as (g0 & D4 & ->).
      apply (den_plus_chr true char_isdecimal) in D4. destruct D4 as (Hne & Hd & ->).
      exists (Some (b, w4)). repeat split; assumption.
    + exists None. auto.
  - intros ([[b x]|] & H & -> & ->); [left | right; auto].
    destruct H as [Hne Hd].
    exists ["+"%char], [], (opt_E b ++ x), [("second_episode"%string, x)].
    repeat split; [apply den_char; auto|].
    exists (opt_E b), [], x, [("second_episode"%string, x)].
    repeat split; [apply den_opt_E; eauto|].
    exists []. split; [apply (den_plus_chr true char_isdecimal); auto | reflexivity].
Qed.

Lemma den_version n after w gs :
  den (Opt (Group "version" (Seqs [Char "v"; Plus true Digit]))) n after w gs <->
  exists o, match o with Some x => digits x | None => True end
            /\ w = version_text o /\ gs = version_groups o.
Proof.
  rewrite den_opt. cbn [Seqs den]. split.
  - intros [(g0 & (w1 & g1 & w2 & g2 & D1 & D2 & -> & ->) & ->)|[-> ->]].
    + apply den_char in D1. destruct D1 as [-> ->].
      apply (den_plus_chr true char_isdecimal) in D2. destruct D2 as (Hne & Hd & ->).
      exists (Some w2). repeat split; assumption.
    + exists None. auto.
  - intros ([x|] & H & -> & ->); [left | right; auto].
    destruct H as [Hne Hd].
    exists []. split; [|reflexivity].
    exists ["v"%char], [], x, [].
    repeat split; [apply den_char; auto | apply (den_plus_chr true char_isdecimal); auto].
Qed.

Lemma den_end n after w gs :
  den (Opt (Group "special_tag" (Lit (lit " END")))) n after w gs <->
  exists b, w = end_text b /\ gs = end_groups b.
Proof.
  rewrite den_opt. cbn [den]. split.
  - intros [(g0 & D & ->)|[-> ->]].
    + apply den_lit in D. destruct D as [-> ->]. exists true. auto.
    + exists false. auto.
  - intros ([|] & -> & ->); [left | right; auto].
    exists []. split; [apply den_lit; auto | reflexivity].
Qed.

Lemma forallb_not_char (c : ascii) (w : str) :
  forallb (fun x => negb (Ascii.eqb x c)) w = true <-> ~ In c w.
Proof.
  induction w as [|x w IH]; simpl; [tauto|].
  rewrite andb_true_iff, IH, negb_true_iff, Ascii.eqb_neq. intuition congruence.
Qed.

Lemma den_title (after w : str) (gs : list (string * str)) :
  den TITLE_PATTERN 0 after w gs <->
  exists p, title_wf p /\ w = title_text p /\ gs = title_groups p
            /\ (after = [] \/ after = [newline]).
Proof.
  unfold TITLE_PATTERN. cbn [Seqs].
  split.
  - intros D. cbn [den] in D.
    destruct D as (w0 & g0 & W1 & G1 & (_ & -> & ->) & D & -> & ->).
    destruct D as (wn & gn & W2 & G2 & Dn & D & -> & ->).
    destruct D as (wl & gl & W3 & G3 & Dl & D & -> & ->).
    destruct D as (we & ge & W4 & G4 & De & D & -> & ->).
    destruct D as (wp & gp & W5 & G5 & Dp & D & -> & ->).
    destruct D as (ws & gs' & W6 & G6 & Ds & D & -> & ->).
    destruct D as (wv & gv & W7 & G7 & Dv & D & -> & ->).
    destruct D as (wd & gd & W8 & G8 & Dd & (He & -> & ->) & -> & ->).
    apply (den_group_plus_chr "name" false (fun x => negb (Ascii.eqb x newline))) in Dn.
    destruct Dn as (Hn1 & Hn2 & ->).
    apply den_lit in Dl. destruct Dl as [-> ->].
    apply den_opt_E in De. destruct De as (e & -> & ->).
    apply (den_group_plus_chr "episode" true char_isdecimal) in Dp.
    destruct Dp as (Hp1 & Hp2 & ->).
    apply den_second in Ds. destruct Ds as (o2 & H2 & -> & ->).
    apply den_version in Dv. destruct Dv as (ov & Hv & -> & ->).
    apply den_end in Dd. destruct Dd as (b & -> & ->).
    exists (TitleParts wn e wp o2 ov b).
    unfold title_wf, title_text, title_groups, digits; cbn [t_name t_E t_episode t_second t_version t_end].
    repeat split; try assumption.
    + apply forallb_not_char; exact Hn2.
    + rewrite !app_nil_r. reflexivity.
    + rewrite !app_nil_r, <- !app_assoc. reflexivity.
  - intros ([wn e wp o2 ov b] & Hwf & -> & -> & He).
    unfold title_wf, title_text, title_groups in *;
      cbn [t_name t_E t_episode t_second t_version t_end] in *.
    destruct Hwf as (Hn1 & Hn2 & Hp & H2 & Hv).
    cbn [den].
    exists [], [], (wn ++ lit " - " ++ opt_E e ++ wp ++ second_text o2
                      ++ version_text ov ++ end_text b),
      (end_groups b ++ version_groups ov ++ second_groups o2
         ++ [("episode"%string, wp); ("name"%string, wn)]).
    split; [auto|]. split; [|split; [reflexivity | rewrite app_nil_r; reflexivity]].
    exists wn, [("name"%string, wn)],
      (lit " - " ++ opt_E e ++ wp ++ second_text o2 ++ version_text ov ++ end_text b),
      (end_groups b ++ version_groups ov ++ second_groups o2 ++ [("episode"%string, wp)]).
    split.
    { apply (den_group_plus_chr "name" false (fun x => negb (Ascii.eqb x newline))).
      repeat split; [assumption | apply forallb_not_char; assumption]. }
    split; [|split; [reflexivity | rewrite <- !app_assoc; reflexivity]].
    exists (lit " - "), [],
      (opt_E e ++ wp ++ second_text o2 ++ version_text ov ++ end_text b),
      (end_groups b ++ version_groups ov ++ second_groups o2 ++ [("episode"%string, wp)]).
    split; [apply den_lit; auto|].
    split; [|split; [reflexivity | rewrite app_nil_r; reflexivity]].
    exists (opt_E e), [],
      (wp ++ second_text o2 ++ version_text ov ++ end_text b),
      (end_groups b ++ version_groups ov ++ second_groups o2 ++ [("episode"%string, wp)]).
    split; [apply den_opt_E; eauto|].
    split; [|split; [reflexivity | rewrite app_nil_r; reflexivity]].
    exists wp, [("episode"%string, wp)],
      (second_text o2 ++ version_text ov ++ end_text b),
      (end_groups b ++ version_groups ov ++ second_groups o2).
    split.
    { apply (den_group_plus_chr "episode" true char_isdecimal).
      destruct Hp; auto. }
    split; [|split; [reflexivity | rewrite <- !app_assoc; reflexivity]].
    exists (second_text o2), (second_groups o2),
      (version_text ov ++ end_text b), (end_groups b ++ version_groups ov).
    split; [apply den_second; eauto|].
    split; [|split; [reflexivity | rewrite <- !app_assoc; reflexivity]].
    exists (version_text ov), (version_groups ov), (end_text b), (end_groups b).
    split; [apply den_version; eauto|].
    split; [|split; reflexivity].
    exists (end_text b), (end_groups b), [], [].
    split; [apply den_end; eauto|].
    split; [cbn; auto | split; [rewrite app_nil_r; reflexivity | reflexivity]].
Qed.

(** *** A segment has the title form in one way only *)

Lemma last_occurrence_unique (c : ascii) (a1 b1 a2 b2 : str) :
  a1 ++ c :: b1 = a2 ++ c :: b2 -> ~ In c b1 -> ~ In c b2 ->
  a1 = a2 /\ b1 = b2.
Proof.
  revert a2; induction a1 as [|x a1 IH]; intros [|y a2] E N1 N2; simpl in E.
  - injection E as ->; auto.
  - injection E as <- ->. exfalso; apply N1, in_or_app; right; left; reflexivity.
  - injection E as -> <-. exfalso; apply N2, in_or_app; right; left; reflexivity.
  - injection E as -> E. destruct (IH _ E N1 N2) as [-> ->]; auto.
Qed.

Lemma span_unique (p : ascii -> bool) (a1 b1 a2 b2 : str) :
  a1 ++ b1 = a2 ++ b2 ->
  forallb p a1 = true -> forallb p a2 = true ->
  starts_not p b1 -> starts_not p b2 ->
  a1 = a2 /\ b1 = b2.
Proof.
  revert a2; induction a1 as [|x a1 IH]; intros [|y a2] E F1 F2 S1 S2;
    simpl in *.
  - auto.
  - subst b1. simpl in S1. apply andb_true_iff in F2. destruct F2; congruence.
  - subst b2. simpl in S2. apply andb_true_iff in F1. destruct F1; congruence.
  - injection E as -> E.
    apply andb_true_iff in F1, F2. destruct F1 as [_ F1], F2 as [_ F2].
    destruct (IH _ E F1 F2 S1 S2) as [-> ->]; auto.
Qed.

Lemma digits_head (w r : str) :
  digits w -> exists c l, w ++ r = c :: l /\ char_isdecimal c = true.
Proof.
  intros [Hne Hd]. destruct w as [|c w]; [contradiction|].
  simpl in Hd. apply andb_true_iff in Hd. destruct Hd. exists c, (w ++ r). auto.
Qed.

Lemma title_text_tail (p : title_parts) (nl : str) :
  title_text p ++ nl = (t_name p ++ [" "%char]) ++ "-"%char :: " "%char :: title_tail p nl.
Proof.
  unfold title_text, title_tail, after_episode, after_second.
  rewrite <- !app_assoc. reflexivity.
Qed.

Lemma decimal_not_dash (w : str) :
  forallb char_isdecimal w = true -> ~ In "-"%char w.
Proof.
  induction w as [|c w IH]; simpl; [tauto|].
  rewrite andb_true_iff. intros [Hc Hw] [->|H]; [discriminate | exact (IH Hw H)].
Qed.

Lemma title_tail_no_dash (p : title_parts) (nl : str) :
  title_wf p -> nl = [] \/ nl = [newline] -> ~ In "-"%char (title_tail p nl).
Proof.
  intros (_ & _ & [_ Hp] & H2 & Hv) Hnl.
  unfold title_tail, after_episode, after_second.
  rewrite !in_app_iff. intros [H|[H|[H|[H|[H|H]]]]].
  - destruct (t_E p); simpl in H; [destruct H as [H|[]]; discriminate | exact H].
  - exact (decimal_not_dash _ Hp H).
  - destruct (t_second p) as [[e w]|]; simpl in H; [|exact H].
    destruct H as [H|H]; [discriminate|].
    apply in_app_or in H. destruct H as [H|H].
    + destruct e; simpl in H; [destruct H as [H|[]]; discriminate | exact H].
    + destruct H2 as [_ H2]. exact (decimal_not_dash _ H2 H).
  - destruct (t_version p) as [w|]; simpl in H; [|exact H].
    destruct H as [H|H]; [discriminate|].
    destruct Hv as [_ Hv]. exact (decimal_not_dash _ Hv H).
  - destruct (t_end p); simpl in H; [|exact H].
    repeat (destruct H as [H|H]; [discriminate|]). exact H.
  - destruct Hnl as [-> | ->]; simpl in H; [exact H|].
    destruct H as [H|[]]. discriminate.
Qed.

Lemma after_second_starts (p : title_parts) (nl : str) (q : ascii -> bool) :
  q "v"%char = false -> q " "%char = false -> q newline = false ->
  nl = [] \/ nl = [newline] ->
  starts_not q (after_second p nl).
Proof.
  intros Hv Hs Hn Hnl. unfold after_second.
  destruct (t_version p); [exact Hv|].
  destruct (t_end p); [exact Hs|].
  destruct Hnl as [-> | ->]; simpl; auto.
Qed.

Lemma after_episode_starts (p : title_parts) (nl : str) (q : ascii -> bool) :
  q "+"%char = false ->
  q "v"%char = false -> q " "%char = false -> q newline = false ->
  nl = [] \/ nl = [newline] ->
  starts_not q (after_episode p nl).
Proof.
  intros Hp Hv Hs Hn Hnl. unfold after_episode.
  destruct (t_second p) as [[e w]|]; [exact Hp|].
  apply after_second_starts; assumption.
Qed.

Lemma opt_E_digits_unique (e1 e2 : bool) (w1 w2 r1 r2 : str) :
  opt_E e1 ++ w1 ++ r1 = opt_E e2 ++ w2 ++ r2 ->
  digits w1 -> digits w2 ->
  starts_not char_isdecimal r1 -> starts_not char_isdecimal r2 ->
  w1 = w2 /\ r1 = r2.
Proof.
  intros E D1 D2 S1 S2.
  destruct (digits_head r1 D1) as (c1 & l1 & E1 & H1).
  destruct (digits_head r2 D2) as (c2 & l2 & E2 & H2).
  destruct D1 as [_ D1], D2 as [_ D2].
  destruct e1, e2; simpl in E.
  - injection E as E. exact (span_unique _ _ _ _ _ E D1 D2 S1 S2).
  - rewrite E2 in E. injection E as <- _. discriminate.
  - rewrite E1 in E. injection E as -> _. discriminate.
  - exact (span_unique _ _ _ _ _ E D1 D2 S1 S2).
Qed.

Lemma title_shape_unique (p q : title_parts) (n1 n2 : str) :
  title_wf p -> title_wf q ->
  n1 = [] \/ n1 = [newline] -> n2 = [] \/ n2 = [newline] ->
  title_text p ++ n1 = title_text q ++ n2 ->
  t_name p = t_name q /\ t_episode p = t_episode q
  /\ option_map snd (t_second p) = option_map snd (t_second q).
Proof.
  intros Wp Wq H1 H2 E.
  rewrite !title_text_tail in E.
  apply last_occurrence_unique in E;
    [|intros [H|H]; [discriminate | exact (title_tail_no_dash Wp H1 H)]
     |intros [H|H]; [discriminate | exact (title_tail_no_dash Wq H2 H)]].
  destruct E as [En Et].
  apply app_inj_tail in En. destruct En as [En _].
  injection Et as Et. unfold title_tail in Et.
  destruct Wp as (_ & _ & Dp & Sp & _), Wq as (_ & _ & Dq & Sq & _).
  apply opt_E_digits_unique in Et; try assumption;
    try (apply after_episode_starts; auto; reflexivity).
  destruct Et as [Ee Er]. repeat split; try assumption.
  unfold after_episode in Er.
  pose proof (@after_second_starts p n1 (Ascii.eqb "+") eq_refl eq_refl eq_refl H1) as A1.
  pose proof (@after_second_starts q n2 (Ascii.eqb "+") eq_refl eq_refl eq_refl H2) as A2.
  destruct (t_second p) as [[e1 w1]|], (t_second q) as [[e2 w2]|]; simpl in Er |- *.
  - injection Er as Er. rewrite <- !app_assoc in Er.
    apply opt_E_digits_unique in Er; try assumption;
      try (apply after_second_starts; auto; reflexivity).
    destruct Er as [-> _]. reflexivity.
  - rewrite <- Er in A2. discriminate.
  - rewrite Er in A1. discriminate.
  - reflexivity.
Qed.

(** *** The title/episode block *)

Lemma re_match_title (segment : str) (d : mstate) :
  re_match TITLE_PATTERN segment = Some d ->
  exists p nl, title_wf p /\ (nl = [] \/ nl = [newline])
               /\ segment = title_text p ++ nl /\ groups d = title_groups p.
Proof.
  intros H. apply re_match_den in H. destruct H as (w & E & D).
  apply den_title in D. destruct D as (p & Wp & -> & G & Hnl).
  exists p, (rest d). auto.
Qed.

Lemma title_shape_matches (segment : str) (p : title_parts) :
  title_shape segment p -> is_some (re_match TITLE_PATTERN segment) = true.
Proof.
  intros [Wp Hs]. apply re_match_is_some.
  assert (H : exists nl, (nl = [] \/ nl = [newline]) /\ segment = title_text p ++ nl).
  { destruct Hs as [-> | ->]; [exists [] | exists [newline]]; split; auto.
    rewrite app_nil_r; reflexivity. }
  destruct H as (nl & Hnl & ->).
  exists (title_text p), nl, (title_groups p).
  split; [reflexivity|].
  apply den_title. exists p. auto.
Qed.

Lemma title_groups_lookup (p : title_parts) :
  assoc "name" (title_groups p) = Some (t_name p)
  /\ assoc "episode" (title_groups p) = Some (t_episode p)
  /\ assoc "second_episode" (title_groups p) = option_map snd (t_second p).
Proof.
  destruct p as [n e w [[e2 w2]|] [v|] [|]]; cbn; auto.
Qed.

Lemma decimal_not_int_space (c : ascii) :
  char_isdecimal c = true -> int_isspace c = false.
Proof. destruct c as [[] [] [] [] [] [] [] []]; vm_compute; congruence. Qed.

Lemma decimal_not_special (c : ascii) :
  char_isdecimal c = true ->
  Ascii.eqb c "+" = false /\ Ascii.eqb c "-" = false /\ Ascii.eqb c "_" = false
  /\ Ascii.eqb c "/" = false.
Proof. destruct c as [[] [] [] [] [] [] [] []]; vm_compute; intuition congruence. Qed.

Lemma digits_int_strip (w : str) : digits w -> int_strip w = w.
Proof.
  intros [Hne Hd].
  assert (L : forall l, l <> [] -> forallb char_isdecimal l = true ->
                int_lstrip l = l).
  { intros [|c l] N F; [contradiction|]. cbn in F |- *.
    apply andb_true_iff in F. destruct F as [Hc _].
    rewrite (decimal_not_int_space c Hc). reflexivity. }
  unfold int_strip. rewrite (L w Hne Hd).
  rewrite L, rev_involutive; [reflexivity | |].
  - intros E. apply (f_equal (@rev ascii)) in E. rewrite rev_involutive in E.
    contradiction.
  - rewrite forallb_forall in Hd |- *. intros x Hx. apply Hd, in_rev. exact Hx.
Qed.

Lemma int_digits_ok_decimal (w : str) (b : bool) :
  w <> [] -> forallb char_isdecimal w = true -> int_digits_ok b w = true.
Proof.
  revert b; induction w as [|c w IH]; intros b Hne Hd; [contradiction|].
  cbn in Hd |- *. apply andb_true_iff in Hd. destruct Hd as [Hc Hw]. rewrite Hc.
  destruct w as [|c' w]; [reflexivity|]. apply IH; [discriminate | exact Hw].
Qed.

Lemma filter_underscore_decimal (w : str) :
  forallb char_isdecimal w = true ->
  filter (fun c => negb (Ascii.eqb c "_")) w = w.
Proof.
  induction w as [|c w IH]; [reflexivity|]. cbn.
  rewrite andb_true_iff. intros [Hc Hw].
  destruct (decimal_not_special c Hc) as (_ & _ & -> & _). cbn.
  rewrite (IH Hw). reflexivity.
Qed.

(** [int] on a text of digits: the number, within the limit on digits. *)
Lemma int_digits (w : str) :
  digits w ->
  int w = if length w <=? int_max_str_digits then Ok (decimal w)
          else Raise ValueError.
Proof.
  intros D. unfold int. rewrite (digits_int_strip D).
  destruct D as [Hne Hd]. destruct w as [|c w]; [contradiction|].
  pose proof Hd as Hd'. cbn in Hd'. apply andb_true_iff in Hd'. destruct Hd' as [Hc _].
  destruct (decimal_not_special c Hc) as (-> & -> & _ & _).
  rewrite (@int_digits_ok_decimal (c :: w) false Hne Hd).
  rewrite (@filter_underscore_decimal (c :: w) Hd). reflexivity.
Qed.

Lemma title_episode_groups (tokens : list Token) (segment : str)
    (d : mstate) (p : title_parts) :
  re_match TITLE_PATTERN segment = Some d ->
  title_wf p -> groups d = title_groups p ->
  title_episode tokens [segment] = (episode_result tokens p, []).
Proof.
  intros E (_ & _ & Dp & D2 & _) G.
  destruct (title_groups_lookup p) as (L1 & L2 & L3).
  unfold title_episode, group. rewrite E, G, L1, L2, L3.
  rewrite (int_digits Dp). unfold episode_result, episodes_short, episode_tokens.
  destruct (length (t_episode p) <=? int_max_str_digits); [|reflexivity].
  rewrite bind_lift_ok. cbn [andb].
  destruct (t_second p) as [[e w]|]; cbn [option_map snd].
  - rewrite (int_digits D2).
    destruct (length w <=? int_max_str_digits); [|reflexivity].
    rewrite bind_lift_ok. unfold ret. rewrite <- !app_assoc. reflexivity.
  - unfold ret. rewrite <- !app_assoc. reflexivity.
Qed.

Lemma title_episode_match (tokens : list Token) (segment : str)
    (p : title_parts) :
  title_shape segment p ->
  title_episode tokens [segment] = (episode_result tokens p, []).
Proof.
  intros Hs. pose proof (title_shape_matches Hs) as M.
  destruct (re_match TITLE_PATTERN segment) as [d|] eqn:E; [|discriminate].
  destruct (re_match_title _ E) as (q & nl & Wq & Hnl & Eq & G).
  rewrite (@title_episode_groups tokens _ _ _ E Wq G).
  destruct Hs as [Wp Hs].
  assert (U : t_name q = t_name p /\ t_episode q = t_episode p
              /\ option_map snd (t_second q) = option_map snd (t_second p)).
  { destruct Hs as [Hs|Hs].
    - apply (@title_shape_unique q p nl []); auto.
      rewrite app_nil_r. congruence.
    - apply (@title_shape_unique q p nl [newline]); auto. congruence. }
  destruct U as (U1 & U2 & U3).
  unfold episode_result, episodes_short, episode_tokens. rewrite U1, U2.
  destruct (t_second q) as [[? ?]|], (t_second p) as [[? ?]|];
    simpl in U3; try discriminate; [injection U3 as ->|]; reflexivity.
Qed.

Lemma title_episode_nomatch (tokens : list Token) (segment : str) :
  (forall p, ~ title_shape segment p) ->
  title_episode tokens [segment] = (Ok (tokens, [segment]), []).
Proof.
  intros N. unfold title_episode.
  destruct (re_match TITLE_PATTERN segment) as [d|] eqn:E; [|reflexivity].
  destruct (re_match_title _ E) as (q & nl & Wq & Hnl & Eq & G).
  exfalso. apply (N q). split; [exact Wq|].
  destruct Hnl as [-> | ->]; [left; rewrite app_nil_r in Eq | right]; exact Eq.
Qed.

Lemma title_episode_other (tokens : list Token) (to_tokenise : list str) :
  length to_tokenise <> 1 ->
  title_episode tokens to_tokenise = (Ok (tokens, to_tokenise), []).
Proof.
  destruct to_tokenise as [|a [|b l]]; simpl; intros H; [reflexivity | lia | reflexivity].
Qed.

(** The title block returns the tokens it was given with title tokens
    after them, or raises the [ValueError] of [int]. *)
Lemma title_episode_total (tokens : list Token) (to_tokenise : list str) :
  title_episode tokens to_tokenise = (Raise ValueError, [])
  \/ exists added to_tokenise',
       title_episode tokens to_tokenise = (Ok (tokens ++ added, to_tokenise'), [])
       /\ Forall title_token added.
Proof.
  destruct to_tokenise as [|segment [|b l]].
  - right. exists [], []. rewrite app_nil_r. split; [reflexivity | constructor].
  - destruct (re_match TITLE_PATTERN segment) as [d|] eqn:E.
    + destruct (re_match_title _ E) as (q & nl & Wq & Hnl & Eq & G).
      rewrite (@title_episode_groups tokens _ _ _ E Wq G). unfold episode_result.
      destruct (episodes_short q); [right | left; reflexivity].
      exists (episode_tokens q), []. split; [reflexivity|].
      unfold episode_tokens. destruct (t_second q) as [[? ?]|]; repeat constructor.
    + right. exists [], [segment]. unfold title_episode. rewrite E, app_nil_r.
      split; [reflexivity | constructor].
  - right. exists [], (segment :: b :: l). rewrite app_nil_r.
    split; [reflexivity | constructor].
Qed.

Lemma _tokenise_spec (string : str) :
  exists to_tokenise out,
    extract_tags string =
      (Ok (tags_tokens (findall TAG_PATTERN string), to_tokenise), out)
    /\ (_tokenise string = (Raise ValueError, out)
        \/ exists added to_tokenise',
             _tokenise string =
               (Ok (tags_tokens (findall TAG_PATTERN string) ++ added,
                    to_tokenise'), out)
             /\ Forall title_token added).
Proof.
  unfold _tokenise.
  destruct (extract_tags_spec string) as (tt & out & ->).
  exists tt, out. split; [reflexivity|].
  rewrite bind_ok. cbn [fst snd].
  destruct (title_episode_total (tags_tokens (findall TAG_PATTERN string)) tt)
    as [->|(added & tt' & -> & F)]; cbn [fst snd]; rewrite app_nil_r.
  - left. reflexivity.
  - right. exists added, tt'. auto.
Qed.

Lemma decimal_nonneg (w : str) : (0 <= decimal w)%Z.
Proof.
  unfold decimal.
  assert (H : forall acc, (0 <= acc)%Z ->
                (0 <= fold_left (fun a c => (10 * a + digit_value c)%Z) w acc)%Z).
  { induction w as [|c w IH]; intros acc Hacc; cbn [fold_left]; [exact Hacc|].
    apply IH. unfold digit_value. lia. }
  apply H. lia.
Qed.

(** The title block leaves what it was given, or finds the title form in
    the one segment and gives [episode_result]. *)
Lemma title_episode_cases (tokens : list Token) (to_tokenise : list str) :
  title_episode tokens to_tokenise = (Ok (tokens, to_tokenise), [])
  \/ exists segment p,
       to_tokenise = [segment] /\ title_shape segment p
       /\ title_episode tokens to_tokenise = (episode_result tokens p, []).
Proof.
  destruct to_tokenise as [|segment [|b l]]; [left; reflexivity | | left; reflexivity].
  destruct (re_match TITLE_PATTERN segment) as [d|] eqn:E.
  - right. destruct (@re_match_title segment d E) as (q & nl & Wq & Hnl & Eq & G).
    exists segment, q. split; [reflexivity|]. split.
    + split; [exact Wq|].
      destruct Hnl as [-> | ->]; [left; rewrite app_nil_r in Eq | right]; exact Eq.
    + exact (@title_episode_groups tokens segment d q E Wq G).
  - left. unfold title_episode. rewrite E. reflexivity.
Qed.

(** Two readings of a segment in the title form have the same result. *)
Lemma episode_result_unique (tokens : list Token) (segment : str)
    (p q : title_parts) :
  title_shape segment p -> title_shape segment q ->
  episode_result tokens p = episode_result tokens q.
Proof.
  intros Hp Hq. pose proof (@title_episode_match tokens segment p Hp) as E.
  rewrite (@title_episode_match tokens segment q Hq) in E. congruence.
Qed.

Lemma episode_result_ok (tokens : list Token) (p : title_parts)
    (r : list Token * list str) :
  episode_result tokens p = Ok r ->
  episodes_short p = true /\ r = (tokens ++ episode_tokens p, []).
Proof.
  unfold episode_result. destruct (episodes_short p); [|discriminate].
  intros [= <-]. auto.
Qed.

(** [_tokenise] in terms of the tag loop and the title block. *)
Lemma _tokenise_cases (string : str) :
  exists tokens to_tokenise out,
    extract_tags string = (Ok (tokens, to_tokenise), out)
    /\ tokens = tags_tokens (findall TAG_PATTERN string)
    /\ (_tokenise string = (Ok (tokens, to_tokenise), out)
           /\ (forall segment p, to_tokenise = [segment] -> ~ title_shape segment p)
        \/ exists segment p,
             to_tokenise = [segment] /\ title_shape segment p
             /\ _tokenise string = (episode_result tokens p, out)).
Proof.
  unfold _tokenise.
  destruct (extract_tags_spec string) as (tt & out & ->).
  exists (tags_tokens (findall TAG_PATTERN string)), tt, out.
  split; [reflexivity|]. split; [reflexivity|].
  rewrite bind_ok. cbn [fst snd].
  destruct (title_episode_cases (tags_tokens (findall TAG_PATTERN string)) tt)
    as [E|(segment & p & -> & Hs & ->)]; cbn [fst snd]; rewrite ?app_nil_r.
  - left. rewrite E. cbn [fst snd]. rewrite app_nil_r. split; [reflexivity|].
    intros segment p -> Hs.
    rewrite (@title_episode_match _ segment p Hs) in E. injection E as E.
    apply episode_result_ok in E. destruct E as [_ E]. discriminate E.
  - right. exists segment, p. auto.
Qed.

Lemma long_episode_tags : extract_tags long_episode = (Ok ([], [long_episode]), []).
Proof. vm_compute. reflexivity. Qed.

Lemma long_episode_shape :
  title_shape long_episode
    (TitleParts (lit "A") false (repeat "1"%char 4301) None None false).
Proof.
  split; [|left; vm_compute; reflexivity].
  split; [discriminate|]. split; [intros [H|[]]; discriminate H|].
  split; [|split; exact I].
  split; [discriminate | vm_compute; reflexivity].
Qed.

Lemma long_episode_raises : _tokenise long_episode = (Raise ValueError, []).
Proof.
  unfold _tokenise. rewrite long_episode_tags, bind_ok. cbn [fst snd].
  rewrite (@title_episode_match [] long_episode _ long_episode_shape).
  vm_compute. reflexivity.
Qed.

(** *** The admission pattern *)

Lemma den_bracket (p : ascii -> bool) n after w gs :
  den (Seqs [Char "["; Plus true (Chr p); Char "]"]) n after w gs <->
  exists b, w = "["%char :: b ++ ["]"%char] /\ b <> [] /\ forallb p b = true
            /\ gs = [].
Proof.
  cbn [Seqs den]. split.
  - intros (w1 & g1 & w2 & g2 & D1 & (w3 & g3 & w4 & g4 & D3 & D4 & -> & ->) & -> & ->).
    apply den_char in D1. destruct D1 as [-> ->].
    apply den_plus_chr in D3. destruct D3 as (Hne & Hp & ->).
    apply den_char in D4. destruct D4 as [-> ->].
    exists w3. auto.
  - intros (b & -> & Hne & Hp & ->).
    exists ["["%char], [], (b ++ ["]"%char]), [].
    repeat split; [apply den_char; auto|].
    exists b, [], ["]"%char], [].
    repeat split; [apply den_plus_chr; auto | apply den_char; auto].
Qed.

Lemma den_anime_group n after w gs :
  den (Opt (Group "group" (Seqs [Char "["; Plus true (NotChar "]"); Char "]"])))
      n after w gs ->
  w = [] \/ tag_shaped w.
Proof.
  rewrite den_opt. intros [(g0 & D & ->)|[-> ->]]; [right | left; reflexivity].
  apply (den_bracket (fun x => negb (Ascii.eqb x "]"))) in D.
  destruct D as (b & -> & Hne & Hp & ->).
  exists b. repeat split; [assumption | apply forallb_not_char; assumption].
Qed.

Lemma den_anime_group_intro n after w :
  w = [] \/ tag_shaped w ->
  exists gs,
    den (Opt (Group "group" (Seqs [Char "["; Plus true (NotChar "]"); Char "]"])))
        n after w gs.
Proof.
  intros [->|(b & -> & Hne & Hn)].
  - exists []. apply den_opt. right; auto.
  - eexists. apply den_opt. left. exists []. split; [|reflexivity].
    apply (den_bracket (fun x => negb (Ascii.eqb x "]"))).
    exists b. repeat split; [assumption | apply forallb_not_char; assumption].
Qed.

Lemma den_anime_item n after w gs :
  den (Group "tags" (Seqs [Char "["; Plus true Dot; Char "]"])) n after w gs <->
  bracket_item w /\ gs = [("tags"%string, w)].
Proof.
  cbn [den]. split.
  - intros (g0 & D & ->).
    apply (den_bracket (fun x => negb (Ascii.eqb x newline))) in D.
    destruct D as (b & -> & Hne & Hp & ->). split; [|reflexivity].
    exists b. repeat split; [assumption | apply forallb_not_char; assumption].
  - intros [(b & -> & Hne & Hn) ->]. exists []. split; [|reflexivity].
    apply (den_bracket (fun x => negb (Ascii.eqb x newline))).
    exists b. repeat split; [assumption | apply forallb_not_char; assumption].
Qed.

Lemma den_anime_items n after w gs :
  den (Star true (Group "tags" (Seqs [Char "["; Plus true Dot; Char "]"])))
      n after w gs ->
  exists items, w = concat items /\ Forall bracket_item items.
Proof.
  cbn [den].
  induction 1 as [|n after w1 g1 w2 g2 _ D _ (items & -> & F)].
  - exists []. split; [reflexivity | constructor].
  - apply den_anime_item in D. destruct D as [B _].
    exists (w1 :: items). split; [reflexivity | constructor; assumption].
Qed.

Lemma den_anime_items_intro (items : list str) :
  Forall bracket_item items ->
  forall n after,
    den (Star true (Group "tags" (Seqs [Char "["; Plus true Dot; Char "]"])))
        n after (concat items) (rev (map (pair "tags"%string) items)).
Proof.
  induction 1 as [|t items B _ IH]; intros n after.
  - constructor.
  - cbn [concat map rev].
    apply (@den_star_cons _ n after t [("tags"%string, t)] (concat items)
             (rev (map (pair "tags"%string) items))).
    + destruct B as (b & -> & _). discriminate.
    + apply den_anime_item. auto.
    + apply IH.
Qed.

Lemma den_anime (after w : str) :
  (exists gs, den ANIME_PATTERN 0 after w gs) <->
  (exists g name tags ext,
      w = g ++ name ++ concat tags ++ "."%char :: ext
      /\ (g = [] \/ tag_shaped g)
      /\ ~ In newline name
      /\ tags <> [] /\ Forall bracket_item tags
      /\ ext <> [] /\ ~ In "."%char ext)
  /\ (after = [] \/ after = [newline]).
Proof.
  unfold ANIME_PATTERN. cbn [Seqs]. split.
  - intros (gs & D). cbn [den] in D.
    destruct D as (w0 & g0 & W1 & G1 & (_ & -> & ->) & D & -> & ->).
    destruct D as (wg & gg & W2 & G2 & Dg & D & -> & ->).
    destruct D as (wn & gn & W3 & G3 & (gn0 & Dn & ->) & D & -> & ->).
    destruct D as (wt & gt & W4 & G4 & Dt & D & -> & ->).
    destruct D as (wd & gd & W5 & G5 & Dd & D & -> & ->).
    destruct D as (we & ge & W6 & G6 & (ge0 & De & ->) & (He & -> & ->) & -> & ->).
    apply den_anime_group in Dg.
    apply (den_star_chr false (fun x => negb (Ascii.eqb x newline))) in Dn.
    destruct Dn as [Hn ->].
    unfold Plus in Dt. cbn [den] in Dt.
    destruct Dt as (t1 & gt1 & t2 & gt2 & Dt1 & Dt2 & -> & ->).
    fold (den (Group "tags" (Seqs [Char "["; Plus true Dot; Char "]"]))) in Dt1.
    fold (den (Star true (Group "tags" (Seqs [Char "["; Plus true Dot; Char "]"])))) in Dt2.
    apply den_anime_item in Dt1. destruct Dt1 as [B1 _].
    apply den_anime_items in Dt2. destruct Dt2 as (items & -> & F).
    apply den_char in Dd. destruct Dd as [-> ->].
    apply (den_plus_chr true (fun x => negb (Ascii.eqb x "."))) in De.
    destruct De as (He1 & He2 & _).
    split; [|exact He].
    exists wg, wn, (t1 :: items), we.
    repeat split; try assumption.
    + cbn [concat app]. rewrite !app_nil_r, <- !app_assoc. reflexivity.
    + apply forallb_not_char; exact Hn.
    + discriminate.
    + constructor; assumption.
    + apply forallb_not_char; exact He2.
  - intros [(g & name & tags & ext & -> & Hg & Hn & Ht & F & He1 & He2) Ha].
    destruct tags as [|t1 items]; [contradiction|].
    inversion F as [|? ? B1 F']; subst.
    destruct (den_anime_group_intro 0 (name ++ concat (t1 :: items) ++ "."%char :: ext ++ after) Hg)
      as [gg Dg].
    eexists. cbn [den].
    exists [], [], (g ++ name ++ concat (t1 :: items) ++ "."%char :: ext). eexists.
    split; [auto|]. split; [|split; [reflexivity | reflexivity]].
    exists g, gg, (name ++ concat (t1 :: items) ++ "."%char :: ext). eexists.
    split; [rewrite <- !app_assoc; exact Dg|].
    split; [|split; [reflexivity | reflexivity]].
    exists name. eexists. exists (concat (t1 :: items) ++ "."%char :: ext). eexists.
    split.
    { exists []. split; [|reflexivity].
      apply (den_star_chr false (fun x => negb (Ascii.eqb x newline))).
      split; [apply forallb_not_char; exact Hn | reflexivity]. }
    split; [|split; [reflexivity | reflexivity]].
    exists (concat (t1 :: items)). eexists. exists ("."%char :: ext). eexists.
    split.
    { exists t1, [("tags"%string, t1)], (concat items),
        (rev (map (pair "tags"%string) items)).
      split; [apply den_anime_item; auto|].
      split; [|split; reflexivity].
      apply (den_anime_items_intro F'). }
    split; [|split; [reflexivity | reflexivity]].
    exists ["."%char], [], ext. eexists.
    split; [apply den_char; auto|].
    split; [|split; [reflexivity | reflexivity]].
    exists ext. eexists. exists [], [].
    split.
    { exists []. split; [|reflexivity].
      apply (den_plus_chr true (fun x => negb (Ascii.eqb x "."))).
      repeat split; [assumption | apply forallb_not_char; assumption]. }
    split; [cbn; auto | split; [rewrite app_nil_r; reflexivity | reflexivity]].
Qed.

Lemma char_in_In (c : ascii) (s : str) : char_in c s = true <-> In c s.
Proof.
  unfold char_in. rewrite existsb_exists. split.
  - intros (x & H & E). apply Ascii.eqb_eq in E. subst; exact H.
  - intros H. exists c. split; [exact H | apply Ascii.eqb_refl].
Qed.

Lemma is_anime_iff (s : str) :
  is_anime s = true <-> anime_form (fun _ => True) s /\ In " "%char s.
Proof.
  unfold is_anime. rewrite andb_true_iff, char_in_In, re_match_is_some.
  split; intros [H Hs]; (split; [|exact Hs]).
  - destruct H as (w & after & gs & -> & D).
    destruct (proj1 (den_anime after w) (ex_intro _ gs D))
      as [(g & name & tags & ext & -> & Hg & Hn & Ht & F & He1 & He2) Ha].
    exists g, name, tags, (ext ++ after).
    repeat split; try assumption.
    + rewrite <- !app_assoc. reflexivity.
    + destruct ext; [contradiction | discriminate].
    + intros H. apply in_app_or in H. destruct H as [H|H]; [exact (He2 H)|].
      destruct Ha as [-> | ->]; simpl in H; [exact H|].
      destruct H as [H|[]]. discriminate.
  - destruct H as (g & name & tags & ext & -> & Hg & Hn & _ & Ht & F & He1 & He2).
    assert (D : exists gs, den ANIME_PATTERN 0 []
                  (g ++ name ++ concat tags ++ "."%char :: ext) gs).
    { apply den_anime. split; [|left; reflexivity].
      exists g, name, tags, ext. auto 10. }
    destruct D as [gs D].
    exists (g ++ name ++ concat tags ++ "."%char :: ext), [], gs.
    split; [rewrite app_nil_r; reflexivity | exact D].
Qed.

Lemma prefixes_before_In (c : ascii) (a b : str) :
  In a (prefixes_before c (a ++ c :: b)).
Proof.
  induction a as [|x a IH]; simpl.
  - rewrite Ascii.eqb_refl. left; reflexivity.
  - apply in_or_app. right. apply in_map. exact IH.
Qed.

Lemma tag_tokens_constructed (value : str) : Forall constructed (tag_tokens value).
Proof.
  unfold tag_tokens.
  repeat match goal with
         | |- context [if ?b then _ else _] => destruct b
         end; repeat constructor.
  destruct (find _ delimiters); [|constructor].
  eapply Forall_impl; [|apply tokens_of_word_token].
  intros [] H; simpl in *; tauto.
Qed.

Lemma tags_tokens_constructed (tags : list str) : Forall constructed (tags_tokens tags).
Proof.
  unfold tags_tokens. induction tags as [|t tags IH]; simpl; [constructor|].
  apply Forall_app. split; [apply tag_tokens_constructed | exact IH].
Qed.

Lemma tags_tokens_app (l1 l2 : list str) :
  tags_tokens (l1 ++ l2) = tags_tokens l1 ++ tags_tokens l2.
Proof. apply flat_map_app. Qed.

Lemma set_minus_all_hex (value : str) :
  nonempty (set_minus value hexdigits) = negb (all_hex value).
Proof.
  unfold set_minus, all_hex. generalize hexdigits as h. intros h.
  induction value as [|c v IH]; [reflexivity|].
  cbn [filter forallb]. destruct (char_in c h); cbn [negb andb nonempty];
    [exact IH | reflexivity].
Qed.

Lemma is_hash_iff (value : str) :
  length value = 8 -> is_hash value = all_hex value.
Proof.
  intros L. unfold is_hash. rewrite L, set_minus_all_hex, negb_involutive. reflexivity.
Qed.

Lemma str_eqb_length (a b : str) : length a <> length b -> str_eqb a b = false.
Proof.
  intros H. destruct (str_eqb a b) eqn:E; [|reflexivity].
  apply str_eqb_eq in E. subst. contradiction.
Qed.

(** * The properties of the specification *)

Unset Implicit Arguments.

(** C1, as stated: [_tokenise] never raises, it returns a pair for every
    input string.  It fails on ["A - 11...1"] with 4301 digits: no tag is
    found, the one residual segment has the title form, and [int] raises
    [ValueError] on the episode, which has more digits than it takes. *)
Lemma tokenise_never_raises_counterexample :
  ~ (forall string, exists tokens to_tokenise out,
        _tokenise string = (Ok (tokens, to_tokenise), out)).
Proof.
  intros H. destruct (H long_episode) as (tokens & tt & out & E).
  rewrite long_episode_raises in E. discriminate E.
Qed.

(** C1, amended: for every input string the tag loop returns, and
    [_tokenise] returns a pair of a token sequence and a residual-segment
    sequence unless the one residual segment left has the title form with
    an episode or second episode of more than 4300 digits; then, and only
    then, it raises, and what it raises is the [ValueError] of [int]. *)
Theorem tokenise_raises_only_long_episode (string : str) :
  exists tokens to_tokenise out,
    extract_tags string = (Ok (tokens, to_tokenise), out)
    /\ ((exists tokens' to_tokenise',
            _tokenise string = (Ok (tokens', to_tokenise'), out))
         /\ (forall segment p,
               to_tokenise = [segment] -> title_shape segment p ->
               episodes_short p = true)
        \/ _tokenise string = (Raise ValueError, out)
           /\ exists segment p,
                to_tokenise = [segment] /\ title_shape segment p
                /\ episodes_short p = false).
Proof.
  destruct (_tokenise_cases string)
    as (tokens & segs & out & E & _ & [[R N]|(segment & p & Es & Hs & R)]);
    exists tokens, segs, out; (split; [exact E|]).
  - left. split; [eauto|]. intros segment p Et Hs. destruct (N segment p Et Hs).
  - unfold episode_result in R. destruct (episodes_short p) eqn:Sh.
    + left. split; [eauto|]. subst segs. intros segment' q [= <-] Hq.
      pose proof (@episode_result_unique tokens segment p q Hs Hq) as U.
      unfold episode_result in U. rewrite Sh in U.
      destruct (episodes_short q); [reflexivity | discriminate U].
    + right. split; [exact R|]. exists segment, p. auto.
Qed.

(** C2. On ["[HorribleSubs] Show - 05 [720p]"] the tokens are
    SubGroup("HorribleSubs"), VideoQuality("720p"), Title("Show"),
    EpisodeNumber(5), in that order, the residual segments are empty (and
    nothing is printed). *)
Theorem tokenise_horriblesubs :
  _tokenise (lit "[HorribleSubs] Show - 05 [720p]") =
    (Ok ([SubGroup (lit "HorribleSubs"); VideoQuality (lit "720p");
          Title (lit "Show"); EpisodeNumber 5], []), []).
Proof. vm_compute. reflexivity. Qed.

(** C3, as stated: [is_anime] holds exactly for the filenames of the shape
    whose name part has a space.  It fails on ["Show[10 bit].mkv"]: the
    pattern matches with the name ["Show"], the space of the tag makes
    [is_anime] true, and no reading of the filename in the shape has a space
    in its name. *)
Lemma is_anime_name_space_counterexample :
  ~ (forall s, is_anime s = true <-> anime_form (fun name => In " "%char name) s).
Proof.
  intros H.
  assert (A : is_anime (lit "Show[10 bit].mkv") = true) by (vm_compute; reflexivity).
  apply H in A.
  destruct A as (g & name & tags & ext & E & Hg & _ & Hsp & Ht & F & _).
  assert (G : g = []).
  { destruct Hg as [->|(b & -> & _)]; [reflexivity | discriminate E]. }
  subst g. destruct tags as [|t tags]; [contradiction|].
  inversion F as [|? ? (b & -> & _) _]; subst.
  cbn [app concat] in E. rewrite <- !app_assoc in E.
  pose proof (prefixes_before_In "[" name
                (b ++ ["]"%char] ++ concat tags ++ "."%char :: ext)) as P.
  rewrite <- E in P. vm_compute in P.
  destruct P as [<-|[]]. simpl in Hsp.
  repeat (destruct Hsp as [Hsp|Hsp]; [discriminate|]). exact Hsp.
Qed.

(** C3, amended: [is_anime] holds exactly for the filenames of the shape
    [[optional-bracket-group] <name> <one-or-more-bracket-tags> .
    <extension>] that have a space anywhere, in the name or not. *)
Theorem is_anime_shape_and_space (s : str) :
  is_anime s = true <-> anime_form (fun _ => True) s /\ In " "%char s.
Proof. apply is_anime_iff. Qed.

(** C4. A tag content that is no known group, no hash, none of the two
    literals and no noise is split on [' '], [','], ['-'], ['.'], ['_'] in
    that order; the tokens of the first split whose words are all classified
    are appended and the later delimiters are not tried; when no split is
    fully classified the token list is left as it was (the failure is only
    printed), and in both cases nothing is raised. *)
Theorem generic_split_first_success (string value : str) (tokens : list Token) :
  str_in value KNOWN_GROUPS = false ->
  is_hash value = false ->
  value <> lit "Multiple Subtitle" ->
  value <> lit "Dual Audio" ->
  is_noise value = false ->
  match find (fun c => fully_classified (split_on c value))
             [" "; ","; "-"; "."; "_"]%char with
  | Some c =>
      exists out,
        classify_tag string value tokens =
          (Ok (tokens ++ tokens_of (split_on c value)), out)
  | None =>
      exists out,
        classify_tag string value tokens =
          (Ok tokens,
           out ++ [SplitFailure string value
                     (map (split_failure value) [" "; ","; "-"; "."; "_"]%char)])
  end.
Proof.
  intros K Hh M D N. unfold classify_tag. rewrite K, Hh, N.
  replace (str_eqb value (lit "Multiple Subtitle")) with false
    by (symmetry; apply not_true_is_false; intros E; apply str_eqb_eq in E; contradiction).
  replace (str_eqb value (lit "Dual Audio")) with false
    by (symmetry; apply not_true_is_false; intros E; apply str_eqb_eq in E; contradiction).
  apply split_and_classify_spec.
Qed.

Lemma generic_split_first_success_witness :
  exists out,
    classify_tag (lit "[BD,1080p]") (lit "BD,1080p") [] =
      (Ok [Source (lit "BD"); VideoQuality (lit "1080p")], out).
Proof.
  exact (generic_split_first_success (lit "[BD,1080p]") (lit "BD,1080p") []
           eq_refl eq_refl
           ltac:(discriminate) ltac:(discriminate) eq_refl).
Defined.

(** C5. [_tokenise_tag] gives every word the token of the first category,
    in the order audio, video, source, language, whose predicate holds for
    it ([first_category]): a word for which an earlier predicate holds never
    gets a later category.  It raises exactly when some word has no
    category, with those words. *)
Theorem tokenise_tag_priority (words : list str) :
  _tokenise_tag words =
    (match unclassified_of words with
     | [] => Ok (tokens_of words)
     | u => Raise (RuntimeError u)
     end, warnings_of words words).
Proof. apply _tokenise_tag_spec. Qed.

(** C6, as stated: every 8-character content outside KnownGroups with a
    non-hexadecimal character goes to the generic split path.  It fails on
    ["v2 1080p"]: the content starts with [v<digit>], so the noise branch
    takes it and nothing is split or reported. *)
Lemma hash_fallthrough_counterexample :
  ~ (forall string value tokens,
        str_in value KNOWN_GROUPS = false ->
        length value = 8 ->
        all_hex value = false ->
        classify_tag string value tokens = split_and_classify string value tokens).
Proof.
  intros H.
  specialize (H (lit "[v2 1080p]") (lit "v2 1080p") [] eq_refl eq_refl eq_refl).
  vm_compute in H. discriminate H.
Qed.

(** C6, amended: for a content of 8 characters outside KnownGroups, when
    every character is a hexadecimal digit the tag gives the one token
    Hash(content); when some character is not, no Hash token is made: a
    content that is noise ([Disc <digit>...], [v<digit>...]) is dropped,
    and any other goes to the generic split path. *)
Theorem hash_tag (string value : str) (tokens : list Token) :
  str_in value KNOWN_GROUPS = false ->
  length value = 8 ->
  (all_hex value = true ->
   classify_tag string value tokens = (Ok (tokens ++ [Hash value]), []))
  /\ (all_hex value = false ->
      classify_tag string value tokens =
        (if is_noise value then (Ok tokens, [])
         else split_and_classify string value tokens)
      /\ exists added out,
          classify_tag string value tokens = (Ok (tokens ++ added), out)
          /\ Forall word_token added).
Proof.
  intros K L. unfold classify_tag. rewrite K, (is_hash_iff _ L).
  split; intros ->; [reflexivity|].
  rewrite !str_eqb_length by (rewrite L; simpl; lia).
  split; [reflexivity|].
  destruct (is_noise value).
  - exists [], []. rewrite app_nil_r. split; [reflexivity | constructor].
  - pose proof (split_and_classify_spec string value tokens) as H.
    destruct (find _ delimiters) as [c|].
    + destruct H as [out H]. exists (tokens_of (split_on c value)), out.
      split; [exact H | apply tokens_of_word_token].
    + destruct H as [out H]. eexists [], _. rewrite app_nil_r.
      split; [exact H | constructor].
Qed.

Lemma hash_tag_witness :
  classify_tag (lit "[1A2B3C4D]") (lit "1A2B3C4D") [] =
    (Ok [Hash (lit "1A2B3C4D")], [])
  /\ classify_tag (lit "[1A2B3C4G]") (lit "1A2B3C4G") [] =
       split_and_classify (lit "[1A2B3C4G]") (lit "1A2B3C4G") [].
Proof.
  split.
  - exact (proj1 (hash_tag (lit "[1A2B3C4D]") (lit "1A2B3C4D") [] eq_refl eq_refl)
             eq_refl).
  - exact (proj1 (proj2 (hash_tag (lit "[1A2B3C4G]") (lit "1A2B3C4G") []
                           eq_refl eq_refl) eq_refl)).
Defined.

(** C7, as stated: whenever the one residual segment has the title form,
    [_tokenise] appends Title(name) and the EpisodeNumbers and returns no
    residual segment.  It fails on ["A - 11...1"] with 4301 digits: the
    segment has the form, with the name ["A"] and the 4301 digits as its
    episode, and [int] raises [ValueError] on them, so nothing is
    returned. *)
Lemma title_episode_block_counterexample :
  ~ (forall string tokens to_tokenise out segment p,
        extract_tags string = (Ok (tokens, to_tokenise), out) ->
        to_tokenise = [segment] ->
        title_shape segment p ->
        _tokenise string = (Ok (tokens ++ episode_tokens p, []), out)).
Proof.
  intros H.
  specialize (H long_episode [] [long_episode] [] long_episode _
                long_episode_tags eq_refl long_episode_shape).
  rewrite long_episode_raises in H. discriminate H.
Qed.

(** C7, amended.  With the tokens and residual segments the tag loop
    leaves: unless there is exactly one segment, [_tokenise] returns them as
    they are; when the one segment has the form
    [<name> - [E]<episode>[+[E]<second_episode>][v<version>][ END]] and its
    episode numbers have at most 4300 digits each, the tokens Title(name),
    EpisodeNumber(episode) and, with a second episode,
    EpisodeNumber(second_episode) are appended, nothing is added for the
    version or END, and no residual segment is left; when it has the form
    and an episode number has more digits, [ValueError] is raised; when it
    has not the form, the segment is returned as the only residual
    segment. *)
Theorem title_episode_block (string : str) (tokens : list Token)
    (to_tokenise : list str) (out : list event) :
  extract_tags string = (Ok (tokens, to_tokenise), out) ->
  (length to_tokenise <> 1 ->
   _tokenise string = (Ok (tokens, to_tokenise), out))
  /\ (forall segment,
         to_tokenise = [segment] ->
         (forall p, title_shape segment p ->
                    _tokenise string =
                      (if episodes_short p
                       then Ok (tokens ++ episode_tokens p, [])
                       else Raise ValueError, out))
         /\ ((forall p, ~ title_shape segment p) ->
             _tokenise string = (Ok (tokens, [segment]), out))).
Proof.
  intros E. unfold _tokenise. rewrite E, bind_ok. cbn [fst snd].
  split; [|intros segment ->; split].
  - intros H. rewrite (@title_episode_other tokens _ H). cbn. rewrite app_nil_r. reflexivity.
  - intros p Hs. rewrite (@title_episode_match tokens _ _ Hs). cbn [fst snd].
    rewrite app_nil_r. reflexivity.
  - intros H. rewrite (@title_episode_nomatch tokens _ H). cbn. rewrite app_nil_r. reflexivity.
Qed.

Lemma title_episode_block_witness :
  _tokenise (lit "[OZC] Show - E05+06v2 END") =
    (Ok ([SubGroup (lit "OZC"); Title (lit "Show"); EpisodeNumber 5;
          EpisodeNumber 6], []), []).
Proof.
  refine (proj1 (proj2 (title_episode_block (lit "[OZC] Show - E05+06v2 END")
                          [SubGroup (lit "OZC")] [lit "Show - E05+06v2 END"] []
                          eq_refl) _ eq_refl)
            (TitleParts (lit "Show") true (lit "05") (Some (false, lit "06"))
                        (Some (lit "2")) true) _).
  unfold title_shape, title_wf, digits; cbn.
  repeat split; try discriminate; try reflexivity; try (left; reflexivity).
  intros [H|[H|[H|[H|[]]]]]; discriminate H.
Defined.

(** C8. A tag with the content ["Dual Audio"] gives exactly
    AudioLanguage("EN"), AudioLanguage("JP"), in that order, at its place
    among the tokens of the other tags, whatever those tags are. *)
Theorem dual_audio_tag (string : str) (before after : list str) :
  findall TAG_PATTERN string = before ++ lit "[Dual Audio]" :: after ->
  (forall text tokens,
      classify_tag text (lit "Dual Audio") tokens =
        (Ok (tokens ++ [AudioLanguage (lit "EN"); AudioLanguage (lit "JP")]), []))
  /\ (exists to_tokenise out,
        extract_tags string =
          (Ok (tags_tokens before
                 ++ [AudioLanguage (lit "EN"); AudioLanguage (lit "JP")]
                 ++ tags_tokens after, to_tokenise), out))
  /\ (forall tokens to_tokenise out,
        _tokenise string = (Ok (tokens, to_tokenise), out) ->
        exists added,
          tokens = tags_tokens before
                     ++ [AudioLanguage (lit "EN"); AudioLanguage (lit "JP")]
                     ++ tags_tokens after ++ added
          /\ Forall title_token added).
Proof.
  intros E.
  assert (T : tags_tokens (findall TAG_PATTERN string) =
              tags_tokens before
                ++ [AudioLanguage (lit "EN"); AudioLanguage (lit "JP")]
                ++ tags_tokens after).
  { rewrite E, tags_tokens_app. unfold tags_tokens at 2. cbn [flat_map].
    reflexivity. }
  split; [|split].
  - intros text tokens. unfold classify_tag.
    replace (str_in (lit "Dual Audio") KNOWN_GROUPS) with false by reflexivity.
    replace (is_hash (lit "Dual Audio")) with false by reflexivity.
    replace (str_eqb (lit "Dual Audio") (lit "Multiple Subtitle")) with false
      by reflexivity.
    replace (str_eqb (lit "Dual Audio") (lit "Dual Audio")) with true by reflexivity.
    unfold ret. rewrite <- app_assoc. reflexivity.
  - destruct (extract_tags_spec string) as (tt & out & R).
    exists tt, out. rewrite R, T. reflexivity.
  - intros tokens tt out R.
    destruct (_tokenise_spec string) as (tt0 & out0 & _ & [R'|(added & tt' & R' & F)]);
      rewrite R' in R; [discriminate R|].
    injection R as <- _ _. exists added. split; [|exact F].
    rewrite T, <- !app_assoc. reflexivity.
Qed.

Lemma dual_audio_tag_witness :
  (forall text tokens,
      classify_tag text (lit "Dual Audio") tokens =
        (Ok (tokens ++ [AudioLanguage (lit "EN"); AudioLanguage (lit "JP")]), []))
  /\ (exists to_tokenise out,
        extract_tags (lit "[FFF] Show [Dual Audio][720p]") =
          (Ok ([SubGroup (lit "FFF")]
                 ++ [AudioLanguage (lit "EN"); AudioLanguage (lit "JP")]
                 ++ [VideoQuality (lit "720p")], to_tokenise), out))
  /\ (forall tokens to_tokenise out,
        _tokenise (lit "[FFF] Show [Dual Audio][720p]") =
          (Ok (tokens, to_tokenise), out) ->
        exists added,
          tokens = [SubGroup (lit "FFF")]
                     ++ [AudioLanguage (lit "EN"); AudioLanguage (lit "JP")]
                     ++ [VideoQuality (lit "720p")] ++ added
          /\ Forall title_token added).
Proof.
  exact (dual_audio_tag (lit "[FFF] Show [Dual Audio][720p]")
           [lit "[FFF]"] [lit "[720p]"] eq_refl).
Defined.

(** C9. No token [_tokenise] returns is a RandomTag or an Extension:
    whenever it returns, for whatever input string, each token of the
    sequence it returns is of one of the nine other classes. *)
Theorem tokenise_no_random_tag_or_extension (string : str)
    (tokens : list Token) (to_tokenise : list str) (out : list event) :
  _tokenise string = (Ok (tokens, to_tokenise), out) ->
  Forall constructed tokens.
Proof.
  intros R.
  destruct (_tokenise_spec string) as (tt0 & out0 & _ & [R'|(added & tt' & R' & F)]);
    rewrite R' in R; [discriminate R|].
  injection R as <- _ _.
  apply Forall_app. split; [apply tags_tokens_constructed|].
  eapply Forall_impl; [|exact F]. intros [] H; simpl in *; tauto.
Qed.

Lemma tokenise_no_random_tag_or_extension_witness :
  Forall constructed
    [SubGroup (lit "HorribleSubs"); VideoQuality (lit "720p");
     Title (lit "Show"); EpisodeNumber 5].
Proof.
  exact (tokenise_no_random_tag_or_extension
           (lit "[HorribleSubs] Show - 05 [720p]") _ [] [] eq_refl).
Defined.

(** C10. A word for which the language predicate holds and none of the
    audio, video and source predicates does gets the token AudioLanguage
    with the word as it is, at its place among the tokens of the other
    words of a fully classified split (and the warning is printed). *)
Theorem language_word_audio_language (w : str) (before after : list str) :
  _is_audio_tag w = Ok false ->
  _is_video_tag w = Ok false ->
  _is_source_tag w = Ok false ->
  _is_language_tag w = Ok true ->
  fully_classified (before ++ after) = true ->
  exists out,
    _tokenise_tag (before ++ w :: after) =
      (Ok (tokens_of before ++ AudioLanguage w :: tokens_of after), out)
    /\ In (LanguageWarning (before ++ w :: after)) out.
Proof.
  intros A V S L F.
  assert (C : first_category w = Some (AudioLanguage w)).
  { unfold first_category. rewrite A, V, S, L. reflexivity. }
  rewrite _tokenise_tag_spec. eexists. split.
  - apply fully_classified_unclassified in F.
    rewrite unclassified_of_app in F. apply app_eq_nil in F. destruct F as [F1 F2].
    rewrite unclassified_of_app, F1. unfold unclassified_of at 1. cbn [filter app].
    rewrite C. cbn [is_some negb]. fold (unclassified_of after). rewrite F2.
    rewrite tokens_of_app. unfold tokens_of at 2. cbn [flat_map]. rewrite C.
    reflexivity.
  - unfold warnings_of. apply in_flat_map. exists w. split.
    + apply in_or_app. right. left. reflexivity.
    + unfold warned. rewrite C. left. reflexivity.
Qed.

Lemma language_word_audio_language_witness :
  exists out,
    _tokenise_tag [lit "BD"; lit "dual"; lit "720p"] =
      (Ok [Source (lit "BD"); AudioLanguage (lit "dual"); VideoQuality (lit "720p")],
       out)
    /\ In (LanguageWarning [lit "BD"; lit "dual"; lit "720p"]) out.
Proof.
  exact (language_word_audio_language (lit "dual") [lit "BD"] [lit "720p"]
           eq_refl eq_refl eq_refl eq_refl eq_refl).
Defined.

(** * Further properties of the code *)

(** ** The word classifiers *)

Lemma _is_audio_tag_eq (w : str) :
  _is_audio_tag w = Ok (str_in (lower w) audio_words || audio_pattern w).
Proof.
  unfold _is_audio_tag. fold audio_words.
  destruct (str_in (lower w) audio_words); [reflexivity|].
  destruct w as [|a [|b [|c [|d w]]]]; try reflexivity.
  cbn. destruct (char_isnumeric a); cbn; [|reflexivity].
  destruct (Ascii.eqb b "."); cbn; [|reflexivity].
  destruct (char_isnumeric c); reflexivity.
Qed.

Lemma resolution_chain (w : str) :
  (Ok (isnumeric (drop_last w))
   &&& (c <- getlast w ;; Ok (Ascii.eqb c "p")))%result
  = Ok (resolution_pattern w).
Proof.
  unfold and_then, resolution_pattern, getlast. cbn [rbind].
  destruct (isnumeric (drop_last w)) eqn:E; [|reflexivity].
  destruct (rev w) as [|c r] eqn:R; [|reflexivity].
  apply (f_equal (@rev ascii)) in R. rewrite rev_involutive in R. subst w.
  discriminate E.
Qed.

Lemma _is_video_tag_eq (w : str) :
  _is_video_tag w =
    Ok (str_in (lower w) video_words || resolution_pattern w
        || dimensions_pattern w).
Proof.
  unfold _is_video_tag. fold video_words.
  destruct (str_in (lower w) video_words); [reflexivity|].
  rewrite resolution_chain. cbn [rbind orb].
  destruct (resolution_pattern w); [reflexivity|].
  unfold dimensions_pattern. cbn [orb].
  destruct (count "x" w =? 1) eqn:E; [|reflexivity].
  apply Nat.eqb_eq in E.
  pose proof (split_on_length "x" w) as L. rewrite E in L.
  destruct (split_on "x" w) as [|a [|b [|? ?]]]; try discriminate.
  cbn. destruct (isnumeric a && isnumeric b); reflexivity.
Qed.

Lemma numeric_lower (c : ascii) : char_isnumeric c = true -> char_lower c = c.
Proof.
  destruct c as [[] [] [] [] [] [] [] []]; vm_compute; congruence.
Qed.

Lemma numeric_text_lower (d : str) :
  forallb char_isnumeric d = true -> lower d = d.
Proof.
  induction d as [|c d IH]; [reflexivity|]. cbn [forallb lower map].
  rewrite andb_true_iff. intros [Hc Hd].
  rewrite (numeric_lower c Hc). f_equal. apply IH; exact Hd.
Qed.

Lemma isnumeric_forallb (d : str) :
  isnumeric d = true -> forallb char_isnumeric d = true.
Proof. destruct d; [discriminate | auto]. Qed.

Lemma getlast_snoc (w : str) (c : ascii) (r : str) :
  rev w = c :: r -> w = drop_last w ++ [c].
Proof.
  intros R. apply (f_equal (@rev ascii)) in R. rewrite rev_involutive in R.
  subst w. cbn [rev]. unfold drop_last. rewrite removelast_last. reflexivity.
Qed.

Lemma split_on_nonempty (c : ascii) (w : str) : split_on c w <> [].
Proof.
  pose proof (split_on_length c w) as L. intros E. rewrite E in L. discriminate.
Qed.

Lemma split_on_one (c : ascii) (w b : str) :
  split_on c w = [b] -> w = b /\ ~ In c b.
Proof.
  revert b; induction w as [|x w IH]; intros b; cbn [split_on].
  - intros [= <-]. split; [reflexivity | intros []].
  - destruct (Ascii.eqb_spec x c) as [->|N].
    + intros [= _ E]. destruct (split_on_nonempty c w E).
    + destruct (split_on c w) as [|u us] eqn:S; [destruct (split_on_nonempty c w S)|].
      intros [= <- ->]. destruct (IH u eq_refl) as [-> Nu].
      split; [reflexivity|]. intros [H|H]; [congruence | exact (Nu H)].
Qed.

Lemma split_on_two (c : ascii) (w a b : str) :
  split_on c w = [a; b] -> w = a ++ c :: b /\ ~ In c a /\ ~ In c b.
Proof.
  revert a; induction w as [|x w IH]; intros a; cbn [split_on]; [discriminate|].
  destruct (Ascii.eqb_spec x c) as [->|N].
  - intros [= <- E]. destruct (split_on_one c w b E) as [-> Nb].
    repeat split; [intros [] | exact Nb].
  - destruct (split_on c w) as [|u us] eqn:S; [discriminate|].
    intros [= <- ->]. destruct (IH u eq_refl) as (-> & Na & Nb).
    repeat split; [|exact Nb]. intros [H|H]; [congruence | exact (Na H)].
Qed.

(** The words of the three patterns are unchanged by [lower]. *)
Lemma audio_pattern_lower (w : str) : audio_pattern w = true -> lower w = w.
Proof.
  destruct w as [|a [|b [|c [|d w]]]]; try discriminate. cbn [audio_pattern].
  rewrite !andb_true_iff, Ascii.eqb_eq. intros [[Ha ->] Hc].
  cbn [lower map]. rewrite (numeric_lower a Ha), (numeric_lower c Hc). reflexivity.
Qed.

Lemma resolution_pattern_lower (w : str) :
  resolution_pattern w = true -> lower w = w.
Proof.
  unfold resolution_pattern. rewrite andb_true_iff. intros [Hd Hp].
  destruct (rev w) as [|c r] eqn:R; [discriminate|].
  apply Ascii.eqb_eq in Hp. subst c.
  rewrite (getlast_snoc w _ _ R) at 1 2. unfold lower. rewrite map_app.
  fold (lower (drop_last w)).
  rewrite (numeric_text_lower _ (isnumeric_forallb _ Hd)). reflexivity.
Qed.

Lemma dimensions_pattern_lower (w : str) :
  dimensions_pattern w = true -> lower w = w.
Proof.
  unfold dimensions_pattern. rewrite andb_true_iff. intros [_ H].
  destruct (split_on "x" w) as [|a [|b [|? ?]]] eqn:S; try discriminate.
  apply andb_true_iff in H. destruct H as [Ha Hb].
  destruct (split_on_two "x" w a b S) as (-> & _ & _).
  unfold lower. rewrite map_app. cbn [map]. fold (lower a). fold (lower b).
  rewrite (numeric_text_lower _ (isnumeric_forallb _ Ha)),
    (numeric_text_lower _ (isnumeric_forallb _ Hb)). reflexivity.
Qed.

Lemma str_in_existsb (P : str -> bool) (x : str) (l : list str) :
  str_in x l = true -> P x = true -> existsb P l = true.
Proof.
  unfold str_in. rewrite !existsb_exists. intros (y & Hy & E) Hp.
  apply str_eqb_eq in E. subst y. eauto.
Qed.

(** A word of a pattern is in no word set but, for [aac_5.1]-like words,
    its own; a word is in one word set at most. *)
Lemma pattern_not_in_set (P : str -> bool) (l : list str) (w : str) :
  (P w = true -> lower w = w) -> existsb P l = false ->
  P w = true -> str_in (lower w) l = false.
Proof.
  intros F N Hp. rewrite (F Hp).
  destruct (str_in w l) eqn:E; [|reflexivity].
  rewrite (str_in_existsb P w l E Hp) in N. discriminate.
Qed.

Lemma sets_disjoint (l1 l2 : list str) (x : str) :
  existsb (fun y => str_in y l2) l1 = false ->
  str_in x l1 = true -> str_in x l2 = false.
Proof.
  intros N H. destruct (str_in x l2) eqn:E; [|reflexivity].
  rewrite (str_in_existsb (fun y => str_in y l2) x l1 H E) in N. discriminate.
Qed.

Lemma numeric_text_no (c : ascii) (d : str) :
  char_isnumeric c = false -> forallb char_isnumeric d = true -> ~ In c d.
Proof.
  intros Hc. induction d as [|x d IH]; cbn; [tauto|].
  rewrite andb_true_iff. intros [Hx Hd] [->|H]; [congruence | exact (IH Hd H)].
Qed.

Lemma audio_pattern_not_video (w : str) :
  audio_pattern w = true ->
  resolution_pattern w = false /\ dimensions_pattern w = false.
Proof.
  destruct w as [|a [|b [|c [|d w]]]]; try discriminate. cbn [audio_pattern].
  rewrite !andb_true_iff, Ascii.eqb_eq. intros [[Ha ->] Hc]. split.
  - unfold resolution_pattern. cbn. rewrite Ha. reflexivity.
  - unfold dimensions_pattern, count. cbn [filter].
    replace (Ascii.eqb "x" a) with false
      by (destruct (Ascii.eqb_spec "x" a) as [<-|]; [discriminate Ha | reflexivity]).
    replace (Ascii.eqb "x" c) with false
      by (destruct (Ascii.eqb_spec "x" c) as [<-|]; [discriminate Hc | reflexivity]).
    reflexivity.
Qed.

Lemma holds_ok (b : bool) : holds (Ok b) = b.
Proof. destruct b; reflexivity. Qed.

Ltac clash :=
  repeat match goal with
         | H : true = true -> _ |- _ =>
             let X := fresh in
             pose proof (H eq_refl) as X; clear H; decompose [and] X; clear X
         end;
  congruence.

(** X1. No word is accepted by two of the four word classifiers: the order
    in which [_tokenise_tag] asks them never decides the category. *)
Theorem classifiers_exclusive (w : str) : accepting w <= 1.
Proof.
  unfold accepting. rewrite _is_audio_tag_eq, _is_video_tag_eq.
  unfold _is_source_tag, _is_language_tag.
  fold source_words. fold language_words. rewrite !holds_ok.
  pose proof (fun H => conj (sets_disjoint audio_words video_words (lower w) eq_refl H)
                (conj (sets_disjoint audio_words source_words (lower w) eq_refl H)
                      (sets_disjoint audio_words language_words (lower w) eq_refl H)))
    as F1.
  pose proof (fun H => conj (sets_disjoint video_words source_words (lower w) eq_refl H)
                            (sets_disjoint video_words language_words (lower w) eq_refl H))
    as F2.
  pose proof (sets_disjoint source_words language_words (lower w) eq_refl) as F3.
  pose proof (fun H =>
    conj (pattern_not_in_set audio_pattern video_words w (audio_pattern_lower w) eq_refl H)
      (conj (pattern_not_in_set audio_pattern source_words w (audio_pattern_lower w) eq_refl H)
         (conj (pattern_not_in_set audio_pattern language_words w (audio_pattern_lower w) eq_refl H)
               (audio_pattern_not_video w H)))) as F4.
  pose proof (fun H =>
    conj (pattern_not_in_set resolution_pattern audio_words w (resolution_pattern_lower w) eq_refl H)
      (conj (pattern_not_in_set resolution_pattern source_words w (resolution_pattern_lower w) eq_refl H)
            (pattern_not_in_set resolution_pattern language_words w (resolution_pattern_lower w) eq_refl H)))
    as F5.
  pose proof (fun H =>
    conj (pattern_not_in_set dimensions_pattern audio_words w (dimensions_pattern_lower w) eq_refl H)
      (conj (pattern_not_in_set dimensions_pattern source_words w (dimensions_pattern_lower w) eq_refl H)
            (pattern_not_in_set dimensions_pattern language_words w (dimensions_pattern_lower w) eq_refl H)))
    as F6.
  destruct (str_in (lower w) audio_words), (audio_pattern w),
    (str_in (lower w) video_words), (resolution_pattern w), (dimensions_pattern w),
    (str_in (lower w) source_words), (str_in (lower w) language_words);
    cbn; try lia; exfalso; clash.
Qed.

Lemma count_none (c : ascii) (d : str) : ~ In c d -> count c d = 0.
Proof.
  unfold count. induction d as [|x d IH]; cbn; [reflexivity|].
  intros N. destruct (Ascii.eqb_spec c x) as [->|_].
  - exfalso; apply N; left; reflexivity.
  - apply IH. intros H; apply N; right; exact H.
Qed.

Lemma count_app (c : ascii) (a b : str) : count c (a ++ b) = count c a + count c b.
Proof. unfold count. rewrite filter_app, length_app. reflexivity. Qed.

Lemma count_cons (c x : ascii) (d : str) :
  count c (x :: d) = (if Ascii.eqb c x then 1 else 0) + count c d.
Proof. unfold count. cbn [filter]. destruct (Ascii.eqb c x); reflexivity. Qed.

Lemma isnumeric_snoc_false (d : str) (c : ascii) (b : str) :
  char_isnumeric c = false -> isnumeric (d ++ c :: b) = false.
Proof.
  intros Hc. unfold isnumeric.
  destruct (d ++ c :: b) eqn:E; [reflexivity|]. rewrite <- E.
  rewrite forallb_app. cbn. rewrite Hc, andb_false_r. reflexivity.
Qed.

(** X2. The resolution and size forms of the video classifier want the
    lower-case letter: digits followed by [p] and digits around [x] are
    video tags, the same with [P] or [X] are not. *)
Theorem video_pattern_case_sensitive (a b : str) :
  isnumeric a = true -> isnumeric b = true ->
  _is_video_tag (a ++ ["p"%char]) = Ok true
  /\ _is_video_tag (a ++ ["P"%char]) = Ok false
  /\ _is_video_tag (a ++ "x"%char :: b) = Ok true
  /\ _is_video_tag (a ++ "X"%char :: b) = Ok false.
Proof.
  intros Ha Hb.
  pose proof (isnumeric_forallb a Ha) as Fa. pose proof (isnumeric_forallb b Hb) as Fb.
  assert (Nx : forall d, forallb char_isnumeric d = true -> count "x" d = 0).
  { intros d Hd. apply count_none, numeric_text_no; [reflexivity | exact Hd]. }
  assert (R : resolution_pattern (a ++ ["p"%char]) = true).
  { unfold resolution_pattern, drop_last. rewrite removelast_last, rev_unit, Ha. reflexivity. }
  assert (D : dimensions_pattern (a ++ "x"%char :: b) = true).
  { unfold dimensions_pattern.
    assert (S : split_on "x" (a ++ "x"%char :: b) = [a; b]).
    { clear Ha R. induction a as [|y a IH]; cbn [app split_on].
      - rewrite Ascii.eqb_refl. f_equal.
        clear Hb. induction b as [|z b IHb]; [reflexivity|].
        cbn [forallb] in Fb. apply andb_true_iff in Fb. destruct Fb as [Hz Fb].
        cbn [split_on].
        destruct (Ascii.eqb_spec z "x") as [->|_]; [discriminate Hz|].
        rewrite (IHb Fb). reflexivity.
      - cbn [forallb] in Fa. apply andb_true_iff in Fa. destruct Fa as [Hy Fa].
        destruct (Ascii.eqb_spec y "x") as [->|_]; [discriminate Hy|].
        rewrite (IH Fa). reflexivity. }
    rewrite S, Ha, Hb, count_app, count_cons, (Nx a Fa), (Nx b Fb). reflexivity. }
  rewrite !_is_video_tag_eq. repeat split.
  - rewrite R, orb_true_r. reflexivity.
  - assert (L : lower (a ++ ["P"%char]) = a ++ ["p"%char]).
    { unfold lower. rewrite map_app. fold (lower a).
      rewrite (numeric_text_lower a Fa). reflexivity. }
    rewrite L.
    rewrite <- (resolution_pattern_lower _ R) at 1.
    rewrite (pattern_not_in_set resolution_pattern video_words _
               (resolution_pattern_lower _) eq_refl R).
    unfold resolution_pattern, dimensions_pattern, drop_last.
    rewrite removelast_last, rev_unit, Ha, count_app, (Nx a Fa). reflexivity.
  - rewrite D, orb_true_r. reflexivity.
  - assert (L : lower (a ++ "X"%char :: b) = a ++ "x"%char :: b).
    { unfold lower. rewrite map_app. cbn [map]. fold (lower a). fold (lower b).
      rewrite (numeric_text_lower a Fa), (numeric_text_lower b Fb). reflexivity. }
    rewrite L.
    rewrite <- (dimensions_pattern_lower _ D) at 1.
    rewrite (pattern_not_in_set dimensions_pattern video_words _
               (dimensions_pattern_lower _) eq_refl D).
    unfold resolution_pattern, dimensions_pattern.
    assert (E : isnumeric (drop_last (a ++ "X"%char :: b)) = false).
    { destruct b as [|z b]; [discriminate Hb|].
      unfold drop_last.
      replace (a ++ "X"%char :: z :: b) with ((a ++ ["X"%char]) ++ z :: b)
        by (rewrite <- app_assoc; reflexivity).
      rewrite removelast_app by discriminate.
      rewrite <- app_assoc. apply isnumeric_snoc_false. reflexivity. }
    rewrite E, count_app, count_cons, (Nx a Fa), (Nx b Fb). reflexivity.
Qed.

Lemma video_pattern_case_sensitive_witness :
  _is_video_tag (lit "1080p") = Ok true
  /\ _is_video_tag (lit "1080P") = Ok false
  /\ _is_video_tag (lit "1920x1080") = Ok true
  /\ _is_video_tag (lit "1920X1080") = Ok false.
Proof.
  pose proof (video_pattern_case_sensitive (lit "1080") (lit "1080") eq_refl eq_refl)
    as H1.
  pose proof (video_pattern_case_sensitive (lit "1920") (lit "1080") eq_refl eq_refl)
    as H2.
  exact (conj (proj1 H1) (conj (proj1 (proj2 H1)) (proj2 (proj2 H2)))).
Defined.

(** ** The shape of the result of [_tokenise] *)

(** X3. Whenever [_tokenise] returns, its tokens are the tokens of the
    bracket tags, tag by tag in the order of the tags and each tag's by its
    content alone, followed by nothing or, when the title is recognised, by
    one Title and one or two EpisodeNumbers that are not negative; title
    tokens and residual segments never come together. *)
Theorem tokenise_result_shape (string : str) (tokens : list Token)
    (to_tokenise : list str) (out : list event) :
  _tokenise string = (Ok (tokens, to_tokenise), out) ->
  exists tail,
    tokens = tags_tokens (findall TAG_PATTERN string) ++ tail
    /\ (tail = []
        \/ to_tokenise = []
           /\ exists name e,
               (0 <= e)%Z
               /\ (tail = [Title name; EpisodeNumber e]
                   \/ exists e2, (0 <= e2)%Z
                        /\ tail = [Title name; EpisodeNumber e; EpisodeNumber e2])).
Proof.
  intros H.
  destruct (_tokenise_cases string)
    as (t0 & segs & out0 & _ & -> & [[R _]|(segment & p & _ & _ & R)]);
    rewrite R in H.
  - injection H as <- _ _. exists []. rewrite app_nil_r. auto.
  - injection H as H _. apply episode_result_ok in H. destruct H as [_ [= -> ->]].
    exists (episode_tokens p). split; [reflexivity|]. right. split; [reflexivity|].
    exists (t_name p), (decimal (t_episode p)). split; [apply decimal_nonneg|].
    unfold episode_tokens. destruct (t_second p) as [[e w]|].
    + right. exists (decimal w). split; [apply decimal_nonneg | reflexivity].
    + left. reflexivity.
Qed.

Lemma tokenise_result_shape_witness :
  exists tail,
    [SubGroup (lit "OZC"); Title (lit "Show"); EpisodeNumber 5; EpisodeNumber 6] =
      tags_tokens (findall TAG_PATTERN (lit "[OZC] Show - E05+06v2 END")) ++ tail
    /\ (tail = []
        \/ @nil str = []
           /\ exists name e,
               (0 <= e)%Z
               /\ (tail = [Title name; EpisodeNumber e]
                   \/ exists e2, (0 <= e2)%Z
                        /\ tail = [Title name; EpisodeNumber e; EpisodeNumber e2])).
Proof.
  exact (tokenise_result_shape (lit "[OZC] Show - E05+06v2 END")
           [SubGroup (lit "OZC"); Title (lit "Show"); EpisodeNumber 5;
            EpisodeNumber 6] [] [] eq_refl).
Defined.

(** ** The residual segments *)

Lemma find_sub_spec (sep s a b : str) :
  find_sub sep s = Some (a, b) -> s = a ++ sep ++ b.
Proof.
  revert a; induction s as [|x s IH]; intros a.
  - cbn [find_sub]. destruct (starts_with sep []) eqn:E; [|discriminate].
    intros [= <- <-]. apply starts_with_app in E. destruct E as [t E].
    symmetry in E. apply app_eq_nil in E. destruct E as [-> ->]. reflexivity.
  - cbn [find_sub]. destruct (starts_with sep (x :: s)) eqn:E.
    + intros [= <- <-]. apply starts_with_app in E. destruct E as [t E].
      rewrite E at 1. rewrite E, skipn_app, skipn_all, Nat.sub_diag. reflexivity.
    + destruct (find_sub sep s) as [[a' b']|]; [|discriminate].
      intros [= <- <-]. rewrite (IH a' eq_refl). reflexivity.
Qed.

Lemma tag_prefix_extend (s t : str) (body after : str) :
  tag_prefix s = Some (body, after) -> tag_prefix (s ++ t) = Some (body, after ++ t).
Proof.
  intros H. apply tag_prefix_spec in H. destruct H as (-> & Hne & Hn).
  apply tag_prefix_spec. repeat split; try assumption.
  cbn [app]. rewrite <- app_assoc. reflexivity.
Qed.

Lemma findall_tag_nil_prefix (a : str) :
  forall b, findall TAG_PATTERN (a ++ b) = [] -> findall TAG_PATTERN a = [].
Proof.
  induction a as [|x a IH]; intros b; [reflexivity|].
  unfold findall.
  rewrite (findall_tag_unfold 0 ((x :: a) ++ b)), (findall_tag_unfold 0 (x :: a)).
  destruct (tag_prefix (x :: a)) as [[body after]|] eqn:E.
  - rewrite (tag_prefix_extend (x :: a) b body after E). discriminate.
  - destruct (tag_prefix ((x :: a) ++ b)) as [[body after]|]; [discriminate|].
    cbn [app]. rewrite !findall_tag_start. apply IH.
Qed.

Lemma findall_tag_pre (n : nat) :
  forall s tag tags pre post,
    length s <= n ->
    findall TAG_PATTERN s = tag :: tags ->
    find_sub tag s = Some (pre, post) ->
    findall TAG_PATTERN pre = [].
Proof.
  induction n as [|n IH]; intros s tag tags pre post Hlen H F.
  - destruct s; [discriminate H | simpl in Hlen; lia].
  - destruct (@findall_tag_cons (S n) s tag tags Hlen H) as ((body & -> & Hne & Hn) & _).
    unfold findall in H. rewrite findall_tag_unfold in H.
    destruct (tag_prefix s) as [[body' after]|] eqn:E.
    + injection H as H _. apply tag_prefix_spec in E. destruct E as (-> & _ & _).
      apply app_inj_tail in H. destruct H as [-> _].
      assert (S1 : starts_with ("["%char :: body ++ ["]"%char])
                     ("["%char :: body ++ "]"%char :: after) = true).
      { apply starts_with_app. exists after. cbn [app].
        rewrite <- app_assoc. reflexivity. }
      destruct body as [|y body]; [contradiction|].
      cbn [find_sub app] in F. cbn [app] in S1. rewrite S1 in F.
      injection F as <- _. reflexivity.
    + destruct s as [|x s]; [discriminate H|].
      rewrite findall_tag_start in H.
      cbn [find_sub] in F.
      destruct (starts_with ("["%char :: body ++ ["]"%char]) (x :: s)) eqn:S1.
      * exfalso. apply starts_with_app in S1. destruct S1 as [t S1].
        assert (E' : tag_prefix (x :: s) = Some (body, t)).
        { apply tag_prefix_spec. repeat split; auto.
          rewrite S1. cbn [app]. rewrite <- app_assoc. reflexivity. }
        congruence.
      * change (find_sub ("["%char :: body ++ ["]"%char]) s) with
          (find_sub ("["%char :: body ++ ["]"%char]) s) in F.
        destruct (find_sub ("["%char :: body ++ ["]"%char]) s) as [[pre' post']|] eqn:F';
          [|discriminate F].
        injection F as <- <-.
        assert (P : findall TAG_PATTERN pre' = []).
        { apply (IH s ("["%char :: body ++ ["]"%char]) tags pre' post');
            [simpl in Hlen; lia | exact H | exact F']. }
        unfold findall. rewrite findall_tag_unfold.
        destruct (tag_prefix (x :: pre')) as [[b1 a1]|] eqn:E1.
        -- apply find_sub_spec in F'.
           pose proof (tag_prefix_extend (x :: pre')
                         (("["%char :: body ++ ["]"%char]) ++ post') b1 a1 E1) as X.
           cbn [app] in X. cbn [app] in F'. rewrite <- F' in X. congruence.
        -- rewrite findall_tag_start. exact P.
Qed.

Lemma lstrip_suffix (s : str) : exists ws, s = ws ++ lstrip s.
Proof.
  induction s as [|c s [ws IH]]; [exists []; reflexivity|].
  cbn [lstrip]. destruct (char_isspace c).
  - exists (c :: ws). cbn [app]. rewrite <- IH. reflexivity.
  - exists []. reflexivity.
Qed.

Lemma rstrip_prefix (s : str) : exists ws, s = rstrip s ++ ws.
Proof.
  unfold rstrip. destruct (lstrip_suffix (rev s)) as [ws E].
  exists (rev ws). rewrite <- rev_app_distr, <- E, rev_involutive. reflexivity.
Qed.

Lemma nonempty_true (l : str) : nonempty l = true -> l <> [].
Proof. destruct l; [discriminate | discriminate]. Qed.

Lemma tokenise_step_segments (string tag : str) (tags : list str)
    (tokens : list Token) (to_tokenise : list str) :
  findall TAG_PATTERN string = tag :: tags ->
  Forall segment_ok to_tokenise ->
  exists string' tokens' to_tokenise' out,
    tokenise_step tag (string, tokens, to_tokenise) =
      (Ok (string', tokens', to_tokenise'), out)
    /\ findall TAG_PATTERN string' = tags
    /\ Forall segment_ok to_tokenise'
    /\ length to_tokenise' <= S (length to_tokenise).
Proof.
  intros H Ok.
  destruct (@findall_tag_cons (length string) string tag tags (le_n _) H)
    as (_ & pre & post & F & T).
  pose proof (findall_tag_pre (length string) string tag tags pre post (le_n _) H F) as P.
  unfold tokenise_step.
  destruct (classify_tag_spec string (strip_ends tag) tokens) as [out ->].
  rewrite bind_ok. cbn [fst snd].
  unfold split_max1. rewrite F. cbn [unpack2 lift bind fst snd].
  do 4 eexists. split; [reflexivity|].
  split; [rewrite findall_tag_lstrip; exact T|].
  destruct (nonempty (rstrip pre)) eqn:N.
  - split; [|rewrite length_app; simpl; lia].
    apply Forall_app. split; [exact Ok|]. constructor; [|constructor].
    split; [apply nonempty_true; exact N|].
    destruct (rstrip_prefix pre) as [ws E]. rewrite E in P.
    exact (findall_tag_nil_prefix _ _ P).
  - split; [exact Ok | lia].
Qed.

Lemma tokenise_loop_segments (tags : list str) :
  forall string tokens to_tokenise,
    findall TAG_PATTERN string = tags ->
    Forall segment_ok to_tokenise ->
    exists string' tokens' to_tokenise' out,
      tokenise_loop tags (string, tokens, to_tokenise) =
        (Ok (string', tokens', to_tokenise'), out)
      /\ findall TAG_PATTERN string' = []
      /\ Forall segment_ok to_tokenise'
      /\ length to_tokenise' <= length tags + length to_tokenise.
Proof.
  induction tags as [|tag tags IH]; intros string tokens to_tokenise H Ok.
  - do 4 eexists. split; [reflexivity|]. auto.
  - destruct (tokenise_step_segments string tag tags tokens to_tokenise H Ok)
      as (s1 & t1 & tt1 & out1 & E & H1 & Ok1 & L1).
    cbn [tokenise_loop]. rewrite E, bind_ok. cbn [fst snd].
    destruct (IH s1 t1 tt1 H1 Ok1) as (s2 & t2 & tt2 & out2 & -> & H2 & Ok2 & L2).
    do 4 eexists. split; [reflexivity|]. cbn [fst snd length].
    repeat split; [exact H2 | exact Ok2 | lia].
Qed.

Lemma extract_tags_segments (string : str) :
  exists tokens to_tokenise out,
    extract_tags string = (Ok (tokens, to_tokenise), out)
    /\ Forall segment_ok to_tokenise
    /\ length to_tokenise <= S (length (findall TAG_PATTERN string)).
Proof.
  unfold extract_tags.
  destruct (tokenise_loop_segments (findall TAG_PATTERN string) string [] []
              eq_refl (Forall_nil _))
    as (s1 & t1 & tt1 & out1 & -> & H1 & Ok1 & L1).
  rewrite !bind_ok. cbn [fst snd ret]. cbn [length] in L1.
  do 3 eexists. split; [reflexivity|].
  destruct (nonempty s1) eqn:N.
  - split; [|rewrite length_app; simpl; lia].
    apply Forall_app. split; [exact Ok1|]. constructor; [|constructor].
    split; [apply nonempty_true; exact N | exact H1].
  - split; [exact Ok1 | lia].
Qed.

(** X4. Every residual segment [_tokenise] returns is non-empty and holds no
    bracket tag, and there is at most one more segment than there are
    tags. *)
Theorem residual_segments_invariant (string : str) (tokens : list Token)
    (to_tokenise : list str) (out : list event) :
  _tokenise string = (Ok (tokens, to_tokenise), out) ->
  Forall segment_ok to_tokenise
  /\ length to_tokenise <= S (length (findall TAG_PATTERN string)).
Proof.
  intros H.
  destruct (extract_tags_segments string) as (t1 & segs1 & out1 & E1 & F & L).
  destruct (_tokenise_cases string)
    as (t0 & segs & out0 & E & _ & [[R _]|(segment & p & _ & _ & R)]);
    rewrite R in H.
  - rewrite E1 in E. injection E as -> -> ->. injection H as _ <- _. auto.
  - injection H as H _. apply episode_result_ok in H. destruct H as [_ [= _ ->]].
    split; [constructor | cbn; lia].
Qed.

Lemma residual_segments_invariant_witness :
  Forall segment_ok [lit "Show"; lit "extra"]
  /\ length [lit "Show"; lit "extra"]
     <= S (length (findall TAG_PATTERN (lit "[FFF] Show [720p] extra"))).
Proof.
  exact (residual_segments_invariant (lit "[FFF] Show [720p] extra")
           [SubGroup (lit "FFF"); VideoQuality (lit "720p")]
           [lit "Show"; lit "extra"] [] eq_refl).
Defined.

(** ** Noise tags *)

Lemma is_noise_version (d : ascii) (rest : str) :
  char_isdecimal d = true -> is_noise ("v"%char :: d :: rest) = true.
Proof.
  intros H. unfold is_noise.
  assert (V : is_some (re_match VERSION_PATTERN ("v"%char :: d :: rest)) = true).
  { unfold re_match, VERSION_PATTERN, Digit. cbn [Seqs].
    rewrite run_seq, run_char. cbn. rewrite H. reflexivity. }
  rewrite V, orb_true_r. reflexivity.
Qed.

Lemma is_noise_disc (d : ascii) (rest : str) :
  char_isdecimal d = true -> is_noise (lit "Disc " ++ d :: rest) = true.
Proof.
  intros H. unfold is_noise.
  assert (V : is_some (re_match DISC_PATTERN (lit "Disc " ++ d :: rest)) = true).
  { unfold re_match, DISC_PATTERN, Digit. cbn. rewrite H. reflexivity. }
  rewrite V. reflexivity.
Qed.

(** X5. A tag whose content begins with [v<digit>] or [Disc <digit>] is
    dropped whole, whatever follows the digit: no token, no split and no
    report. *)
Theorem noise_prefix_dropped (string rest : str) (d : ascii)
    (tokens : list Token) :
  char_isdecimal d = true ->
  classify_tag string ("v"%char :: d :: rest) tokens = (Ok tokens, [])
  /\ classify_tag string (lit "Disc " ++ d :: rest) tokens = (Ok tokens, []).
Proof.
  intros H. unfold classify_tag. split.
  - replace (str_in ("v"%char :: d :: rest) KNOWN_GROUPS) with false by reflexivity.
    replace (is_hash ("v"%char :: d :: rest)) with false
      by (symmetry; apply andb_false_intro2; reflexivity).
    replace (str_eqb ("v"%char :: d :: rest) (lit "Multiple Subtitle")) with false
      by reflexivity.
    replace (str_eqb ("v"%char :: d :: rest) (lit "Dual Audio")) with false
      by reflexivity.
    rewrite (is_noise_version d rest H). reflexivity.
  - replace (str_in (lit "Disc " ++ d :: rest) KNOWN_GROUPS) with false by reflexivity.
    replace (is_hash (lit "Disc " ++ d :: rest)) with false
      by (symmetry; apply andb_false_intro2; reflexivity).
    replace (str_eqb (lit "Disc " ++ d :: rest) (lit "Multiple Subtitle")) with false
      by reflexivity.
    replace (str_eqb (lit "Disc " ++ d :: rest) (lit "Dual Audio")) with false
      by reflexivity.
    rewrite (is_noise_disc d rest H). reflexivity.
Qed.

Lemma noise_prefix_dropped_witness :
  classify_tag (lit "[v2 BD 1080p]") (lit "v2 BD 1080p") [] = (Ok [], [])
  /\ classify_tag (lit "[Disc 1 BD]") (lit "Disc 1 BD") [] = (Ok [], []).
Proof.
  exact (conj (proj1 (noise_prefix_dropped (lit "[v2 BD 1080p]") (lit " BD 1080p") "2"
                        [] eq_refl))
              (proj2 (noise_prefix_dropped (lit "[Disc 1 BD]") (lit " BD") "1"
                        [] eq_refl))).
Defined.

(** ** Tokens already collected do not change what comes after *)

Lemma bind_mapM {A B C} (f : A -> B) (m : M A) (k : B -> M C) :
  bind (mapM f m) k = bind m (fun a => k (f a)).
Proof. destruct m as [[a|e] out]; reflexivity. Qed.

Lemma mapM_bind {A B C} (f : B -> C) (m : M A) (k : A -> M B) :
  mapM f (bind m k) = bind m (fun a => mapM f (k a)).
Proof.
  destruct m as [[a|e] out]; [|reflexivity].
  cbn. destruct (k a) as [[b|e] out']; reflexivity.
Qed.

Lemma split_attempts_prepend (value : str) (pre : list Token) (chars : list ascii) :
  forall tokens failures,
    split_attempts value chars (pre ++ tokens) failures =
      mapM (fun r => let '(t, b, f) := r in (pre ++ t, b, f))
           (split_attempts value chars tokens failures).
Proof.
  induction chars as [|c chars IH]; intros tokens failures; [reflexivity|].
  cbn [split_attempts]. unfold try_except_RuntimeError.
  destruct (_tokenise_tag (split_on c value)) as [[new|e] out].
  - cbn. rewrite app_assoc. reflexivity.
  - destruct e; try reflexivity.
    rewrite IH, mapM_bind. reflexivity.
Qed.

Lemma split_and_classify_prepend (string value : str) (pre tokens : list Token) :
  split_and_classify string value (pre ++ tokens) =
    mapM (app pre) (split_and_classify string value tokens).
Proof.
  unfold split_and_classify. rewrite split_attempts_prepend.
  destruct (split_attempts value delimiters tokens []) as [[[[t b] f]|e] out];
    [|reflexivity].
  destruct b; reflexivity.
Qed.

Lemma classify_tag_prepend (string value : str) (pre tokens : list Token) :
  classify_tag string value (pre ++ tokens) =
    mapM (app pre) (classify_tag string value tokens).
Proof.
  unfold classify_tag.
  repeat match goal with
         | |- context [if ?b then _ else _] => destruct b
         end;
    try (cbn; rewrite <- ?app_assoc; reflexivity).
  apply split_and_classify_prepend.
Qed.

Lemma tokenise_step_prepend (tag string : str) (pre tokens : list Token)
    (to_tokenise : list str) :
  tokenise_step tag (string, pre ++ tokens, to_tokenise) =
    mapM (fun st : loop_state => let '(s, t, r) := st in (s, pre ++ t, r))
         (tokenise_step tag (string, tokens, to_tokenise)).
Proof.
  unfold tokenise_step. rewrite classify_tag_prepend.
  destruct (classify_tag string (strip_ends tag) tokens) as [[t|e] out];
    [|reflexivity].
  cbn [mapM]. rewrite !bind_ok. cbn [fst snd].
  destruct (unpack2 (split_max1 tag string)) as [[a b]|e]; reflexivity.
Qed.

Lemma tokenise_loop_prepend (pre : list Token) (tags : list str) :
  forall string tokens to_tokenise,
    tokenise_loop tags (string, pre ++ tokens, to_tokenise) =
      mapM (fun st : loop_state => let '(s, t, r) := st in (s, pre ++ t, r))
           (tokenise_loop tags (string, tokens, to_tokenise)).
Proof.
  induction tags as [|tag tags IH]; intros string tokens to_tokenise; [reflexivity|].
  cbn [tokenise_loop]. rewrite tokenise_step_prepend.
  destruct (tokenise_step tag (string, tokens, to_tokenise)) as [[[[s t] tt]|e] out];
    [|reflexivity].
  cbn [mapM]. rewrite !bind_ok, IH. cbn [fst snd].
  destruct (tokenise_loop tags (s, t, tt)) as [[[[s' t'] tt']|e] out']; reflexivity.
Qed.

Lemma title_episode_prepend (pre tokens : list Token) (to_tokenise : list str) :
  title_episode (pre ++ tokens) to_tokenise =
    mapM (fun r : list Token * list str => let (t, segs) := r in (pre ++ t, segs))
         (title_episode tokens to_tokenise).
Proof.
  destruct (title_episode_cases tokens to_tokenise) as [E|(segment & p & -> & Hs & E)].
  - rewrite E. cbn [mapM].
    destruct (title_episode_cases (pre ++ tokens) to_tokenise)
      as [E'|(segment & p & -> & Hs & E')]; [exact E'|].
    rewrite (@title_episode_match tokens segment p Hs) in E. injection E as E.
    apply episode_result_ok in E. destruct E as [_ E]. discriminate E.
  - rewrite E, (@title_episode_match (pre ++ tokens) segment p Hs).
    unfold episode_result. destruct (episodes_short p); cbn [mapM];
      rewrite ?app_assoc; reflexivity.
Qed.

Lemma findall_tag_leading (body rest : str) :
  body <> [] -> ~ In "]"%char body ->
  findall TAG_PATTERN (("["%char :: body ++ ["]"%char]) ++ rest) =
    ("["%char :: body ++ ["]"%char]) :: findall TAG_PATTERN rest.
Proof.
  intros Hne Hn. unfold findall at 1. rewrite findall_tag_unfold.
  assert (E : tag_prefix (("["%char :: body ++ ["]"%char]) ++ rest) = Some (body, rest)).
  { apply tag_prefix_spec. repeat split; auto.
    cbn [app]. rewrite <- app_assoc. reflexivity. }
  rewrite E, findall_tag_start. reflexivity.
Qed.

Lemma strip_ends_tag (body : str) :
  strip_ends ("["%char :: body ++ ["]"%char]) = body.
Proof. unfold strip_ends. cbn [tl]. apply removelast_last. Qed.

Lemma find_sub_leading (tag rest : str) :
  find_sub tag (tag ++ rest) = Some ([], rest).
Proof.
  assert (S1 : starts_with tag (tag ++ rest) = true)
    by (apply starts_with_app; eauto).
  destruct (tag ++ rest) as [|x l] eqn:E; cbn [find_sub]; rewrite S1;
    rewrite <- E, skipn_app, skipn_all, Nat.sub_diag; reflexivity.
Qed.

(** X6. A bracket tag at the start of a filename gives the tokens of its
    content and nothing else: what [_tokenise] does with the filename is
    what it does with the rest of the filename, blanks after the tag left
    out, tokenised on its own, with the tokens of the tag put first and
    what the tag prints printed first; when the rest raises, so does the
    filename. *)
Theorem leading_tag_peels (body rest : str) :
  body <> [] -> ~ In "]"%char body ->
  exists out1,
    _tokenise (("["%char :: body ++ ["]"%char]) ++ rest) =
      (match fst (_tokenise (lstrip rest)) with
       | Ok (tokens, to_tokenise) => Ok (tag_tokens body ++ tokens, to_tokenise)
       | Raise e => Raise e
       end, out1 ++ snd (_tokenise (lstrip rest))).
Proof.
  intros Hne Hn.
  set (tag := "["%char :: body ++ ["]"%char]).
  destruct (classify_tag_spec (tag ++ rest) body []) as [out1 E1].
  exists out1.
  unfold _tokenise, extract_tags.
  pose proof (findall_tag_leading body rest Hne Hn) as FL. fold tag in FL.
  pose proof (strip_ends_tag body) as SE. fold tag in SE.
  rewrite FL. cbn [tokenise_loop]. unfold tokenise_step at 1.
  rewrite SE, E1, bind_ok. cbn [fst snd].
  unfold split_max1. rewrite find_sub_leading. cbn [unpack2].
  rewrite bind_lift_ok. cbn [fst snd ret rstrip rev lstrip nonempty app].
  assert (LP : tokenise_loop (findall TAG_PATTERN rest)
                 (lstrip rest, tag_tokens body, []) =
               mapM (fun st : loop_state =>
                       let '(s, t, r) := st in (s, tag_tokens body ++ t, r))
                    (tokenise_loop (findall TAG_PATTERN rest) (lstrip rest, [], []))).
  { rewrite <- (app_nil_r (tag_tokens body)) at 1. apply tokenise_loop_prepend. }
  rewrite bind_ok. cbn [fst snd]. rewrite LP, findall_tag_lstrip.
  destruct (tokenise_loop (findall TAG_PATTERN rest) (lstrip rest, [], []))
    as [[[[s t] segs]|e] out'] eqn:L; cbn [mapM fst snd];
    [|cbn; rewrite !app_nil_r; reflexivity].
  rewrite !bind_ok. cbn [fst snd ret]. rewrite ?bind_ok. cbn [fst snd].
  rewrite title_episode_prepend.
  destruct (title_episode t (if nonempty s then segs ++ [s] else segs))
    as [[[t2 tt2]|e] o2]; cbn [mapM fst snd];
    rewrite !app_nil_r, <- ?app_assoc; reflexivity.
Qed.

Lemma leading_tag_peels_witness :
  exists out1,
    _tokenise (lit "[FFF]  Show - 05 [720p]") =
      (match fst (_tokenise (lstrip (lit "  Show - 05 [720p]"))) with
       | Ok (tokens, to_tokenise) => Ok ([SubGroup (lit "FFF")] ++ tokens, to_tokenise)
       | Raise e => Raise e
       end, out1 ++ snd (_tokenise (lstrip (lit "  Show - 05 [720p]")))).
Proof.
  exact (leading_tag_peels (lit "FFF") (lit "  Show - 05 [720p]")
           ltac:(discriminate)
           ltac:(cbn; intros [H|[H|[H|[]]]]; discriminate H)).
Defined.

(** ** Equality and hash of tokens *)

(** X7. [Token.__eq__] holds exactly between tokens of the same class with
    the same value, and tokens that are equal have the same hash. *)
Theorem token_eq_and_hash (hash : pyvalue -> Z) (a b : Token) :
  (Token___eq__ a b = true <-> a = b)
  /\ (Token___eq__ a b = true -> Token___hash__ hash a = Token___hash__ hash b).
Proof.
  assert (E : Token___eq__ a b = true <-> a = b).
  { unfold Token___eq__, isinstance.
    destruct a, b; cbn; try (split; [discriminate | congruence]);
      try (rewrite str_eqb_eq; split; congruence).
    rewrite Z.eqb_eq; split; congruence. }
  split; [exact E|]. intros H. apply E in H. subst. reflexivity.
Qed.

(** ** [skip] *)

Lemma split_on_join (c : ascii) (a b : str) :
  ~ In c a -> ~ In c b -> split_on c (a ++ c :: b) = [a; b].
Proof.
  intros Na Nb.
  assert (B : split_on c b = [b]).
  { clear Na. induction b as [|x b IH]; [reflexivity|]. cbn [split_on].
    destruct (Ascii.eqb_spec x c) as [->|_]; [exfalso; apply Nb; left; reflexivity|].
    rewrite IH; [reflexivity|]. intros H; apply Nb; right; exact H. }
  induction a as [|x a IH]; cbn [app split_on].
  - rewrite Ascii.eqb_refl, B. reflexivity.
  - destruct (Ascii.eqb_spec x c) as [->|_]; [exfalso; apply Na; left; reflexivity|].
    rewrite IH; [reflexivity|]. intros H; apply Na; right; exact H.
Qed.

Lemma video_type_split (sub : str) :
  ~ In "/"%char sub ->
  split_on "/" (lit "video/" ++ sub) = [lit "video"; sub].
Proof.
  intros N. change (lit "video/" ++ sub) with (lit "video" ++ "/"%char :: sub).
  apply split_on_join; [|exact N].
  cbn. intros [H|[H|[H|[H|[H|[]]]]]]; discriminate H.
Qed.

(** X8. When a type is guessed for the name, [skip] answers [False] exactly
    for the types [video/<subtype>], and it raises [ValueError] exactly when
    the type has not one [/]; with no type guessed it answers [True]. *)
Theorem skip_by_guessed_type (guess_type : str -> option str) (string : str) :
  match guess_type string with
  | None => skip guess_type string = Ok true
  | Some t =>
      (skip guess_type string = Ok false <->
       exists sub, t = lit "video/" ++ sub /\ ~ In "/"%char sub)
      /\ (skip guess_type string = Raise ValueError <-> count "/" t <> 1)
  end.
Proof.
  unfold skip. destruct (guess_type string) as [t|]; [|reflexivity].
  pose proof (split_on_length "/" t) as L.
  destruct (split_on "/" t) as [|main [|sub [|x l]]] eqn:S; cbn [unpack2 rbind].
  - discriminate L.
  - split; split;
      [discriminate
      |intros (sub & -> & N); rewrite (video_type_split sub N) in S; discriminate S
      |intros _; cbn in L; lia
      |reflexivity].
  - destruct (split_on_two "/" t main sub S) as (-> & Nm & Ns).
    split; split.
    + intros [= H]. apply negb_false_iff, str_eqb_eq in H. subst main.
      exists sub. split; [reflexivity | exact Ns].
    + intros (sub' & E & N).
      pose proof (video_type_split sub' N) as S'.
      rewrite <- E, S in S'. injection S' as -> _. reflexivity.
    + discriminate.
    + intros H. exfalso. apply H. cbn in L. lia.
  - split; split;
      [discriminate
      |intros (sub' & -> & N); rewrite (video_type_split sub' N) in S; discriminate S
      |intros _; cbn in L; lia
      |reflexivity].
Qed.

(** ** nyaa.py *)

Lemma category_lookup_aux (c : Nyaa.Category) :
  Nyaa.Category_call (Nyaa.Category_value c) = Ok c.
Proof. destruct c; reflexivity. Qed.

(** X9. [Category(value)] returns the member whose value is [value], and
    only for the values of members: looking up [str(c)] gives [c] back, no
    two members share a value, and any other text raises [ValueError]. *)
Theorem category_lookup (value : str) :
  (forall c, Nyaa.Category_call value = Ok c <-> value = Nyaa.Category___str__ c)
  /\ (Nyaa.Category_call value = Raise ValueError <->
      forall c, value <> Nyaa.Category___str__ c).
Proof.
  unfold Nyaa.Category___str__.
  assert (F : forall c, Nyaa.Category_call value = Ok c -> value = Nyaa.Category_value c).
  { intros c. unfold Nyaa.Category_call.
    destruct (find _ Nyaa.Category_members) as [c0|] eqn:F; [|discriminate].
    intros [= ->]. apply find_some in F. destruct F as [_ F].
    apply str_eqb_eq in F. congruence. }
  split.
  - intros c. split; [apply F|]. intros ->. apply category_lookup_aux.
  - split.
    + intros E c ->. rewrite category_lookup_aux in E. discriminate E.
    + intros N. unfold Nyaa.Category_call in F |- *.
      destruct (find _ Nyaa.Category_members) as [c0|]; [|reflexivity].
      destruct (N c0 (F c0 eq_refl)).
Qed.

Lemma rsplit_last (c : ascii) (a b : str) :
  ~ In c b -> Nyaa.rsplit_max1 c (a ++ c :: b) = [a; b].
Proof.
  intros N. unfold Nyaa.rsplit_max1.
  assert (E : until c (rev (a ++ c :: b)) = Some (rev b, rev a)).
  { apply until_spec. split.
    - rewrite rev_app_distr. cbn [rev]. rewrite <- app_assoc. reflexivity.
    - intros H. apply N, in_rev. exact H. }
  rewrite E, !rev_involutive. reflexivity.
Qed.

(** X10. [Guid.id] is the number written after the last [/] of the link,
    whatever comes before it, when that number has at most 4300 digits; with
    more digits, and for a link that ends in [/], it raises [ValueError]. *)
Theorem guid_id_last_segment (before : str) (permalink : bool) :
  (forall ds, digits ds ->
     Nyaa.Guid_id (Nyaa.MkGuid (before ++ "/"%char :: ds) permalink)
       = if length ds <=? int_max_str_digits then Ok (decimal ds)
         else Raise ValueError)
  /\ Nyaa.Guid_id (Nyaa.MkGuid (before ++ ["/"%char]) permalink) = Raise ValueError.
Proof.
  unfold Nyaa.Guid_id. cbn [Nyaa.Guid_link]. split.
  - intros ds D. rewrite rsplit_last.
    + cbn [Nyaa.getitem_last rev app rbind]. apply int_digits. exact D.
    + destruct D as [_ Hd]. intros H.
      rewrite forallb_forall in Hd. specialize (Hd _ H). discriminate Hd.
  - rewrite rsplit_last by (intros []). reflexivity.
Qed.

Lemma guid_id_last_segment_witness :
  Nyaa.Guid_id (Nyaa.MkGuid (lit "https://nyaa.si/view/1234567") true) = Ok 1234567%Z.
Proof.
  refine (proj1 (guid_id_last_segment (lit "https://nyaa.si/view") true)
            (lit "1234567") _).
  split; [discriminate | reflexivity].
Defined.

Lemma option_eq_spec {A} (eq : A -> A -> bool) :
  (forall x y, eq x y = true <-> x = y) ->
  forall a b, Nyaa.option_eq eq a b = true <-> a = b.
Proof.
  intros H [x|] [y|]; cbn; try (split; [discriminate | congruence]).
  - rewrite H. split; congruence.
  - tauto.
Qed.

Lemma category_value_injective (a b : Nyaa.Category) :
  Nyaa.Category_value a = Nyaa.Category_value b -> a = b.
Proof.
  intros E. pose proof (category_lookup_aux a) as R.
  rewrite E, (category_lookup_aux b) in R. congruence.
Qed.

(** X11. [Result.__eq__] holds exactly when the two results agree on title,
    link, guid, published, info_hash, category, size, comments, trusted and
    remake: seeders, leechers and downloads are never looked at. *)
Theorem result_eq_ignores_counters (datetime : Type)
    (datetime_eq : datetime -> datetime -> bool)
    (a b : Nyaa.Result datetime) :
  (forall x y, datetime_eq x y = true <-> x = y) ->
  (Nyaa.Result___eq__ datetime_eq a b = true <->
   Nyaa.title a = Nyaa.title b /\ Nyaa.link a = Nyaa.link b
   /\ Nyaa.guid a = Nyaa.guid b /\ Nyaa.published a = Nyaa.published b
   /\ Nyaa.info_hash a = Nyaa.info_hash b /\ Nyaa.category a = Nyaa.category b
   /\ Nyaa.size a = Nyaa.size b /\ Nyaa.comments a = Nyaa.comments b
   /\ Nyaa.trusted a = Nyaa.trusted b /\ Nyaa.remake a = Nyaa.remake b).
Proof.
  intros D. unfold Nyaa.Result___eq__, Nyaa.Guid___eq__.
  rewrite !andb_true_iff, !str_eqb_eq, D, Z.eqb_eq, !Bool.eqb_true_iff,
    (option_eq_spec str_eqb str_eqb_eq).
  split.
  - intros (((((((((T & L) & (G1 & G2)) & P) & I) & C) & S1) & Cm) & Tr) & Rm).
    repeat split; try assumption.
    + destruct (Nyaa.guid a), (Nyaa.guid b); cbn in *; congruence.
    + apply category_value_injective; exact C.
  - intros (T & L & G & P & I & C & S1 & Cm & Tr & Rm).
    rewrite G, C. repeat split; assumption.
Qed.

(** ** The values of the tokens *)

Lemma holds_true (r : result bool) : holds r = true -> r = Ok true.
Proof. destruct r as [[|]|e]; cbn; congruence. Qed.

Lemma first_category_valid (w : str) (t : Token) :
  first_category w = Some t -> token_valid t.
Proof.
  unfold first_category.
  destruct (holds (_is_audio_tag w)) eqn:A;
    [intros [= <-]; exact (holds_true _ A)|].
  destruct (holds (_is_video_tag w)) eqn:V;
    [intros [= <-]; exact (holds_true _ V)|].
  destruct (holds (_is_source_tag w)) eqn:S1;
    [intros [= <-]; exact (holds_true _ S1)|].
  destruct (holds (_is_language_tag w)) eqn:L; [|discriminate].
  intros [= <-]. right; right. exact (holds_true _ L).
Qed.

Lemma tokens_of_valid (words : list str) : Forall token_valid (tokens_of words).
Proof.
  unfold tokens_of. induction words as [|w l IH]; cbn [flat_map]; [constructor|].
  apply Forall_app. split; [|exact IH].
  destruct (first_category w) as [t|] eqn:E; [|constructor].
  constructor; [exact (first_category_valid w t E) | constructor].
Qed.

Lemma tag_tokens_valid (value : str) : Forall token_valid (tag_tokens value).
Proof.
  unfold tag_tokens.
  destruct (str_in value KNOWN_GROUPS) eqn:K; [repeat constructor; exact K|].
  destruct (is_hash value) eqn:H.
  { repeat constructor.
    - unfold is_hash in H. apply andb_true_iff in H. destruct H as [H _].
      apply Nat.eqb_eq. exact H.
    - pose proof H as H0. unfold is_hash in H. apply andb_true_iff in H.
      destruct H as [L _]. apply Nat.eqb_eq in L.
      rewrite <- (is_hash_iff value L). exact H0. }
  destruct (str_eqb value (lit "Multiple Subtitle")).
  { constructor; [left; reflexivity|].
    constructor; [right; reflexivity | constructor]. }
  destruct (str_eqb value (lit "Dual Audio")).
  { constructor; [left; reflexivity|].
    constructor; [right; left; reflexivity | constructor]. }
  destruct (is_noise value); [constructor|].
  destruct (find _ delimiters); [apply tokens_of_valid | constructor].
Qed.

Lemma tags_tokens_valid (tags : list str) : Forall token_valid (tags_tokens tags).
Proof.
  unfold tags_tokens. induction tags as [|t tags IH]; cbn [flat_map]; [constructor|].
  apply Forall_app. split; [apply tag_tokens_valid | exact IH].
Qed.

(** X12. Every token [_tokenise] returns carries a value fit for its class:
    a SubGroup is a known group, a Hash has eight hexadecimal characters,
    an AudioQuality, VideoQuality or Source word is accepted by its
    classifier, an AudioLanguage is EN, JP or a language word, a
    SubtitlesLanguage is Multiple or EN, a Title is a non-empty one-line
    text and an EpisodeNumber is not negative. *)
Theorem tokens_are_valid (string : str) (tokens : list Token)
    (to_tokenise : list str) (out : list event) :
  _tokenise string = (Ok (tokens, to_tokenise), out) ->
  Forall token_valid tokens.
Proof.
  intros H.
  pose proof (tags_tokens_valid (findall TAG_PATTERN string)) as V.
  destruct (_tokenise_cases string)
    as (t0 & segs & out0 & _ & -> & [[R _]|(segment & p & _ & [W _] & R)]);
    rewrite R in H.
  - injection H as <- _ _. exact V.
  - injection H as H _. apply episode_result_ok in H. destruct H as [_ [= -> _]].
    apply Forall_app. split; [exact V|].
    destruct W as (N1 & N2 & _). unfold episode_tokens.
    repeat constructor; try assumption; try apply decimal_nonneg.
    destruct (t_second p) as [[e w]|]; repeat constructor. apply decimal_nonneg.
Qed.

Lemma tokens_are_valid_witness :
  Forall token_valid
    [SubGroup (lit "FFF"); Hash (lit "1A2B3C4D"); Source (lit "BD");
     VideoQuality (lit "1080p"); Title (lit "Show"); EpisodeNumber 12].
Proof.
  exact (tokens_are_valid (lit "[FFF] Show - 12 [1A2B3C4D][BD 1080p]") _ [] []
           eq_refl).
Defined.

(** X13. A split with an empty word among its words is never classified:
    [_tokenise_tag] raises, with that empty word among the ones it
    reports. *)
Theorem empty_word_unclassified (words : list str) :
  In [] words ->
  exists unclassified out,
    _tokenise_tag words = (Raise (RuntimeError unclassified), out)
    /\ In [] unclassified.
Proof.
  intros H. rewrite _tokenise_tag_spec.
  assert (U : In [] (unclassified_of words)).
  { unfold unclassified_of. apply filter_In. split; [exact H | reflexivity]. }
  destruct (unclassified_of words) as [|u us]; [destruct U|].
  do 2 eexists. split; [reflexivity | exact U].
Qed.

Lemma empty_word_unclassified_witness :
  exists unclassified out,
    _tokenise_tag (split_on "," (lit "BD,,1080p")) =
      (Raise (RuntimeError unclassified), out)
    /\ In [] unclassified.
Proof.
  exact (empty_word_unclassified (split_on "," (lit "BD,,1080p"))
           (or_intror (or_introl eq_refl))).
Defined.

Lemma result_eq_ignores_counters_witness :
  Nyaa.Result___eq__ Z.eqb
    (Nyaa.MkResult (lit "Show - 05") (lit "https://nyaa.si/download/1.torrent")
       (Nyaa.MkGuid (lit "https://nyaa.si/view/1") true) 1500000000%Z
       10%Z 2%Z (Some 300%Z) (Some (lit "abcdef")) Nyaa.ANIME_ENGLISH_TRANSLATED
       (lit "300 MiB") 0%Z true false)
    (Nyaa.MkResult (lit "Show - 05") (lit "https://nyaa.si/download/1.torrent")
       (Nyaa.MkGuid (lit "https://nyaa.si/view/1") true) 1500000000%Z
       99%Z 0%Z None (Some (lit "abcdef")) Nyaa.ANIME_ENGLISH_TRANSLATED
       (lit "300 MiB") 0%Z true false)
  = true.
Proof.
  apply (proj2 (result_eq_ignores_counters Z Z.eqb _ _ Z.eqb_eq)).
  cbn. repeat split; reflexivity.
Defined.

(** ** The case of the letters *)

Lemma isnumeric_char_lower (c : ascii) :
  char_isnumeric (char_lower c) = char_isnumeric c.
Proof. destruct c as [[] [] [] [] [] [] [] []]; vm_compute; reflexivity. Qed.

Lemma dot_char_lower (c : ascii) : Ascii.eqb (char_lower c) "." = Ascii.eqb c ".".
Proof. destruct c as [[] [] [] [] [] [] [] []]; vm_compute; reflexivity. Qed.

Lemma audio_pattern_of_lower (w : str) : audio_pattern (lower w) = audio_pattern w.
Proof.
  destruct w as [|a [|b [|c [|d w]]]]; try reflexivity.
  cbn [lower map audio_pattern].
  rewrite !isnumeric_char_lower, dot_char_lower. reflexivity.
Qed.

(** X14. The audio, source and language classifiers do not look at the case
    of the letters: two words that are the same in lower case get the same
    answer from each of them. *)
Theorem classifiers_ignore_case (w1 w2 : str) :
  lower w1 = lower w2 ->
  _is_audio_tag w1 = _is_audio_tag w2
  /\ _is_source_tag w1 = _is_source_tag w2
  /\ _is_language_tag w1 = _is_language_tag w2.
Proof.
  intros E. rewrite !_is_audio_tag_eq. unfold _is_source_tag, _is_language_tag.
  rewrite <- (audio_pattern_of_lower w1), <- (audio_pattern_of_lower w2), E.
  repeat split; reflexivity.
Qed.

Lemma classifiers_ignore_case_witness :
  _is_audio_tag (lit "Flac") = _is_audio_tag (lit "FLAC")
  /\ _is_source_tag (lit "Flac") = _is_source_tag (lit "FLAC")
  /\ _is_language_tag (lit "Flac") = _is_language_tag (lit "FLAC").
Proof.
  exact (classifiers_ignore_case (lit "Flac") (lit "FLAC") eq_refl).
Defined.

(** ** The words and their tokens *)

Lemma first_category_value (w : str) (t : Token) :
  first_category w = Some t -> value_of t = PyStr w.
Proof.
  unfold first_category.
  destruct (holds (_is_audio_tag w)); [intros [= <-]; reflexivity|].
  destruct (holds (_is_video_tag w)); [intros [= <-]; reflexivity|].
  destruct (holds (_is_source_tag w)); [intros [= <-]; reflexivity|].
  destruct (holds (_is_language_tag w)); [intros [= <-]; reflexivity|].
  discriminate.
Qed.

Lemma tokens_of_values (words : list str) :
  unclassified_of words = [] -> map value_of (tokens_of words) = map PyStr words.
Proof.
  unfold unclassified_of, tokens_of.
  induction words as [|w l IH]; [reflexivity|]. cbn [filter flat_map map].
  destruct (first_category w) as [t|] eqn:E; cbn [is_some negb]; [|discriminate].
  intros U. cbn [app map]. rewrite (first_category_value w t E), (IH U).
  reflexivity.
Qed.

(** X15. When [_tokenise_tag] returns, it returns one token for each word,
    in the order of the words, and the value of each token is its word as
    written. *)
Theorem tokenise_tag_keeps_words (words : list str) (tokens : list Token)
    (out : list event) :
  _tokenise_tag words = (Ok tokens, out) ->
  map value_of tokens = map PyStr words.
Proof.
  rewrite _tokenise_tag_spec.
  destruct (unclassified_of words) as [|u us] eqn:U; [|discriminate].
  intros [= <- _]. apply tokens_of_values. exact U.
Qed.

Lemma tokenise_tag_keeps_words_witness :
  map value_of [Source (lit "BD"); VideoQuality (lit "1080p")]
  = map PyStr [lit "BD"; lit "1080p"].
Proof.
  exact (tokenise_tag_keeps_words [lit "BD"; lit "1080p"]
           [Source (lit "BD"); VideoQuality (lit "1080p")] [] eq_refl).
Defined.

(** ** What [is_anime] wants *)

(** X16. [is_anime] accepts no filename without an opening bracket, a
    closing bracket, a dot and a space. *)
Theorem is_anime_needs (s : str) :
  is_anime s = true ->
  In "["%char s /\ In "]"%char s /\ In "."%char s /\ In " "%char s.
Proof.
  intros H. apply is_anime_iff in H.
  destruct H as [(g & name & tags & ext & -> & _ & _ & _ & T & F & _ & _) Sp].
  destruct tags as [|t tags]; [congruence|].
  apply Forall_inv in F. destruct F as (b & -> & _ & _).
  repeat split; try exact Sp; rewrite !in_app_iff; right; right.
  - left. cbn [concat]. apply in_app_iff. left. left. reflexivity.
  - left. cbn [concat]. apply in_app_iff. left. right.
    apply in_app_iff. right. left. reflexivity.
  - right. left. reflexivity.
Qed.

Lemma is_anime_needs_witness :
  In "["%char (lit "Show [720p].mkv") /\ In "]"%char (lit "Show [720p].mkv")
  /\ In "."%char (lit "Show [720p].mkv") /\ In " "%char (lit "Show [720p].mkv").
Proof.
  exact (is_anime_needs (lit "Show [720p].mkv") eq_refl).
Defined.

(** ** What is printed *)

Lemma warnings_all (words rest : list str) :
  Forall (fun e => e = LanguageWarning words) (warnings_of words rest).
Proof.
  unfold warnings_of. induction rest as [|w l IH]; cbn [flat_map]; [constructor|].
  apply Forall_app. split; [|exact IH].
  destruct (warned w); repeat constructor.
Qed.

Lemma split_attempts_out (value : str) (chars : list ascii) :
  forall tokens failures,
    Forall (fun e => exists c, In c chars /\ e = LanguageWarning (split_on c value))
      (snd (split_attempts value chars tokens failures)).
Proof.
  induction chars as [|c chars IH]; intros tokens failures; [constructor|].
  cbn [split_attempts]. rewrite _tokenise_tag_spec.
  assert (W : Forall (fun e => exists c0, In c0 (c :: chars)
                        /\ e = LanguageWarning (split_on c0 value))
                (warnings_of (split_on c value) (split_on c value))).
  { eapply Forall_impl; [|apply warnings_all].
    intros e ->. exists c. split; [left; reflexivity | reflexivity]. }
  destruct (unclassified_of (split_on c value)) as [|u us];
    unfold try_except_RuntimeError; rewrite bind_ok; cbn [snd];
    apply Forall_app; (split; [exact W|]).
  - constructor.
  - eapply Forall_impl; [|apply IH].
    intros e (c0 & I & ->). exists c0. split; [right; exact I | reflexivity].
Qed.

Lemma split_and_classify_out (string value : str) (tokens : list Token) :
  Forall (printed_for string value) (snd (split_and_classify string value tokens)).
Proof.
  unfold split_and_classify.
  pose proof (split_attempts_out value delimiters tokens []) as W.
  assert (W' : Forall (printed_for string value)
                 (snd (split_attempts value delimiters tokens []))).
  { eapply Forall_impl; [|exact W]. intros e (c & I & ->). exists c. auto. }
  clear W. destruct (split_attempts_spec value delimiters tokens []) as [out H].
  destruct (find _ delimiters) as [c|].
  - destruct H as [fs H]. rewrite H in *. rewrite bind_ok. cbn in *.
    rewrite app_nil_r. exact W'.
  - rewrite H in *. rewrite bind_ok. cbn [fst snd negb] in *.
    apply Forall_app. split; [exact W'|].
    constructor; [|constructor]. cbn. auto.
Qed.

Lemma classify_tag_out (string value : str) (tokens : list Token) :
  Forall (printed_for string value) (snd (classify_tag string value tokens)).
Proof.
  unfold classify_tag.
  destruct (str_in value KNOWN_GROUPS); [constructor|].
  destruct (is_hash value); [constructor|].
  destruct (str_eqb value (lit "Multiple Subtitle")); [constructor|].
  destruct (str_eqb value (lit "Dual Audio")); [constructor|].
  destruct (is_noise value); [constructor|].
  apply split_and_classify_out.
Qed.

Lemma tokenise_step_out (string tag : str) (tags : list str)
    (tokens : list Token) (to_tokenise : list str) :
  findall TAG_PATTERN string = tag :: tags ->
  exists pre post tokens' to_tokenise' out,
    string = pre ++ tag ++ post
    /\ tokenise_step tag (string, tokens, to_tokenise) =
         (Ok (lstrip post, tokens', to_tokenise'), out)
    /\ findall TAG_PATTERN (lstrip post) = tags
    /\ Forall (printed_for string (strip_ends tag)) out.
Proof.
  intros H.
  destruct (@findall_tag_cons (length string) string tag tags (le_n _) H)
    as (_ & pre & post & F & T).
  pose proof (classify_tag_out string (strip_ends tag) tokens) as P.
  unfold tokenise_step.
  destruct (classify_tag_spec string (strip_ends tag) tokens) as [out E].
  rewrite E in *. rewrite bind_ok. cbn [fst snd] in *.
  unfold split_max1. rewrite F. cbn [unpack2 lift bind fst snd].
  exists pre, post. do 3 eexists.
  split; [exact (find_sub_spec _ _ _ _ F)|].
  split; [reflexivity|].
  split; [rewrite findall_tag_lstrip; exact T|].
  rewrite !app_nil_r. exact P.
Qed.

Lemma tokenise_loop_out (tags : list str) :
  forall string tokens to_tokenise,
    findall TAG_PATTERN string = tags ->
    exists st out,
      tokenise_loop tags (string, tokens, to_tokenise) = (Ok st, out)
      /\ Forall (printed_ok string tags) out.
Proof.
  induction tags as [|tag tags IH]; intros string tokens to_tokenise H.
  - do 2 eexists. split; [reflexivity | constructor].
  - destruct (tokenise_step_out string tag tags tokens to_tokenise H)
      as (pre & post & t1 & tt1 & out1 & Es & E & H1 & P1).
    cbn [tokenise_loop]. rewrite E, bind_ok. cbn [fst snd].
    destruct (IH (lstrip post) t1 tt1 H1) as (st & out2 & -> & P2).
    do 2 eexists. split; [reflexivity|]. cbn [snd].
    apply Forall_app. split.
    + eapply Forall_impl; [|exact P1]. intros e Pe.
      exists tag, [], pre, post.
      split; [left; reflexivity|]. split; [exact Es|].
      rewrite <- Es. exact Pe.
    + eapply Forall_impl; [|exact P2].
      intros e (tag' & before & pre' & post' & I & E' & Pe).
      destruct (lstrip_suffix post) as [ws Ews].
      exists tag', (pre ++ tag ++ ws ++ before), pre', post'.
      split; [right; exact I|]. split; [|exact Pe].
      rewrite Es, Ews at 1. rewrite E', <- !app_assoc. reflexivity.
Qed.

(** X17. What [_tokenise] prints, whether it returns or raises, is tied to
    the tags of the filename: each warning shows the words of a split of a
    tag's content on one of the five delimiters, and each failure report
    shows the content of a tag, the failures of the five delimiters in
    their order, and as its text an end of the filename that holds that tag,
    the text still to scan when the tag was met. *)
Theorem printed_lines (string : str) :
  Forall (printed_ok string (findall TAG_PATTERN string)) (snd (_tokenise string)).
Proof.
  unfold _tokenise, extract_tags.
  destruct (tokenise_loop_out (findall TAG_PATTERN string) string [] [] eq_refl)
    as ([[s1 t1] tt1] & out & -> & P).
  rewrite bind_ok. cbn [fst snd ret]. rewrite bind_ok. cbn [fst snd].
  destruct (title_episode_cases t1
              (if nonempty s1 then tt1 ++ [s1] else tt1))
    as [->|(segment & p & _ & _ & ->)];
    cbn [snd]; rewrite !app_nil_r; exact P.
Qed.
